(** * A* path visualisation: the grid model, the search engine and the
      event loop of astar.py

    The development embeds [astar.py] apart from its drawing code: the
    [Node] dataclass, [update_neighbors], [heuristic], [reconstruct_path],
    [algorithm], [make_grid], [get_clicked_pos] and the event loop of
    [main], and proves properties of them.

    Modelling decisions.
    - Python [int] is [Z]; [float("inf")] is the extra value [Inf] of [num].
    - A grid is the list of lists the code builds.  A reference to a [Node]
      object is the position [(i, j)] at which the grid holds that object
      (a grid holds every object once), so lists of nodes, the keys of the
      dictionaries and the members of the set are positions.  The search
      compares and looks up cells by these positions, where the code uses
      the generated [__eq__] and [__hash__]; the two agree on a well-formed
      grid ([Node__eq__wf]), which is what the theorems about the search
      and about [main] assume.
    - [dict] is [gmap], [set] is [gset]; [PriorityQueue] is a list of entries
      from which [get] removes the least one.
    - A Python exception ([KeyError], [IndexError], [ZeroDivisionError]) is
      [None] in a single operation and [Raise] in a loop; the two [while]
      loops take fuel and answer [OutOfFuel] when it is used up.
    - The drawing callback only reads the grid; a call of [draw] is modelled
      by recording the grid it is shown (the latest frame first).  The pygame
      event polling at the head of the search loop is left out.
    - [main] reads its events and the state of the mouse from pygame; here
      they are given as data, one list of events per pass of [while run].
      What [main] draws, and how long it waits, is left out. *)

From Stdlib Require Import ZArith Lia Bool.
From stdpp Require Import gmap list strings pretty.

Local Open Scope Z_scope.

(** ** Colours *)

Abbreviation rgb := (Z * Z * Z)%type.

Module Color.
Definition BACKGROUND : rgb := (10, 10, 20).
Definition GRID : rgb := (30, 40, 60).
Definition OPEN : rgb := (0, 255, 200).
Definition CLOSED : rgb := (255, 0, 150).
Definition BARRIER : rgb := (20, 20, 40).
Definition START : rgb := (200, 0, 255).
Definition END : rgb := (255, 140, 0).
Definition PATH : rgb := (255, 200, 0).
Definition WHITE : rgb := (255, 255, 255).
End Color.

Definition rgb_eqb (a b : rgb) : bool :=
  let '(r1, g1, b1) := a in
  let '(r2, g2, b2) := b in
  (r1 =? r2) && (g1 =? g2) && (b1 =? b2).

(** ** Nodes *)

(** A reference to a node object: its position in the grid. *)
Abbreviation ref := (Z * Z)%type.

Definition ref_eqb (p q : ref) : bool := (p.1 =? q.1) && (p.2 =? q.2).

Fixpoint refs_eqb (l1 l2 : list ref) : bool :=
  match l1, l2 with
  | [], [] => true
  | p :: l1', q :: l2' => ref_eqb p q && refs_eqb l1' l2'
  | _, _ => false
  end.

(** The dataclass fields, in declaration order.  The attributes [x] and [y]
    set by [__post_init__] are used for drawing only and are left out. *)
Record Node := mkNode {
  row : Z;
  col : Z;
  width : Z;
  total_rows : Z;
  color : rgb;
  neighbors : list ref
}.

(** [Node(row, col, width, total_rows)] followed by [__post_init__]. *)
Definition Node_new (r c w t : Z) : Node := mkNode r c w t Color.WHITE [].

Definition get_pos (n : Node) : Z * Z := (row n, col n).

Definition is_closed (n : Node) : bool := rgb_eqb (color n) Color.CLOSED.
Definition is_open (n : Node) : bool := rgb_eqb (color n) Color.OPEN.
Definition is_barrier (n : Node) : bool := rgb_eqb (color n) Color.BARRIER.
Definition is_start (n : Node) : bool := rgb_eqb (color n) Color.START.
Definition is_end (n : Node) : bool := rgb_eqb (color n) Color.END.
(** The code has no [is_path]; it is the query of the same shape. *)
Definition is_path (n : Node) : bool := rgb_eqb (color n) Color.PATH.

Definition set_color (c : rgb) (n : Node) : Node :=
  mkNode (row n) (col n) (width n) (total_rows n) c (neighbors n).

Definition set_neighbors (l : list ref) (n : Node) : Node :=
  mkNode (row n) (col n) (width n) (total_rows n) (color n) l.

Definition reset : Node -> Node := set_color Color.WHITE.
Definition make_closed : Node -> Node := set_color Color.CLOSED.
Definition make_open : Node -> Node := set_color Color.OPEN.
Definition make_barrier : Node -> Node := set_color Color.BARRIER.
Definition make_start : Node -> Node := set_color Color.START.
Definition make_end : Node -> Node := set_color Color.END.
Definition make_path : Node -> Node := set_color Color.PATH.

(** The value of [a == b] for two cells of one well-formed grid (see
    [Node__eq__] for the comparison in general, and [Node_eq_wf]): all six
    fields are compared, the neighbour lists item by item, where two items
    are references, equal when they are the same object. *)
Definition Node_eq (a b : Node) : bool :=
  (row a =? row b) && (col a =? col b) && (width a =? width b)
  && (total_rows a =? total_rows b) && rgb_eqb (color a) (color b)
  && refs_eqb (neighbors a) (neighbors b).

(** [__hash__] as [unsafe_hash=True] generates it: the hash of the tuple of
    the fields that are not declared [hash=False].  The model keeps the
    tuple that is hashed. *)
Definition Node_hash_key (n : Node) : Z * Z * Z * Z :=
  (row n, col n, width n, total_rows n).

(** [__lt__] *)
Definition Node_lt (a b : ref) : bool := false.

(** ** Grids *)

Abbreviation Grid := (list (list Node)).

(** [l[i]] for a Python list: the position read, [None] for [IndexError]. *)
Definition py_index {A} (l : list A) (i : Z) : option Z :=
  let n := Z.of_nat (length l) in
  if (0 <=? i) && (i <? n) then Some i
  else if (- n <=? i) && (i <? 0) then Some (n + i)
  else None.

(** The node a reference denotes. *)
Definition node_at (grid : Grid) (p : ref) : option Node :=
  if (0 <=? p.1) && (0 <=? p.2)
  then rowl ← grid !! Z.to_nat p.1; rowl !! Z.to_nat p.2
  else None.

(** The expression [grid[i][j]]: the object found and its reference. *)
Definition grid_item (grid : Grid) (i j : Z) : option (ref * Node) :=
  i' ← py_index grid i;
  rowl ← grid !! Z.to_nat i';
  j' ← py_index rowl j;
  nd ← rowl !! Z.to_nat j';
  Some ((i', j'), nd).

(** A method call that mutates the object behind a reference. *)
Definition update_node (grid : Grid) (p : ref) (f : Node -> Node) : Grid :=
  if (0 <=? p.1) && (0 <=? p.2)
  then alter (alter f (Z.to_nat p.2)) (Z.to_nat p.1) grid
  else grid.

(** The references of [for row in grid for node in row]. *)
Definition row_refs (i : nat) (rowl : list Node) : list ref :=
  (fun j : nat => (Z.of_nat i, Z.of_nat j)) <$> seq 0 (length rowl).

Definition all_refs (grid : Grid) : list ref := mjoin (imap row_refs grid).

(** One of the four tests of [update_neighbors]:
    [if cond and not grid[i][j].is_barrier(): self.neighbors.append(grid[i][j])]. *)
Definition probe (grid : Grid) (cond : bool) (i j : Z) (acc : list ref)
  : option (list ref) :=
  if cond then
    '(q, nd) ← grid_item grid i j;
    Some (if is_barrier nd then acc else acc ++ [q])
  else Some acc.

Definition update_neighbors (self : Node) (grid : Grid) : option Node :=
  let cleared : list ref := [] in
  down ← probe grid (row self <? total_rows self - 1) (row self + 1) (col self) cleared;
  up ← probe grid (0 <? row self) (row self - 1) (col self) down;
  right ← probe grid (col self <? total_rows self - 1) (row self) (col self + 1) up;
  left ← probe grid (0 <? col self) (row self) (col self - 1) right;
  Some (set_neighbors left self).

(** [node.update_neighbors(grid)] on the node behind [p]. *)
Definition refresh_node (grid : Grid) (p : ref) : option Grid :=
  nd ← node_at grid p;
  nd' ← update_neighbors nd grid;
  Some (update_node grid p (fun _ => nd')).

Fixpoint refresh_list (ps : list ref) (grid : Grid) : option Grid :=
  match ps with
  | [] => Some grid
  | p :: ps' => grid' ← refresh_node grid p; refresh_list ps' grid'
  end.

(** The double loop of [main] that runs before every search. *)
Definition refresh_all (grid : Grid) : option Grid :=
  refresh_list (all_refs grid) grid.

(** [make_grid]; [width // rows] raises for [rows = 0]. *)
Definition make_grid (rows width : Z) : option Grid :=
  if rows =? 0 then None
  else
    let gap := width / rows in
    Some ((fun i => (fun j => Node_new i j gap rows) <$> seqZ 0 rows) <$> seqZ 0 rows).

(** ** Scores and the frontier *)

Inductive num := Fin (z : Z) | Inf.

Definition num_ltb (a b : num) : bool :=
  match a, b with
  | Fin x, Fin y => x <? y
  | Fin _, Inf => true
  | Inf, _ => false
  end.

Definition num_eqb (a b : num) : bool :=
  match a, b with
  | Fin x, Fin y => x =? y
  | Inf, Inf => true
  | _, _ => false
  end.

Definition num_add (a : num) (z : Z) : num :=
  match a with
  | Fin x => Fin (x + z)
  | Inf => Inf
  end.

Abbreviation entry := (num * Z * (Z * Z))%type.

(** Tuple comparison [a < b] of two queue entries. *)
Definition entry_ltb (a b : entry) : bool :=
  let '(f1, c1, n1) := a in
  let '(f2, c2, n2) := b in
  if num_eqb f1 f2
  then (if c1 =? c2 then Node_lt n1 n2 else c1 <? c2)
  else num_ltb f1 f2.

Definition pq_put (e : entry) (q : list entry) : list entry := q ++ [e].

(** [open_set.get()]: the least entry and the queue without it. *)
Fixpoint pq_get (q : list entry) : option (entry * list entry) :=
  match q with
  | [] => None
  | e :: q' =>
      match pq_get q' with
      | None => Some (e, [])
      | Some (m, rest) =>
          if entry_ltb m e then Some (m, e :: rest) else Some (e, q')
      end
  end.

Definition heuristic (p1 p2 : Z * Z) : Z :=
  let '(x1, y1) := p1 in
  let '(x2, y2) := p2 in
  Z.abs (x1 - x2) + Z.abs (y1 - y2).

(** ** The search *)

Inductive result (A : Type) : Type :=
| Return (a : A)
| Raise
| OutOfFuel.
Arguments Return {A} a.
Arguments Raise {A}.
Arguments OutOfFuel {A}.

Record State := mkState {
  st_grid : Grid;
  open_set : list entry;
  came_from : gmap ref ref;
  g_score : gmap ref num;
  f_score : gmap ref num;
  open_set_hash : gset ref;
  count : Z;
  draws : list (list (list Node))
}.

(** [reconstruct_path]; the result carries the grid after the marking and
    the frames drawn. *)
Fixpoint reconstruct_loop (fuel : nat) (cf : gmap ref ref) (current : ref)
    (path_length : Z) (grid : Grid) (dr : list Grid)
  : result (Z * Grid * list Grid) :=
  match fuel with
  | O => OutOfFuel
  | S fuel' =>
      match cf !! current with
      | None => Return (path_length, grid, dr)
      | Some prev =>
          let grid' := update_node grid prev make_path in
          reconstruct_loop fuel' cf prev (path_length + 1) grid' (grid' :: dr)
      end
  end.

Definition reconstruct_path (fuel : nat) (cf : gmap ref ref) (current : ref)
    (grid : Grid) (dr : list Grid) : result (Z * Grid * list Grid) :=
  reconstruct_loop fuel cf current 1 grid dr.

(** The dictionary [{node: float("inf") for row in grid for node in row}]. *)
Definition all_inf (grid : Grid) : gmap ref num :=
  foldr (fun p m => <[p := Inf]> m) ∅ (all_refs grid).

(** The body of [for neighbor in current.neighbors]. *)
Definition relax (current end_ neighbor : ref) (st : State) : option State :=
  gc ← g_score st !! current;
  let temp_g_score := num_add gc 1 in
  gn ← g_score st !! neighbor;
  if num_ltb temp_g_score gn then
    nnode ← node_at (st_grid st) neighbor;
    enode ← node_at (st_grid st) end_;
    let cf := <[neighbor := current]> (came_from st) in
    let g := <[neighbor := temp_g_score]> (g_score st) in
    let fv := num_add temp_g_score (heuristic (get_pos nnode) (get_pos enode)) in
    let f := <[neighbor := fv]> (f_score st) in
    if decide (neighbor ∈ open_set_hash st) then
      Some (mkState (st_grid st) (open_set st) cf g f (open_set_hash st)
              (count st) (draws st))
    else
      let count' := count st + 1 in
      Some (mkState (update_node (st_grid st) neighbor make_open)
              (pq_put (fv, count', neighbor) (open_set st)) cf g f
              ({[neighbor]} ∪ open_set_hash st) count' (draws st))
  else Some st.

Fixpoint for_neighbors (current end_ : ref) (l : list ref) (st : State)
  : option State :=
  match l with
  | [] => Some st
  | neighbor :: l' =>
      st' ← relax current end_ neighbor st;
      for_neighbors current end_ l' st'
  end.

(** One pass of the [while] body that does not return: the relaxations,
    [draw()], and [make_closed]. *)
Definition expand (start end_ current : ref) (st : State) : option State :=
  cnode ← node_at (st_grid st) current;
  st' ← for_neighbors current end_ (neighbors cnode) st;
  let grid' :=
    if ref_eqb current start then st_grid st'
    else update_node (st_grid st') current make_closed in
  Some (mkState grid' (open_set st') (came_from st') (g_score st')
          (f_score st') (open_set_hash st') (count st')
          (st_grid st' :: draws st')).

(** The success exit: [reconstruct_path], [end.make_end()],
    [start.make_start()]. *)
Definition finish (rfuel : nat) (start end_ : ref) (st : State)
  : result (bool * Z * State) :=
  match reconstruct_path rfuel (came_from st) end_ (st_grid st) (draws st) with
  | Return (path_length, grid', dr) =>
      let grid'' := update_node (update_node grid' end_ make_end) start make_start in
      Return (true, path_length,
              mkState grid'' (open_set st) (came_from st) (g_score st)
                (f_score st) (open_set_hash st) (count st) dr)
  | Raise => Raise
  | OutOfFuel => OutOfFuel
  end.

(** [while not open_set.empty(): ...] followed by [return False, path_length]. *)
Fixpoint loop (fuel rfuel : nat) (start end_ : ref) (path_length : Z)
    (st : State) : result (bool * Z * State) :=
  match fuel with
  | O => OutOfFuel
  | S fuel' =>
      match pq_get (open_set st) with
      | None => Return (false, path_length, st)
      | Some ((_, _, current), rest) =>
          if decide (current ∈ open_set_hash st) then
            let st1 := mkState (st_grid st) rest (came_from st) (g_score st)
                         (f_score st) (open_set_hash st ∖ {[current]})
                         (count st) (draws st) in
            if ref_eqb current end_ then finish rfuel start end_ st1
            else
              match expand start end_ current st1 with
              | None => Raise
              | Some st2 => loop fuel' rfuel start end_ path_length st2
              end
          else Raise
      end
  end.

(** The state before the loop. *)
Definition init (grid : Grid) (start end_ : ref) : option State :=
  snode ← node_at grid start;
  enode ← node_at grid end_;
  let count := 0 in
  let open_set := pq_put (Fin 0, count, start) [] in
  let g := <[start := Fin 0]> (all_inf grid) in
  let f := <[start := Fin (heuristic (get_pos snode) (get_pos enode))]> (all_inf grid) in
  Some (mkState grid open_set ∅ g f {[start]} count []).

(** [algorithm(draw, grid, start, end)]: the returned pair and the state the
    call leaves behind.  Both loops get the same fuel. *)
Definition algorithm (fuel : nat) (grid : Grid) (start end_ : ref)
  : result (bool * Z * State) :=
  let path_length := 0 in
  match init grid start end_ with
  | None => Raise
  | Some st => loop fuel fuel start end_ path_length st
  end.

(** What the caller receives. *)
Definition answer (r : result (bool * Z * State)) : result (bool * Z) :=
  match r with
  | Return (b, n, _) => Return (b, n)
  | Raise => Raise
  | OutOfFuel => OutOfFuel
  end.

(** ** Building grids as [main] does *)

Definition paint (f : Node -> Node) (ps : list ref) (grid : Grid) : Grid :=
  foldr (fun p g => update_node g p f) grid ps.

(** A grid of [rows] rows with the given barriers, start and end cells,
    and every neighbour list recomputed. *)
Definition scene (rows : Z) (barriers : list ref) (start end_ : ref) : option Grid :=
  grid ← make_grid rows 800;
  refresh_all
    (update_node (update_node (paint make_barrier barriers grid) start make_start)
       end_ make_end).

(** ** Well-formed grids and the graph they describe *)

(** The cell behind [p] carries its own position and the size of the grid,
    as [make_grid] sets them. *)
Definition cell_ok (grid : Grid) (p : ref) : bool :=
  match node_at grid p with
  | Some nd =>
      (row nd =? p.1) && (col nd =? p.2)
      && (total_rows nd =? Z.of_nat (length grid))
  | None => false
  end.

(** A square grid whose cells know where they are. *)
Definition well_formed (grid : Grid) : bool :=
  forallb (fun rowl : list Node => Nat.eqb (length rowl) (length grid)) grid
  && forallb (cell_ok grid) (all_refs grid).

(** The four orthogonal positions around [p]: down, up, right, left. *)
Definition around (p : ref) : list ref :=
  [(p.1 + 1, p.2); (p.1 - 1, p.2); (p.1, p.2 + 1); (p.1, p.2 - 1)].

(** A cell of the grid that is not a barrier. *)
Definition passable (grid : Grid) (q : ref) : bool :=
  match node_at grid q with
  | Some nd => negb (is_barrier nd)
  | None => false
  end.

(** The neighbour list of the cell behind [p] is what [update_neighbors]
    would compute now. *)
Definition cache_ok (grid : Grid) (p : ref) : bool :=
  match node_at grid p with
  | Some nd =>
      match update_neighbors nd grid with
      | Some nd' => refs_eqb (neighbors nd) (neighbors nd')
      | None => false
      end
  | None => false
  end.

Definition refreshed (grid : Grid) : bool := forallb (cache_ok grid) (all_refs grid).

Definition in_bounds (grid : Grid) (p : ref) : Prop :=
  0 <= p.1 < Z.of_nat (length grid) /\ 0 <= p.2 < Z.of_nat (length grid).

Definition adjacent (p q : ref) : Prop :=
  Z.abs (p.1 - q.1) + Z.abs (p.2 - q.2) = 1.

(** Cell [p] lists cell [q] as a neighbour. *)
Definition lists (grid : Grid) (p q : ref) : Prop :=
  exists nd, node_at grid p = Some nd /\ q ∈ neighbors nd.

(** One move of a route: to an orthogonal position that is a cell and not a
    barrier. *)
Definition step (grid : Grid) (p q : ref) : bool :=
  existsb (ref_eqb q) (around p) && passable grid q.

(** [is_route grid p l q]: starting at [p], moving through the cells of [l]
    in turn ends at [q].  The route has [length l] moves and
    [length l + 1] cells. *)
Fixpoint is_route (grid : Grid) (p : ref) (l : list ref) (q : ref) : bool :=
  match l with
  | [] => ref_eqb p q
  | x :: l' => step grid p x && is_route grid x l' q
  end.

(** ** Notions used in the proofs *)

(** Well-formedness as a proposition. *)

Definition wf (grid : Grid) : Prop :=
  Forall (fun rowl : list Node => length rowl = length grid) grid
  /\ forall p nd, node_at grid p = Some nd ->
       row nd = p.1 /\ col nd = p.2 /\ total_rows nd = Z.of_nat (length grid).

(** The node [nd] behind [p] after its neighbour list was recomputed
    against the barrier layout of [grid]. *)
Definition fresh (grid : Grid) (p : ref) (nd : Node) : Node :=
  set_neighbors (List.filter (passable grid) (around p)) nd.

(** [g] is [grid] up to the neighbour lists. *)
Definition same_cells (grid g : Grid) : Prop :=
  wf g /\ forall q, exists l, node_at g q = set_neighbors l <$> node_at grid q.

(** ** Concrete grids *)

(** Two rows and two columns, the corner [(0, 0)] painted as a barrier,
    before the neighbour lists are computed. *)
Definition corner_grid : Grid :=
  Eval vm_compute in
    paint make_barrier [(0, 0)] (default [] (make_grid 2 800)).

(** Five rows, no barrier, start at [(0, 0)] and end at [(4, 4)]. *)
Definition open_grid : Grid :=
  Eval vm_compute in default [] (scene 5 [] (0, 0) (4, 4)).

(** Sums over a score dictionary. *)

Definition sum_entries (w : num -> Z) (l : list (Z * Z * num)) : Z :=
  foldr (fun kv acc => w kv.2 + acc) 0 l.

Definition msum (w : num -> Z) (m : gmap (Z * Z) num) : Z :=
  sum_entries w (map_to_list m).

(** The number of entries, the number of finite entries, and the total
    weight when an infinite entry weighs [N]. *)
Definition one (v : num) : Z := 1.
Definition finite_one (v : num) : Z := match v with Fin _ => 1 | Inf => 0 end.
Definition weight (N : Z) (v : num) : Z := match v with Fin k => k | Inf => N end.

(** [walk cf p l]: [l] lists the predecessors met when walking [cf] back
    from [p], nearest first, down to a cell that has no predecessor. *)
Inductive walk (cf : gmap (Z * Z) (Z * Z)) : ref -> list ref -> Prop :=
| walk_stop p : cf !! p = None -> walk cf p []
| walk_back p q l : cf !! p = Some q -> walk cf q l -> walk cf p (q :: l).

(** The grid after the cells of [l] were marked as path, in turn. *)
Definition mark_path (l : list ref) (grid : Grid) : Grid :=
  foldl (fun g q => update_node g q make_path) grid l.

(** The frames drawn while the cells of [l] are marked, latest first. *)
Fixpoint path_frames (l : list ref) (grid : Grid) (dr : list Grid) : list Grid :=
  match l with
  | [] => dr
  | q :: l' =>
      let grid' := update_node grid q make_path in
      path_frames l' grid' (grid' :: dr)
  end.

(** ** The invariant of the search loop *)

(** The number of keys of the score dictionaries of a search. *)
Definition cells_of (grid0 : Grid) (start : ref) : Z :=
  msum one (<[start := Fin 0]> (all_inf grid0)).

(** [g] is the grid [grid0] up to colours, and a cell whose colour differs
    is the start cell or a cell that was no barrier, and has a colour other
    than the barrier colour. *)
Definition recolored (grid0 : Grid) (start : ref) (g : Grid) : Prop :=
  forall p,
    match node_at grid0 p with
    | None => node_at g p = None
    | Some nd0 =>
        exists c, node_at g p = Some (set_color c nd0)
          /\ (c = color nd0
              \/ (rgb_eqb c Color.BARRIER = false
                  /\ (p = start \/ passable grid0 p = true)))
    end.

Record scores_ok (grid0 : Grid) (start : ref)
    (g : gmap (Z * Z) num) (cf : gmap (Z * Z) (Z * Z)) : Prop := {
  sc_dom : forall p, is_Some (g !! p) <-> is_Some (node_at grid0 p);
  sc_entries : msum one g = cells_of grid0 start;
  sc_start : g !! start = Some (Fin 0);
  sc_bound : forall p k, g !! p = Some (Fin k) -> 0 <= k < msum finite_one g;
  sc_cf : forall p q, cf !! p = Some q ->
    p <> start /\ step grid0 q p = true
    /\ exists kp kq, g !! p = Some (Fin kp) /\ g !! q = Some (Fin kq) /\ kq + 1 <= kp;
  sc_cf_total : forall p k, g !! p = Some (Fin k) -> p <> start -> is_Some (cf !! p)
}.

Record open_ok (os : list entry) (hash : gset (Z * Z)) (g : gmap (Z * Z) num)
  : Prop := {
  op_mem : forall p, p ∈ hash <-> p ∈ (snd <$> os);
  op_nodup : NoDup (snd <$> os);
  op_fin : forall p, p ∈ hash -> exists k, g !! p = Some (Fin k)
}.

Definition Inv (grid0 : Grid) (start : ref) (st : State) : Prop :=
  recolored grid0 start (st_grid st)
  /\ Forall (recolored grid0 start) (draws st)
  /\ scores_ok grid0 start (g_score st) (came_from st)
  /\ open_ok (open_set st) (open_set_hash st) (g_score st).

(** The quantity that every pass of the loop decreases. *)
Definition measure (grid0 : Grid) (start : ref) (st : State) : Z :=
  2 * msum (weight (cells_of grid0 start)) (g_score st)
  + Z.of_nat (length (open_set st)).

(** The state [finish] leaves when the walk back from [end_] is [l]. *)
Definition final_state (start end_ : ref) (l : list ref) (st : State) : State :=
  mkState
    (update_node (update_node (mark_path l (st_grid st)) end_ make_end) start make_start)
    (open_set st) (came_from st) (g_score st) (f_score st) (open_set_hash st)
    (count st) (path_frames l (st_grid st) (draws st)).

(** What holds when the search answers [(true, L)] and leaves [st']. *)
Definition Found (grid0 : Grid) (start end_ : ref) (L : Z) (st' : State) : Prop :=
  exists st1 l l',
    walk (came_from st1) end_ l
    /\ rev (end_ :: l) = start :: l'
    /\ is_route grid0 start l' end_ = true
    /\ (forall q, q ∈ l -> q <> end_)
    /\ Z.of_nat (length l) < cells_of grid0 start
    /\ L = 1 + Z.of_nat (length l)
    /\ st' = final_state start end_ l st1
    /\ recolored grid0 start (st_grid st1)
    /\ recolored grid0 start (st_grid st')
    /\ Forall (recolored grid0 start) (draws st').

(** What holds when the search answers [(b, L)] and leaves [st']. *)
Definition Post (grid0 : Grid) (start end_ : ref) (b : bool) (L : Z) (st' : State)
  : Prop :=
  if b then Found grid0 start end_ L st'
  else L = 0 /\ Inv grid0 start st' /\ open_set st' = [].

(** Every cell that has a finite score and has left the frontier, other
    than [skip], has only neighbours with finite scores. *)
Definition expanded_ok (grid0 : Grid) (skip : option (Z * Z)) (hash : gset (Z * Z))
    (g : gmap (Z * Z) num) : Prop :=
  forall p k, g !! p = Some (Fin k) -> p ∉ hash -> Some p <> skip ->
    forall q, step grid0 p q = true -> exists k', g !! q = Some (Fin k').

(** Once the end cell has a finite score it waits in the frontier. *)
Definition end_waits (end_ : ref) (hash : gset (Z * Z)) (g : gmap (Z * Z) num) : Prop :=
  forall k, g !! end_ = Some (Fin k) -> end_ ∈ hash.

(** ** Fuel and further grids *)

(** Fuel that is enough for a search on [grid]. *)
Definition enough_fuel (grid : Grid) : nat :=
  2 * length (all_refs grid) * length (all_refs grid) + 2.

(** Five rows, the start cell [(2, 2)] walled in on its four sides. *)
Definition enclosed_grid : Grid :=
  Eval vm_compute in
    default [] (scene 5 [(1, 2); (3, 2); (2, 1); (2, 3)] (2, 2) (4, 4)).

(** Two rows, start at [(0, 0)] and end at [(0, 1)]. *)
Definition pair_grid : Grid :=
  Eval vm_compute in default [] (scene 2 [] (0, 0) (0, 1)).

(** The state the search leaves on [pair_grid]. *)
Definition pair_final : State :=
  Eval vm_compute in
    match algorithm 10 pair_grid (0, 0) (0, 1) with
    | Return (_, _, st) => st
    | _ => mkState [] [] ∅ ∅ ∅ ∅ 0 []
    end.

(** ** A grid on which the search misses the shortest route *)

(** Nine rows.  Rows 4 to 8 are barriers; above them ([S] start, [E] end,
    [#] barrier):
<<
      E##......
      .#..#.##S
      .#.#..##.
      .........
>> *)
Definition maze_barriers : list ref :=
  [(0, 1); (0, 2); (1, 1); (1, 4); (1, 6); (1, 7); (2, 1); (2, 3); (2, 6); (2, 7)]
  ++ (r ← seqZ 4 5; c ← seqZ 0 9; [(r, c)]).

Definition maze : Grid :=
  Eval vm_compute in default [] (scene 9 maze_barriers (1, 8) (0, 0)).

(** Down the right edge, along row 3, up the left edge: 13 moves, 14 cells. *)
Definition short_route : list ref :=
  [(2, 8); (3, 8); (3, 7); (3, 6); (3, 5); (3, 4); (3, 3); (3, 2); (3, 1);
   (3, 0); (2, 0); (1, 0); (0, 0)].

(** The same layout in the top left corner of the grid of fifty rows that
    [main] builds, closed off by a wall along row 4 and column 9. *)
Definition maze_barriers_50 : list ref :=
  [(0, 1); (0, 2); (1, 1); (1, 4); (1, 6); (1, 7); (2, 1); (2, 3); (2, 6); (2, 7)]
  ++ ((fun c => (4, c)) <$> seqZ 0 10) ++ ((fun r => (r, 9)) <$> seqZ 0 4).

(** ** Further parts of the program *)

(** The attributes [x] and [y] that [__post_init__] computes. *)
Definition Node_x (n : Node) : Z := row n * width n.
Definition Node_y (n : Node) : Z := col n * width n.

(** [get_clicked_pos]; both floor divisions raise [ZeroDivisionError] on a
    zero divisor. *)
Definition get_clicked_pos (pos : Z * Z) (rows width : Z) : option (Z * Z) :=
  if rows =? 0 then None
  else
    let gap := width / rows in
    let '(y, x) := pos in
    if gap =? 0 then None
    else
      let row := y / gap in
      let col := x / gap in
      Some (row, col).

(** Two grids that differ at most in the colours of their cells. *)
Definition alike (ga gb : Grid) : Prop :=
  forall p, reset <$> node_at ga p = reset <$> node_at gb p.

(** Two search states that differ at most in the colours of the cells of
    their grids and frames. *)
Definition alike_st (sa sb : State) : Prop :=
  alike (st_grid sa) (st_grid sb)
  /\ open_set sa = open_set sb
  /\ came_from sa = came_from sb
  /\ g_score sa = g_score sb
  /\ f_score sa = f_score sb
  /\ open_set_hash sa = open_set_hash sb
  /\ count sa = count sb
  /\ Forall2 alike (draws sa) (draws sb).

Definition alike_opt (oa ob : option State) : Prop :=
  match oa, ob with
  | Some sa, Some sb => alike_st sa sb
  | None, None => True
  | _, _ => False
  end.

Definition alike_res (ra rb : result (bool * Z * State)) : Prop :=
  match ra, rb with
  | Return (b1, n1, sa), Return (b2, n2, sb) => b1 = b2 /\ n1 = n2 /\ alike_st sa sb
  | Raise, Raise => True
  | OutOfFuel, OutOfFuel => True
  | _, _ => False
  end.

Definition alike_path (ra rb : result (Z * Grid * list Grid)) : Prop :=
  match ra, rb with
  | Return (n1, ga, da), Return (n2, gb, db) =>
      n1 = n2 /\ alike ga gb /\ Forall2 alike da db
  | Raise, Raise => True
  | OutOfFuel, OutOfFuel => True
  | _, _ => False
  end.

(** ** The event loop of [main] *)

Inductive key := K_SPACE | K_c | K_other.

Inductive event_type := QUIT | KEYDOWN (k : key) | OTHER.

(** What one pass of [for event in pygame.event.get()] reads: the event, and
    what [pygame.mouse.get_pressed()] (buttons 0 and 2) and
    [pygame.mouse.get_pos()] answer during that pass. *)
Record Event := mkEvent {
  ev_type : event_type;
  left_pressed : bool;
  right_pressed : bool;
  mouse_pos : Z * Z
}.

(** The local variables of [main] and the window caption. *)
Record App := mkApp {
  app_grid : Grid;
  app_start : option ref;
  app_end : option ref;
  app_path_length : Z;
  app_run : bool;
  app_caption : string
}.

Definition ROWS : Z := 50.

Definition title : string := "A* Path Finding Algorithm".

Definition caption_found (path_length : Z) : string :=
  "A* Path Finding Algorithm - Shortest path: " +:+ pretty path_length +:+ " blocks".

Definition caption_none : string := "A* Path Finding Algorithm - No path found".

(** [not start] for a variable that holds [None] or a node. *)
Definition unset (o : option ref) : bool :=
  match o with
  | None => true
  | Some _ => false
  end.

(** [node == other] for the node behind [q] and a variable that holds
    [None] or a node of the grid: the generated [__eq__] compares the
    fields of the two objects, and no node equals [None]. *)
Definition same_node (grid : Grid) (q : ref) (o : option ref) : bool :=
  match o with
  | None => false
  | Some p =>
      match node_at grid q, node_at grid p with
      | Some a, Some b => Node_eq a b
      | _, _ => false
      end
  end.

(** [row, col = get_clicked_pos(pos, ROWS, width); node = grid[row][col]]. *)
Definition click_target (rows width : Z) (pos : Z * Z) (grid : Grid) : option ref :=
  '(r, c) ← get_clicked_pos pos rows width;
  '(q, _) ← grid_item grid r c;
  Some q.

(** The three branches under the left button. *)
Definition left_click (q : ref) (app : App) : App :=
  let grid := app_grid app in
  if unset (app_start app) && negb (same_node grid q (app_end app)) then
    mkApp (update_node grid q make_start) (Some q) (app_end app)
      (app_path_length app) (app_run app) (app_caption app)
  else if unset (app_end app) && negb (same_node grid q (app_start app)) then
    mkApp (update_node grid q make_end) (app_start app) (Some q)
      (app_path_length app) (app_run app) (app_caption app)
  else if negb (same_node grid q (app_end app))
          && negb (same_node grid q (app_start app)) then
    mkApp (update_node grid q make_barrier) (app_start app) (app_end app)
      (app_path_length app) (app_run app) (app_caption app)
  else app.

(** The branch under the right button: [node.reset()] comes first. *)
Definition right_click (q : ref) (app : App) : App :=
  let grid := update_node (app_grid app) q reset in
  if same_node grid q (app_start app) then
    mkApp grid None (app_end app) (app_path_length app) (app_run app) (app_caption app)
  else if same_node grid q (app_end app) then
    mkApp grid (app_start app) None (app_path_length app) (app_run app) (app_caption app)
  else
    mkApp grid (app_start app) (app_end app) (app_path_length app) (app_run app)
      (app_caption app).

(** [if event.key == pygame.K_SPACE and start and end: ...]: every cell is
    refreshed, the search runs, the caption reports its answer.  The frames
    the search draws are not kept. *)
Definition press_space (fuel : nat) (app : App) : result App :=
  match app_start app, app_end app with
  | Some s, Some e =>
      match refresh_all (app_grid app) with
      | None => Raise
      | Some grid =>
          match algorithm fuel grid s e with
          | Return (found, path_length, st) =>
              Return (mkApp (st_grid st) (Some s) (Some e) path_length (app_run app)
                        (if found then caption_found path_length else caption_none))
          | Raise => Raise
          | OutOfFuel => OutOfFuel
          end
      end
  | _, _ => Return app
  end.

(** [if event.key == pygame.K_c: ...]. *)
Definition press_c (rows width : Z) (app : App) : result App :=
  match make_grid rows width with
  | None => Raise
  | Some grid => Return (mkApp grid None None 0 (app_run app) title)
  end.

(** The body of [for event in pygame.event.get()]. *)
Definition handle_event (fuel : nat) (rows width : Z) (ev : Event) (app : App)
  : result App :=
  let app1 :=
    match ev_type ev with
    | QUIT =>
        mkApp (app_grid app) (app_start app) (app_end app) (app_path_length app)
          false (app_caption app)
    | _ => app
    end in
  let clicked :=
    if left_pressed ev then
      match click_target rows width (mouse_pos ev) (app_grid app1) with
      | Some q => Return (left_click q app1)
      | None => Raise
      end
    else if right_pressed ev then
      match click_target rows width (mouse_pos ev) (app_grid app1) with
      | Some q => Return (right_click q app1)
      | None => Raise
      end
    else Return app1 in
  match clicked with
  | Return app2 =>
      match ev_type ev with
      | KEYDOWN K_SPACE => press_space fuel app2
      | KEYDOWN K_c => press_c rows width app2
      | _ => Return app2
      end
  | Raise => Raise
  | OutOfFuel => OutOfFuel
  end.

(** One pass of the [for] loop over the events of a frame. *)
Fixpoint handle_events (fuel : nat) (rows width : Z) (evs : list Event) (app : App)
  : result App :=
  match evs with
  | [] => Return app
  | ev :: evs' =>
      match handle_event fuel rows width ev app with
      | Return app' => handle_events fuel rows width evs' app'
      | Raise => Raise
      | OutOfFuel => OutOfFuel
      end
  end.

(** [while run: ...], fed with the events of the successive frames; the
    state reached when the loop ends or the given frames are used up. *)
Fixpoint main_loop (fuel : nat) (rows width : Z) (frames : list (list Event))
    (app : App) : result App :=
  match frames with
  | [] => Return app
  | evs :: frames' =>
      if app_run app then
        match handle_events fuel rows width evs app with
        | Return app' => main_loop fuel rows width frames' app'
        | Raise => Raise
        | OutOfFuel => OutOfFuel
        end
      else Return app
  end.

(** The state [main] sets up before its loop, for a grid of [rows] rows. *)
Definition main_init (rows width : Z) : option App :=
  grid ← make_grid rows width;
  Some (mkApp grid None None 0 true title).

(** [main(win, width)]. *)
Definition main (fuel : nat) (width : Z) (frames : list (list Event)) : result App :=
  match main_init ROWS width with
  | None => Raise
  | Some app => main_loop fuel ROWS width frames app
  end.

(** What [main] keeps true of its variables: the grid is a well-formed grid
    of [rows] rows, the start and end cells, when chosen, are cells of the
    grid that carry the start and the end colour, and they are two cells. *)
Definition app_ok (rows : Z) (app : App) : Prop :=
  well_formed (app_grid app) = true
  /\ Z.of_nat (length (app_grid app)) = rows
  /\ (forall s, app_start app = Some s ->
        is_start <$> node_at (app_grid app) s = Some true)
  /\ (forall e, app_end app = Some e ->
        is_end <$> node_at (app_grid app) e = Some true)
  /\ (forall s e, app_start app = Some s -> app_end app = Some e -> s <> e).

(** [g'] results from [g] by calls of colour setters. *)
Inductive repainted (g : Grid) : Grid -> Prop :=
| repainted_refl : repainted g g
| repainted_step g' p c :
    repainted g g' -> repainted g (update_node g' p (set_color c)).

(** Fuel that is enough for a search on a grid of [rows] rows. *)
Definition fuel_for (rows : Z) : nat := Z.to_nat (2 * (rows * rows) * (rows * rows) + 2).

(** The colours of a search in progress: the start cell is as it was; any
    other cell, the cell [skip] under expansion apart, is open while it
    waits in the frontier, closed once it has left it, and as it was as
    long as its score is infinite. *)
Definition painted (grid0 : Grid) (start : ref) (skip : option ref) (st : State)
  : Prop :=
  node_at (st_grid st) start = node_at grid0 start
  /\ forall p, p <> start -> Some p <> skip ->
       match g_score st !! p with
       | Some (Fin _) =>
           color <$> node_at (st_grid st) p
           = Some (if decide (p ∈ open_set_hash st) then Color.OPEN else Color.CLOSED)
       | _ => node_at (st_grid st) p = node_at grid0 p
       end.

(** Three rows, the middle column walled: start at [(0, 0)], end at
    [(0, 2)], and the state the search leaves. *)
Definition walled_grid : Grid :=
  Eval vm_compute in default [] (scene 3 [(0, 1); (1, 1); (2, 1)] (0, 0) (0, 2)).

Definition walled_final : State :=
  Eval vm_compute in
    match algorithm 20 walled_grid (0, 0) (0, 2) with
    | Return (_, _, st) => st
    | _ => mkState [] [] ∅ ∅ ∅ ∅ 0 []
    end.

(** Three rows without barriers, start at [(0, 0)], end at [(0, 2)], and
    the state the search leaves. *)
Definition field_grid : Grid :=
  Eval vm_compute in default [] (scene 3 [] (0, 0) (0, 2)).

Definition field_final : State :=
  Eval vm_compute in
    match algorithm 20 field_grid (0, 0) (0, 2) with
    | Return (_, _, st) => st
    | _ => mkState [] [] ∅ ∅ ∅ ∅ 0 []
    end.

(** ** The states of a search *)

(** The states at the head of the [while] loop of a search that started in
    the state [st0]: each pass pops the least entry and, unless it is the end
    cell, expands it. *)
Inductive loop_head (start end_ : ref) (st0 : State) : State -> Prop :=
| head_first : loop_head start end_ st0 st0
| head_next st f c current rest st2 :
    loop_head start end_ st0 st ->
    pq_get (open_set st) = Some ((f, c, current), rest) ->
    current ∈ open_set_hash st ->
    ref_eqb current end_ = false ->
    expand start end_ current
      (mkState (st_grid st) rest (came_from st) (g_score st) (f_score st)
         (open_set_hash st ∖ {[current]}) (count st) (draws st)) = Some st2 ->
    loop_head start end_ st0 st2.

(** The [count] component of a queue entry. *)
Definition entry_count (e : entry) : Z := e.1.2.

(** The entries of the queue carry different counts, none above [count]. *)
Definition counts_ok (os : list entry) (count : Z) : Prop :=
  NoDup (entry_count <$> os) /\ Forall (fun e => entry_count e <= count) os.

(** The state in which the search on [pair_grid] enters its loop, and the
    state at the head of the second pass. *)
Definition pair_init : State :=
  Eval vm_compute in
    default (mkState [] [] ∅ ∅ ∅ ∅ 0 []) (init pair_grid (0, 0) (0, 1)).

Definition pair_second : State :=
  Eval vm_compute in
    default (mkState [] [] ∅ ∅ ∅ ∅ 0 [])
      (expand (0, 0) (0, 1) (0, 0)
         (mkState (st_grid pair_init) [] (came_from pair_init) (g_score pair_init)
            (f_score pair_init) (open_set_hash pair_init ∖ {[(0, 0)]})
            (count pair_init) (draws pair_init))).

(** Three rows with barriers at [(0, 1)] and [(1, 1)]: the route from the
    start at [(0, 0)] to the end at [(0, 2)] leads around them; and the
    state the search leaves. *)
Definition detour_grid : Grid :=
  Eval vm_compute in default [] (scene 3 [(0, 1); (1, 1)] (0, 0) (0, 2)).

Definition detour_final : State :=
  Eval vm_compute in
    match algorithm 30 detour_grid (0, 0) (0, 2) with
    | Return (_, _, st) => st
    | _ => mkState [] [] ∅ ∅ ∅ ∅ 0 []
    end.

(** Two rows, every neighbour list refreshed, the cell [(0, 0)] a barrier. *)
Definition barrier_corner : Grid :=
  Eval vm_compute in default [] (refresh_all corner_grid).

(** ** Equality of node objects *)

(** [l1 == l2] for the neighbour lists of two different nodes, of equal
    length: the items are compared in turn; two items that are the same
    object count as equal without a call of [__eq__], any other pair is
    compared with [==], and the first pair that is not equal, or the first
    exception, decides. *)
Fixpoint items_eq (eq : ref -> ref -> result bool) (l1 l2 : list ref)
  : result bool :=
  match l1, l2 with
  | x :: l1', y :: l2' =>
      if ref_eqb x y then items_eq eq l1' l2'
      else
        match eq x y with
        | Return true => items_eq eq l1' l2'
        | r => r
        end
  | _, _ => Return true
  end.

(** [a == b] for the node objects behind [p] and [q] of a store of objects
    (a grid: distinct positions hold distinct objects, whatever their
    fields).  [@dataclass] generates [__eq__] as a comparison of the tuples
    of all fields with [compare=True]; [field(hash=False)] leaves [compare]
    at [True], so [color] and [neighbors] take part.  Every item of the
    tuples that is the same object on both sides counts as equal, so an
    object equals itself; otherwise [row], [col], [width], [total_rows] and
    [color] are compared by value and the two neighbour lists (every node
    owns the list [__post_init__] gave it) by length and then item by item,
    which calls [__eq__] again.  [depth] is the number of nested calls the
    interpreter still allows; beyond it [RecursionError] is raised. *)
Fixpoint Node__eq__ (depth : nat) (store : Grid) (p q : ref) : result bool :=
  match depth with
  | O => Raise
  | S depth' =>
      if ref_eqb p q then Return true
      else
        match node_at store p, node_at store q with
        | Some a, Some b =>
            if (row a =? row b) && (col a =? col b) && (width a =? width b)
               && (total_rows a =? total_rows b) && rgb_eqb (color a) (color b)
            then
              if Nat.eqb (length (neighbors a)) (length (neighbors b))
              then items_eq (Node__eq__ depth' store) (neighbors a) (neighbors b)
              else Return false
            else Return false
        | _, _ => Raise
        end
  end.

(** Two node objects with the same fields, the second painted as a barrier. *)
Definition twin_store : Grid :=
  [[Node_new 0 0 16 50; make_barrier (Node_new 0 0 16 50)]].

(** Two node objects with the same fields, each its own only neighbour. *)
Definition mirror_store : Grid :=
  [[set_neighbors [(0, 0)] (Node_new 0 0 16 50);
    set_neighbors [(0, 1)] (Node_new 0 0 16 50)]].

(** The frames of a short session with [main]: the start cell is chosen,
    then the end cell next to it and a barrier; the barrier is removed
    again; SPACE starts a search.  And the state in which [main] is after
    them. *)
Definition session : list (list Event) :=
  [[mkEvent OTHER true false (17, 33)];
   [mkEvent OTHER true false (17, 50); mkEvent OTHER true false (400, 400)];
   [mkEvent OTHER false true (400, 400)];
   [mkEvent (KEYDOWN K_SPACE) false false (0, 0)]].

Definition session_end : App :=
  Eval vm_compute in
    match main 10 800 session with
    | Return app => app
    | _ => mkApp [] None None 0 false title
    end.

(** ** Basic facts about references and grids *)

Lemma ref_eqb_eq (p q : ref) : ref_eqb p q = true <-> p = q.
Proof.
  destruct p as [a b], q as [c d]. unfold ref_eqb. simpl.
  rewrite andb_true_iff, !Z.eqb_eq. split.
  - intros [-> ->]. reflexivity.
  - intros H. injection H as -> ->. split; reflexivity.
Qed.

Lemma ref_eqb_refl (p : ref) : ref_eqb p p = true.
Proof. apply ref_eqb_eq. reflexivity. Qed.

Lemma ref_eqb_neq (p q : ref) : ref_eqb p q = false <-> p <> q.
Proof.
  rewrite <- ref_eqb_eq. destruct (ref_eqb p q); split; congruence.
Qed.

Lemma refs_eqb_eq (l1 l2 : list ref) : refs_eqb l1 l2 = true <-> l1 = l2.
Proof.
  revert l2. induction l1 as [|p l1 IH]; intros [|q l2]; simpl; try (split; congruence).
  rewrite andb_true_iff, ref_eqb_eq, IH. split.
  - intros [-> ->]. reflexivity.
  - intros H. injection H as -> ->. split; reflexivity.
Qed.

Lemma rgb_eqb_eq (a b : rgb) : rgb_eqb a b = true <-> a = b.
Proof.
  destruct a as [[r1 g1] b1], b as [[r2 g2] b2]. unfold rgb_eqb.
  rewrite !andb_true_iff, !Z.eqb_eq. split.
  - intros [[-> ->] ->]. reflexivity.
  - intros H. injection H as -> -> ->. repeat split.
Qed.

Lemma node_at_update_node (grid : Grid) (p q : ref) (f : Node -> Node) :
  node_at (update_node grid p f) q =
  if decide (p = q) then f <$> node_at grid p else node_at grid q.
Proof.
  unfold update_node, node_at. destruct p as [pr pc], q as [qr qc]. simpl.
  case_decide as E.
  - injection E as <- <-.
    destruct (0 <=? pr) eqn:Hpr, (0 <=? pc) eqn:Hpc; simpl; try reflexivity.
    rewrite list_lookup_alter_eq.
    destruct (grid !! Z.to_nat pr) as [rowl|]; simpl; [|reflexivity].
    rewrite list_lookup_alter_eq. reflexivity.
  - destruct (0 <=? pr) eqn:Hpr, (0 <=? pc) eqn:Hpc; simpl; try reflexivity.
    apply Z.leb_le in Hpr, Hpc.
    destruct (0 <=? qr) eqn:Hqr, (0 <=? qc) eqn:Hqc; simpl; try reflexivity.
    apply Z.leb_le in Hqr, Hqc.
    destruct (decide (Z.to_nat pr = Z.to_nat qr)) as [Er|Er].
    + rewrite <- Er, list_lookup_alter_eq.
      destruct (grid !! Z.to_nat pr) as [rowl|]; simpl; [|reflexivity].
      rewrite list_lookup_alter_ne; [reflexivity|].
      intros Ec. apply E. f_equal; lia.
    + rewrite list_lookup_alter_ne by exact Er. reflexivity.
Qed.

Lemma length_update_node (grid : Grid) (p : ref) (f : Node -> Node) :
  length (update_node grid p f) = length grid.
Proof.
  unfold update_node. destruct (_ && _); [apply length_alter | reflexivity].
Qed.

Lemma elem_of_all_refs (grid : Grid) (p : ref) :
  p ∈ all_refs grid <-> is_Some (node_at grid p).
Proof.
  unfold all_refs, node_at. rewrite list_elem_of_join. split.
  - intros (l & Hp & Hl). apply elem_of_lookup_imap in Hl as (i & rowl & -> & Hi).
    unfold row_refs in Hp. apply list_elem_of_fmap in Hp as (j & -> & Hj).
    apply elem_of_seq in Hj. simpl.
    replace (0 <=? Z.of_nat i) with true by (symmetry; apply Z.leb_le; lia).
    replace (0 <=? Z.of_nat j) with true by (symmetry; apply Z.leb_le; lia).
    rewrite !Nat2Z.id, Hi. simpl.
    apply lookup_lt_is_Some. lia.
  - destruct p as [r c]. simpl.
    destruct (0 <=? r) eqn:Hr, (0 <=? c) eqn:Hc; simpl; try (intros [? ?]; discriminate).
    apply Z.leb_le in Hr, Hc.
    destruct (grid !! Z.to_nat r) as [rowl|] eqn:Hrow; simpl; [|intros [? ?]; discriminate].
    intros Hc'. apply lookup_lt_is_Some in Hc'.
    exists (row_refs (Z.to_nat r) rowl). split.
    + unfold row_refs. apply list_elem_of_fmap. exists (Z.to_nat c). split.
      * f_equal; lia.
      * apply elem_of_seq. lia.
    + apply elem_of_lookup_imap. exists (Z.to_nat r), rowl. split; [reflexivity | exact Hrow].
Qed.

Lemma well_formed_wf (grid : Grid) : well_formed grid = true -> wf grid.
Proof.
  unfold well_formed. rewrite andb_true_iff, !forallb_forall.
  intros [Hshape Hcells]. split.
  - apply Forall_forall. intros rowl Hin.
    apply Nat.eqb_eq, Hshape, list_elem_of_In, Hin.
  - intros p nd Hp.
    assert (Hin : p ∈ all_refs grid) by (apply elem_of_all_refs; eauto).
    apply list_elem_of_In, Hcells in Hin. unfold cell_ok in Hin. rewrite Hp in Hin.
    apply andb_true_iff in Hin as [Hin H3]. apply andb_true_iff in Hin as [H1 H2].
    apply Z.eqb_eq in H1, H2, H3. auto.
Qed.

Lemma wf_node_at (grid : Grid) (p : ref) :
  wf grid -> is_Some (node_at grid p) <-> in_bounds grid p.
Proof.
  intros [Hshape _]. unfold node_at, in_bounds. destruct p as [r c]. simpl.
  destruct (0 <=? r) eqn:Hr, (0 <=? c) eqn:Hc; simpl;
    try (apply Z.leb_gt in Hr); try (apply Z.leb_gt in Hc);
    try (split; [intros [? ?]; discriminate | lia]).
  apply Z.leb_le in Hr, Hc.
  destruct (grid !! Z.to_nat r) as [rowl|] eqn:Hrow; simpl.
  - pose proof (lookup_lt_Some _ _ _ Hrow) as Hlt.
    rewrite Forall_lookup in Hshape. specialize (Hshape _ _ Hrow). simpl in Hshape.
    rewrite lookup_lt_is_Some. lia.
  - apply lookup_ge_None in Hrow. split; [intros [? ?]; discriminate | lia].
Qed.

Lemma wf_node_at_None (grid : Grid) (p : ref) :
  wf grid -> ~ in_bounds grid p -> node_at grid p = None.
Proof.
  intros Hwf Hnb. destruct (node_at grid p) eqn:E; [|reflexivity].
  exfalso. apply Hnb, wf_node_at; eauto.
Qed.

Lemma wf_update_node (grid : Grid) (p : ref) (f : Node -> Node) :
  (forall nd, node_at grid p = Some nd ->
     row (f nd) = row nd /\ col (f nd) = col nd
     /\ total_rows (f nd) = total_rows nd) ->
  wf grid -> wf (update_node grid p f).
Proof.
  intros Hf [Hshape Hcells]. split.
  - rewrite length_update_node. unfold update_node.
    destruct (_ && _); [|exact Hshape].
    apply Forall_lookup. intros i rowl Hi.
    rewrite Forall_lookup in Hshape.
    destruct (decide (Z.to_nat p.1 = i)) as [<-|Hne].
    + rewrite list_lookup_alter_eq in Hi.
      destruct (grid !! Z.to_nat p.1) as [rowl0|] eqn:Hrow; [|discriminate].
      simpl in Hi. injection Hi as <-. rewrite length_alter. eapply Hshape, Hrow.
    + rewrite list_lookup_alter_ne in Hi by exact Hne. eapply Hshape, Hi.
  - intros q nd. rewrite node_at_update_node, length_update_node.
    case_decide as E.
    + subst q. destruct (node_at grid p) as [nd0|] eqn:Hp; [|discriminate].
      simpl. intros [= <-]. destruct (Hf nd0 eq_refl) as (-> & -> & ->).
      apply Hcells, Hp.
    + apply Hcells.
Qed.

Lemma set_color_fields (c : rgb) (nd : Node) :
  row (set_color c nd) = row nd /\ col (set_color c nd) = col nd
  /\ total_rows (set_color c nd) = total_rows nd.
Proof. repeat split. Qed.

(** ** [update_neighbors] *)

Lemma grid_item_in_bounds (grid : Grid) (i j : Z) :
  wf grid -> in_bounds grid (i, j) ->
  grid_item grid i j = (fun nd => ((i, j), nd)) <$> node_at grid (i, j).
Proof.
  intros [Hshape _] [[Hi0 Hi1] [Hj0 Hj1]]. simpl in *.
  unfold grid_item, node_at, py_index. simpl.
  replace (0 <=? i) with true by (symmetry; apply Z.leb_le; lia).
  replace (i <? Z.of_nat (length grid)) with true by (symmetry; apply Z.ltb_lt; lia).
  replace (0 <=? j) with true by (symmetry; apply Z.leb_le; lia).
  simpl.
  destruct (grid !! Z.to_nat i) as [rowl|] eqn:Hrow; simpl; [|reflexivity].
  rewrite Forall_lookup in Hshape. specialize (Hshape _ _ Hrow). simpl in Hshape.
  rewrite Hshape.
  replace (j <? Z.of_nat (length grid)) with true by (symmetry; apply Z.ltb_lt; lia).
  simpl. destruct (rowl !! Z.to_nat j); reflexivity.
Qed.

Lemma probe_filter (grid : Grid) (cond : bool) (i j : Z) (acc : list ref) :
  wf grid ->
  (cond = true -> in_bounds grid (i, j)) ->
  (cond = false -> ~ in_bounds grid (i, j)) ->
  probe grid cond i j acc = Some (acc ++ List.filter (passable grid) [(i, j)]).
Proof.
  intros Hwf Ht Hf. unfold probe. simpl. unfold passable. destruct cond.
  - specialize (Ht eq_refl). rewrite grid_item_in_bounds by assumption.
    apply (wf_node_at _ _ Hwf) in Ht as [nd Hnd]. rewrite Hnd. simpl.
    destruct (is_barrier nd); simpl; [rewrite app_nil_r|]; reflexivity.
  - rewrite (wf_node_at_None _ _ Hwf (Hf eq_refl)). rewrite app_nil_r. reflexivity.
Qed.

Lemma filter_around (grid : Grid) (p : ref) :
  List.filter (passable grid) (around p) =
  (((List.filter (passable grid) [(p.1 + 1, p.2)]
     ++ List.filter (passable grid) [(p.1 - 1, p.2)])
    ++ List.filter (passable grid) [(p.1, p.2 + 1)])
   ++ List.filter (passable grid) [(p.1, p.2 - 1)]).
Proof.
  unfold around. simpl.
  destruct (passable grid (p.1 + 1, p.2)), (passable grid (p.1 - 1, p.2)),
    (passable grid (p.1, p.2 + 1)), (passable grid (p.1, p.2 - 1)); reflexivity.
Qed.

Lemma update_neighbors_filter (grid : Grid) (p : ref) (self : Node) :
  wf grid -> node_at grid p = Some self ->
  update_neighbors self grid =
  Some (set_neighbors (List.filter (passable grid) (around p)) self).
Proof.
  intros Hwf Hp.
  assert (Hb : in_bounds grid p) by (apply wf_node_at; eauto).
  destruct (proj2 Hwf _ _ Hp) as (Hr & Hc & Ht).
  destruct Hb as [[Hr0 Hr1] [Hc0 Hc1]].
  unfold update_neighbors. rewrite Hr, Hc, Ht.
  rewrite (probe_filter grid _ (p.1 + 1) p.2 []); [simpl mbind|exact Hwf| |].
  2:{ intros H%Z.ltb_lt. unfold in_bounds; simpl; lia. }
  2:{ intros H%Z.ltb_ge. unfold in_bounds; simpl; lia. }
  rewrite (probe_filter grid _ (p.1 - 1) p.2); [simpl mbind|exact Hwf| |].
  2:{ intros H%Z.ltb_lt. unfold in_bounds; simpl; lia. }
  2:{ intros H%Z.ltb_ge. unfold in_bounds; simpl; lia. }
  rewrite (probe_filter grid _ p.1 (p.2 + 1)); [simpl mbind|exact Hwf| |].
  2:{ intros H%Z.ltb_lt. unfold in_bounds; simpl; lia. }
  2:{ intros H%Z.ltb_ge. unfold in_bounds; simpl; lia. }
  rewrite (probe_filter grid _ p.1 (p.2 - 1)); [simpl mbind|exact Hwf| |].
  2:{ intros H%Z.ltb_lt. unfold in_bounds; simpl; lia. }
  2:{ intros H%Z.ltb_ge. unfold in_bounds; simpl; lia. }
  rewrite filter_around. reflexivity.
Qed.

Lemma elem_of_around (p q : ref) : q ∈ around p <-> adjacent p q.
Proof.
  unfold around, adjacent. destruct p as [a b], q as [c d]. simpl.
  rewrite !elem_of_cons, elem_of_nil. split.
  - intros [E|[E|[E|[E|[]]]]]; injection E as -> ->; lia.
  - intros H.
    assert ((c = a + 1 /\ d = b) \/ (c = a - 1 /\ d = b)
            \/ (c = a /\ d = b + 1) \/ (c = a /\ d = b - 1)) as Hc by lia.
    destruct Hc as [[-> ->]|[[-> ->]|[[-> ->]|[-> ->]]]]; auto.
Qed.

Lemma elem_of_filter_passable (grid : Grid) (p q : ref) :
  q ∈ List.filter (passable grid) (around p) <->
  adjacent p q /\ passable grid q = true.
Proof.
  rewrite list_elem_of_In, filter_In, <- list_elem_of_In, elem_of_around. tauto.
Qed.

Lemma step_spec (grid : Grid) (p q : ref) :
  step grid p q = true <-> adjacent p q /\ passable grid q = true.
Proof.
  unfold step. rewrite andb_true_iff, <- elem_of_around, existsb_exists.
  split; intros [H1 H2]; split; try assumption.
  - destruct H1 as (x & Hx & E). apply ref_eqb_eq in E. subst x.
    apply list_elem_of_In, Hx.
  - exists q. split; [apply list_elem_of_In, H1 | apply ref_eqb_refl].
Qed.

Lemma passable_spec (grid : Grid) (q : ref) :
  passable grid q = true <->
  exists nd, node_at grid q = Some nd /\ is_barrier nd = false.
Proof.
  unfold passable. destruct (node_at grid q) as [nd|].
  - rewrite negb_true_iff. split; [eauto|]. intros (nd' & [= <-] & H). exact H.
  - split; [discriminate|]. intros (nd' & H & _). discriminate.
Qed.

(** The neighbour lists of a refreshed grid. *)
Lemma refreshed_neighbors (grid : Grid) (p : ref) (nd : Node) :
  wf grid -> refreshed grid = true -> node_at grid p = Some nd ->
  neighbors nd = List.filter (passable grid) (around p).
Proof.
  intros Hwf Href Hp. unfold refreshed in Href. rewrite forallb_forall in Href.
  assert (Hin : p ∈ all_refs grid) by (apply elem_of_all_refs; eauto).
  apply list_elem_of_In, Href in Hin. unfold cache_ok in Hin.
  rewrite Hp, (update_neighbors_filter grid p nd Hwf Hp) in Hin.
  apply refs_eqb_eq in Hin. exact Hin.
Qed.

(** ** Refreshing every cell *)

Lemma same_cells_passable (grid g : Grid) (q : ref) :
  same_cells grid g -> passable g q = passable grid q.
Proof.
  intros [_ H]. destruct (H q) as [l Hl]. unfold passable. rewrite Hl.
  destruct (node_at grid q); reflexivity.
Qed.

Lemma same_cells_refl (grid : Grid) : wf grid -> same_cells grid grid.
Proof.
  intros Hwf. split; [exact Hwf|]. intros q.
  destruct (node_at grid q) as [nd|] eqn:E.
  - exists (neighbors nd). simpl. destruct nd; reflexivity.
  - exists []. reflexivity.
Qed.

Lemma refresh_node_fresh (grid g : Grid) (p : ref) (nd : Node) :
  same_cells grid g -> node_at grid p = Some nd ->
  refresh_node g p = Some (update_node g p (fun _ => fresh grid p nd)).
Proof.
  intros Hsame Hp. pose proof Hsame as [Hwf Hc]. destruct (Hc p) as [l Hl].
  rewrite Hp in Hl. simpl in Hl.
  assert (Hu : update_neighbors (set_neighbors l nd) g = Some (fresh grid p nd)).
  { rewrite (update_neighbors_filter g p _ Hwf Hl). unfold fresh.
    rewrite (filter_ext (passable g) (passable grid))
      by (intros q; apply same_cells_passable, Hsame).
    reflexivity. }
  unfold refresh_node. rewrite Hl. simpl. rewrite Hu. reflexivity.
Qed.

Lemma refresh_list_spec (grid : Grid) (ps : list ref) :
  forall g, same_cells grid g ->
    (forall q, q ∈ ps -> is_Some (node_at grid q)) ->
    exists g', refresh_list ps g = Some g' /\ same_cells grid g'
      /\ (forall q, q ∈ ps -> node_at g' q = fresh grid q <$> node_at grid q)
      /\ (forall q, q ∉ ps -> node_at g' q = node_at g q).
Proof.
  induction ps as [|p ps IH]; intros g Hsame Hvalid.
  - exists g. split; [reflexivity|]. split; [exact Hsame|]. split.
    + intros q Hq. inversion Hq.
    + reflexivity.
  - destruct (Hvalid p) as [nd Hnd]; [left|].
    simpl. rewrite (refresh_node_fresh grid g p nd Hsame Hnd). simpl.
    set (g1 := update_node g p (fun _ => fresh grid p nd)).
    assert (Hg1 : forall q, node_at g1 q =
              if decide (p = q) then Some (fresh grid p nd) else node_at g q).
    { intros q. unfold g1. rewrite node_at_update_node. case_decide; [|reflexivity].
      destruct Hsame as [_ Hc]. destruct (Hc p) as [l Hl]. rewrite Hl, Hnd. reflexivity. }
    assert (Hsame1 : same_cells grid g1).
    { split.
      - apply wf_update_node; [|apply Hsame]. intros nd0 H0.
        destruct Hsame as [_ Hc]. destruct (Hc p) as [l Hl].
        rewrite H0, Hnd in Hl. injection Hl as ->. repeat split.
      - intros q. rewrite Hg1. case_decide as E.
        + subst q. eexists. rewrite Hnd. reflexivity.
        + apply Hsame. }
    destruct (IH g1 Hsame1) as (g' & Hrun & Hsame' & Hin & Hout).
    { intros q Hq. apply Hvalid. right. exact Hq. }
    exists g'. split; [exact Hrun|]. split; [exact Hsame'|]. split.
    + intros q Hq. destruct (decide (q ∈ ps)) as [Hq'|Hq']; [apply Hin, Hq'|].
      apply elem_of_cons in Hq as [->|Hq]; [|contradiction].
      rewrite (Hout _ Hq'), Hg1, Hnd. case_decide; [reflexivity|congruence].
    + intros q Hq. apply not_elem_of_cons in Hq as [Hne Hq].
      rewrite (Hout _ Hq), Hg1. case_decide; [congruence|reflexivity].
Qed.

Lemma refresh_all_spec (grid : Grid) :
  wf grid ->
  exists g', refresh_all grid = Some g' /\ same_cells grid g'
    /\ forall q, node_at g' q = fresh grid q <$> node_at grid q.
Proof.
  intros Hwf. unfold refresh_all.
  destruct (refresh_list_spec grid (all_refs grid) grid (same_cells_refl _ Hwf))
    as (g' & Hrun & Hsame & Hin & Hout).
  { intros q. apply elem_of_all_refs. }
  exists g'. split; [exact Hrun|]. split; [exact Hsame|]. intros q.
  destruct (decide (q ∈ all_refs grid)) as [Hq|Hq]; [apply Hin, Hq|].
  rewrite (Hout _ Hq). destruct (node_at grid q) eqn:E; [|reflexivity].
  exfalso. apply Hq, elem_of_all_refs. eauto.
Qed.

Lemma lists_after_refresh (grid grid' : Grid) (p q : ref) :
  wf grid -> refresh_all grid = Some grid' ->
  lists grid' p q <->
  is_Some (node_at grid' p) /\ adjacent p q /\ passable grid' q = true.
Proof.
  intros Hwf Hrun.
  destruct (refresh_all_spec grid Hwf) as (g' & Hrun' & Hsame & Hcells).
  rewrite Hrun in Hrun'. injection Hrun' as <-.
  unfold lists. rewrite (same_cells_passable _ _ q Hsame), Hcells.
  destruct (node_at grid p) as [nd|]; simpl.
  - rewrite <- elem_of_filter_passable. split.
    + intros (nd' & [= <-] & Hin). split; [eauto | exact Hin].
    + intros [_ Hin]. eexists. split; [reflexivity | exact Hin].
  - split; [intros (? & ? & _); discriminate | intros [[? ?] _]; discriminate].
Qed.

Lemma adjacent_sym (p q : ref) : adjacent p q -> adjacent q p.
Proof. unfold adjacent. lia. Qed.

Lemma lists_bool (grid : Grid) (p q : ref) :
  lists grid p q <->
  match node_at grid p with
  | Some nd => existsb (ref_eqb q) (neighbors nd)
  | None => false
  end = true.
Proof.
  unfold lists. destruct (node_at grid p) as [nd|].
  - rewrite existsb_exists. split.
    + intros (nd' & [= <-] & Hin). exists q.
      split; [apply list_elem_of_In, Hin | apply ref_eqb_refl].
    + intros (x & Hx & E). apply ref_eqb_eq in E. subst x.
      exists nd. split; [reflexivity | apply list_elem_of_In, Hx].
  - split; [intros (? & ? & _); discriminate | discriminate].
Qed.

(** ** Equality and hashing of nodes *)

Lemma Node_eq_eq (a b : Node) : Node_eq a b = true <-> a = b.
Proof.
  unfold Node_eq. rewrite !andb_true_iff, !Z.eqb_eq, rgb_eqb_eq, refs_eqb_eq.
  destruct a, b; simpl. split.
  - intros [[[[[-> ->] ->] ->] ->] ->]. reflexivity.
  - intros [= -> -> -> -> -> ->]. repeat split.
Qed.

(** Within one well-formed grid, comparing two cells with [==] decides
    whether they are the same cell, which is why the search may compare and
    index cells by their references. *)
Lemma Node_eq_same_cell (grid : Grid) (p q : ref) (a b : Node) :
  wf grid -> node_at grid p = Some a -> node_at grid q = Some b ->
  Node_eq a b = true <-> p = q.
Proof.
  intros Hwf Ha Hb. rewrite Node_eq_eq. split.
  - intros <-. destruct (proj2 Hwf _ _ Ha) as (Hr & Hc & _).
    destruct (proj2 Hwf _ _ Hb) as (Hr' & Hc' & _).
    destruct p, q; simpl in *. congruence.
  - intros <-. congruence.
Qed.

Lemma Node_hash_key_same_cell (grid : Grid) (p q : ref) (a b : Node) :
  wf grid -> node_at grid p = Some a -> node_at grid q = Some b ->
  width a = width b ->
  Node_hash_key a = Node_hash_key b <-> p = q.
Proof.
  intros Hwf Ha Hb Hw.
  destruct (proj2 Hwf _ _ Ha) as (Hr & Hc & Ht).
  destruct (proj2 Hwf _ _ Hb) as (Hr' & Hc' & Ht').
  unfold Node_hash_key. destruct p, q; simpl in *. split.
  - intros [= ? ? ? ?]. congruence.
  - intros [= -> ->]. congruence.
Qed.

Lemma Node__eq__self (depth : nat) (store : Grid) (p : ref) :
  Node__eq__ (S depth) store p p = Return true.
Proof. simpl. rewrite ref_eqb_refl. reflexivity. Qed.

Lemma Node__eq__true (depth : nat) (store : Grid) (p q : ref) (a b : Node) :
  node_at store p = Some a -> node_at store q = Some b ->
  Node__eq__ depth store p q = Return true ->
  row a = row b /\ col a = col b /\ width a = width b
  /\ total_rows a = total_rows b /\ color a = color b.
Proof.
  intros Ha Hb. destruct depth as [|depth]; simpl; [discriminate|].
  destruct (ref_eqb p q) eqn:E.
  - apply ref_eqb_eq in E. subst q. rewrite Ha in Hb. injection Hb as <-. auto.
  - rewrite Ha, Hb.
    destruct ((row a =? row b) && (col a =? col b) && (width a =? width b)
              && (total_rows a =? total_rows b) && rgb_eqb (color a) (color b))
      eqn:F; [|discriminate].
    rewrite !andb_true_iff, !Z.eqb_eq, rgb_eqb_eq in F.
    destruct F as [[[[H1 H2] H3] H4] H5]. auto.
Qed.

Lemma Node__eq__differs (depth : nat) (store : Grid) (p q : ref) (a b : Node) :
  node_at store p = Some a -> node_at store q = Some b ->
  p <> q ->
  width a <> width b \/ total_rows a <> total_rows b \/ color a <> color b
  \/ length (neighbors a) <> length (neighbors b) ->
  Node__eq__ (S depth) store p q = Return false.
Proof.
  intros Ha Hb Hpq Hd. simpl. rewrite (proj2 (ref_eqb_neq p q) Hpq), Ha, Hb.
  destruct ((row a =? row b) && (col a =? col b) && (width a =? width b)
            && (total_rows a =? total_rows b) && rgb_eqb (color a) (color b))
    eqn:F; [|reflexivity].
  rewrite !andb_true_iff, !Z.eqb_eq, rgb_eqb_eq in F.
  destruct F as [[[[H1 H2] H3] H4] H5].
  destruct Hd as [Hd|[Hd|[Hd|Hd]]]; try contradiction.
  rewrite (proj2 (Nat.eqb_neq _ _) Hd). reflexivity.
Qed.

(** Within one well-formed grid [==] never looks at a neighbour list: it
    answers whether the two cells are the same cell. *)
Lemma Node__eq__wf (depth : nat) (store : Grid) (p q : ref) (a b : Node) :
  wf store -> node_at store p = Some a -> node_at store q = Some b ->
  Node__eq__ (S depth) store p q = Return (bool_decide (p = q)).
Proof.
  intros Hwf Ha Hb. simpl. destruct (ref_eqb p q) eqn:E.
  - apply ref_eqb_eq in E. rewrite bool_decide_eq_true_2 by exact E. reflexivity.
  - apply ref_eqb_neq in E. rewrite bool_decide_eq_false_2 by exact E.
    rewrite Ha, Hb.
    destruct (proj2 Hwf _ _ Ha) as (Hr & Hc & _).
    destruct (proj2 Hwf _ _ Hb) as (Hr' & Hc' & _).
    assert (Hrc : (row a =? row b) && (col a =? col b) = false).
    { apply andb_false_iff. rewrite !Z.eqb_neq.
      destruct (decide (row a = row b)) as [H1|H1]; [|auto].
      right. intros H2. apply E. destruct p, q. simpl in *. congruence. }
    rewrite Hrc. reflexivity.
Qed.

(** So [Node_eq] is what [==] answers for two cells of a well-formed grid. *)
Lemma Node_eq_wf (depth : nat) (store : Grid) (p q : ref) (a b : Node) :
  wf store -> node_at store p = Some a -> node_at store q = Some b ->
  Node__eq__ (S depth) store p q = Return (Node_eq a b).
Proof.
  intros Hwf Ha Hb. rewrite (Node__eq__wf depth store p q a b Hwf Ha Hb). f_equal.
  pose proof (Node_eq_same_cell store p q a b Hwf Ha Hb) as H.
  destruct (Node_eq a b).
  - apply bool_decide_eq_true_2, H. reflexivity.
  - apply bool_decide_eq_false_2. intros Hpq. apply H in Hpq. discriminate.
Qed.

(** C5, as the claim states it, fails: equality is not by [(row, col)].  Of
    two node objects with the same [(row, col)] (and the same hashed tuple),
    one painted as a barrier, neither equals the other; and two node
    objects that agree in every field, each listing itself as its only
    neighbour, cannot be compared at all: [==] runs into
    [RecursionError]. *)
Lemma node_eq_not_by_position :
  (get_pos <$> node_at twin_store (0, 0) = get_pos <$> node_at twin_store (0, 1)
   /\ Node_hash_key <$> node_at twin_store (0, 0)
      = Node_hash_key <$> node_at twin_store (0, 1)
   /\ Node__eq__ 1000 twin_store (0, 0) (0, 1) = Return false
   /\ Node__eq__ 1000 twin_store (0, 1) (0, 0) = Return false)
  /\ (get_pos <$> node_at mirror_store (0, 0) = get_pos <$> node_at mirror_store (0, 1)
      /\ Node__eq__ 1000 mirror_store (0, 0) (0, 1) = Raise).
Proof. repeat split; vm_compute; reflexivity. Qed.

(** C5 (amended): hashing is by [(row, col, width, total_rows)] alone, so
    the hash of a cell does not change when its role or its neighbour list
    changes, and cells that compare equal have the same hashed tuple.
    Equality is not by [(row, col)] alone: [==] also reads [width],
    [total_rows], [color] and the neighbour lists, so two different node
    objects that differ in one of the first three or in the length of
    their lists are unequal whatever their [(row, col)]; but a cell always
    equals itself, whatever its role, which is what a lookup by key relies
    on.  Within one well-formed grid two cells are
    equal exactly when they are the same cell, exactly when their
    [(row, col)] agree, exactly when their hashed tuples agree. *)
Theorem node_identity (store : Grid) (p q : ref) (a b : Node) (depth : nat) :
  node_at store p = Some a -> node_at store q = Some b ->
  (forall c, Node_hash_key (set_color c a) = Node_hash_key a)
  /\ (forall l, Node_hash_key (set_neighbors l a) = Node_hash_key a)
  /\ (Node__eq__ depth store p q = Return true ->
      Node_hash_key a = Node_hash_key b /\ get_pos a = get_pos b
      /\ color a = color b)
  /\ (p <> q ->
      width a <> width b \/ total_rows a <> total_rows b \/ color a <> color b
      \/ length (neighbors a) <> length (neighbors b) ->
      Node__eq__ (S depth) store p q = Return false)
  /\ (forall f, Node__eq__ (S depth) (update_node store p f) p p = Return true)
  /\ (well_formed store = true ->
      Node__eq__ (S depth) store p q = Return (bool_decide (p = q))
      /\ (p = q <-> get_pos a = get_pos b)
      /\ (p = q <-> Node_hash_key a = Node_hash_key b)).
Proof.
  intros Ha Hb. split; [reflexivity|]. split; [reflexivity|].
  split; [|split; [|split]].
  - intros Heq.
    destruct (Node__eq__true depth store p q a b Ha Hb Heq) as (H1 & H2 & H3 & H4 & H5).
    unfold Node_hash_key, get_pos. rewrite H1, H2, H3, H4. auto.
  - exact (Node__eq__differs depth store p q a b Ha Hb).
  - intros f. apply Node__eq__self.
  - intros Hwf%well_formed_wf.
    split; [exact (Node__eq__wf depth store p q a b Hwf Ha Hb)|].
    destruct (proj2 Hwf _ _ Ha) as (Hr & Hc & _).
    destruct (proj2 Hwf _ _ Hb) as (Hr' & Hc' & _).
    split; split.
    + intros ->. congruence.
    + unfold get_pos. intros [= H1 H2]. destruct p, q. simpl in *. congruence.
    + intros ->. congruence.
    + unfold Node_hash_key. intros [= H1 H2 _ _]. destruct p, q. simpl in *.
      congruence.
Qed.

Lemma node_identity_witness :
  Node__eq__ 1 pair_grid (0, 0) (0, 1) = Return (bool_decide ((0, 0) = ((0, 1) : ref)))
  /\ Node__eq__ 1 twin_store (0, 0) (0, 1) = Return false.
Proof.
  split.
  - destruct (node_at pair_grid (0, 0)) as [a|] eqn:Ha; [|vm_compute in Ha; discriminate].
    destruct (node_at pair_grid (0, 1)) as [b|] eqn:Hb; [|vm_compute in Hb; discriminate].
    apply (proj2 (proj2 (proj2 (proj2 (proj2
             (node_identity pair_grid (0, 0) (0, 1) a b 0 Ha Hb)))))).
    vm_compute. reflexivity.
  - apply (proj1 (proj2 (proj2 (proj2
             (node_identity twin_store (0, 0) (0, 1) (Node_new 0 0 16 50)
                (make_barrier (Node_new 0 0 16 50)) 0 eq_refl eq_refl))))).
    + discriminate.
    + right. right. left. discriminate.
Defined.

(** ** Neighbour lists *)

(** C7: [update_neighbors] on a cell of a well-formed grid replaces its
    neighbour list by the cells down, up, right and left of it, in this
    order, that lie in the grid and are not barriers; a cell is in the new
    list exactly when it is in bounds, orthogonally adjacent and not a
    barrier.  Nothing else of the cell changes. *)
Theorem update_neighbors_exact (grid : Grid) (p : ref) (self : Node) :
  well_formed grid = true -> node_at grid p = Some self ->
  exists self',
    update_neighbors self grid = Some self'
    /\ self' = set_neighbors (neighbors self') self
    /\ neighbors self' = List.filter (passable grid) (around p)
    /\ forall q, q ∈ neighbors self' <->
         in_bounds grid q /\ adjacent p q
         /\ exists nd, node_at grid q = Some nd /\ is_barrier nd = false.
Proof.
  intros Hwf%well_formed_wf Hp. eexists. split.
  - apply (update_neighbors_filter grid p self Hwf Hp).
  - split; [reflexivity|]. split; [reflexivity|]. intros q.
    unfold set_neighbors. cbn [neighbors].
    rewrite elem_of_filter_passable, passable_spec. split.
    + intros (Hadj & nd & Hnd & Hb). split; [|eauto].
      apply wf_node_at; eauto.
    + intros (_ & Hadj & H). auto.
Qed.

Lemma update_neighbors_exact_witness :
  exists self',
    update_neighbors (mkNode 0 1 400 2 Color.WHITE []) corner_grid = Some self'
    /\ self' = set_neighbors (neighbors self') (mkNode 0 1 400 2 Color.WHITE [])
    /\ neighbors self' = List.filter (passable corner_grid) (around (0, 1))
    /\ forall q, q ∈ neighbors self' <->
         in_bounds corner_grid q /\ adjacent (0, 1) q
         /\ exists nd, node_at corner_grid q = Some nd /\ is_barrier nd = false.
Proof.
  apply (update_neighbors_exact corner_grid (0, 1)); reflexivity.
Defined.

(** C6, as the claim states it, fails: a barrier lists its free neighbour,
    and the free neighbour does not list the barrier. *)
Lemma neighbor_symmetry_fails :
  exists grid',
    well_formed corner_grid = true
    /\ refresh_all corner_grid = Some grid'
    /\ ~ (lists grid' (0, 0) (0, 1) <-> lists grid' (0, 1) (0, 0)).
Proof.
  eexists. split; [reflexivity|]. split; [vm_compute; reflexivity|].
  rewrite !lists_bool. vm_compute. intros [H _]. specialize (H eq_refl). discriminate.
Qed.

(** C6 (amended): after every cell of a well-formed grid was refreshed, two
    cells that are not barriers list each other or neither lists the other. *)
Theorem neighbor_symmetry (grid grid' : Grid) (A B : ref) :
  well_formed grid = true -> refresh_all grid = Some grid' ->
  passable grid' A = true -> passable grid' B = true ->
  lists grid' A B <-> lists grid' B A.
Proof.
  intros Hwf%well_formed_wf Hrun HA HB.
  rewrite !(lists_after_refresh grid grid') by assumption.
  apply passable_spec in HA as HA'. destruct HA' as (na & Hna & _).
  apply passable_spec in HB as HB'. destruct HB' as (nb & Hnb & _).
  split; intros (_ & Hadj & _); (split; [eauto|]); split; auto using adjacent_sym.
Qed.

Lemma neighbor_symmetry_witness :
  lists open_grid (1, 1) (1, 2) <-> lists open_grid (1, 2) (1, 1).
Proof.
  apply (neighbor_symmetry open_grid open_grid); vm_compute; reflexivity.
Defined.

(** ** Sums over a score dictionary *)

Lemma sum_entries_perm (w : num -> Z) (l1 l2 : list (Z * Z * num)) :
  l1 ≡ₚ l2 -> sum_entries w l1 = sum_entries w l2.
Proof.
  induction 1 as [|x l l' _ IH|x y l|l l' l'' _ IH1 _ IH2]; simpl; lia.
Qed.

Lemma msum_delete (w : num -> Z) (m : gmap (Z * Z) num) (p : ref) (v : num) :
  m !! p = Some v -> msum w m = w v + msum w (delete p m).
Proof.
  intros H. unfold msum.
  rewrite <- (sum_entries_perm w _ _ (map_to_list_delete m p v H)). reflexivity.
Qed.

Lemma msum_insert_fresh (w : num -> Z) (m : gmap (Z * Z) num) (p : ref) (v : num) :
  m !! p = None -> msum w (<[p := v]> m) = w v + msum w m.
Proof.
  intros H. unfold msum.
  rewrite (sum_entries_perm w _ _ (map_to_list_insert m p v H)). reflexivity.
Qed.

Lemma msum_insert (w : num -> Z) (m : gmap (Z * Z) num) (p : ref) (v v' : num) :
  m !! p = Some v -> msum w (<[p := v']> m) = msum w m - w v + w v'.
Proof.
  intros H. rewrite (msum_delete w m p v H), <- insert_delete_eq.
  rewrite msum_insert_fresh by apply lookup_delete_eq. lia.
Qed.

Lemma msum_le (w1 w2 : num -> Z) (m : gmap (Z * Z) num) :
  (forall p v, m !! p = Some v -> w1 v <= w2 v) -> msum w1 m <= msum w2 m.
Proof.
  intros H. unfold msum.
  assert (Hl : forall kv, kv ∈ map_to_list m -> w1 kv.2 <= w2 kv.2).
  { intros [p v] Hin. apply elem_of_map_to_list in Hin. apply (H p v Hin). }
  induction (map_to_list m) as [|kv l IH]; simpl; [lia|].
  pose proof (Hl kv ltac:(left)). 
  assert (sum_entries w1 l <= sum_entries w2 l).
  { apply IH. intros kv' Hin. apply Hl. right. exact Hin. }
  unfold sum_entries in *. lia.
Qed.

Lemma finite_le_entries (m : gmap (Z * Z) num) : msum finite_one m <= msum one m.
Proof. apply msum_le. intros p [k|] _; unfold one; simpl; lia. Qed.

Lemma finite_lt_entries (m : gmap (Z * Z) num) (p : ref) :
  m !! p = Some Inf -> msum finite_one m <= msum one m - 1.
Proof.
  intros H. rewrite (msum_delete finite_one m p Inf H), (msum_delete one m p Inf H).
  pose proof (finite_le_entries (delete p m)). unfold one at 1. simpl. lia.
Qed.

Lemma entries_insert_le (m : gmap (Z * Z) num) (p : ref) (v : num) :
  msum one (<[p := v]> m) <= msum one m + 1.
Proof.
  destruct (m !! p) as [v0|] eqn:E.
  - rewrite (msum_insert one m p v0 v E). unfold one. lia.
  - rewrite (msum_insert_fresh one m p v E). unfold one. lia.
Qed.

(** ** The priority queue *)

Lemma pq_get_None (q : list entry) : pq_get q = None <-> q = [].
Proof.
  destruct q as [|e q]; simpl; [tauto|].
  destruct (pq_get q) as [[m rest]|]; [destruct (entry_ltb m e)|]; split; discriminate.
Qed.

Lemma pq_get_perm (q : list entry) (m : entry) (rest : list entry) :
  pq_get q = Some (m, rest) -> q ≡ₚ m :: rest.
Proof.
  revert m rest. induction q as [|e q IH]; intros m rest; simpl; [discriminate|].
  destruct (pq_get q) as [[m' rest']|] eqn:E.
  - destruct (entry_ltb m' e).
    + intros [= <- <-]. rewrite (IH _ _ eq_refl). apply perm_swap.
    + intros [= <- <-]. reflexivity.
  - apply pq_get_None in E. subst q. intros [= <- <-]. reflexivity.
Qed.

(** ** Walking [came_from] *)

Lemma walk_functional (cf : gmap (Z * Z) (Z * Z)) (p : ref) (l1 l2 : list ref) :
  walk cf p l1 -> walk cf p l2 -> l1 = l2.
Proof.
  intros H1. revert l2. induction H1 as [p Hp|p q l Hp _ IH]; intros l2 H2.
  - inversion H2; subst; [reflexivity | congruence].
  - inversion H2 as [|p' q' l' Hp' Hw]; subst; [congruence|].
    rewrite Hp in Hp'. injection Hp' as <-. f_equal. apply IH, Hw.
Qed.

Lemma reconstruct_loop_walk (cf : gmap (Z * Z) (Z * Z)) (p : ref) (l : list ref) :
  walk cf p l ->
  forall fuel n grid dr, (length l < fuel)%nat ->
    reconstruct_loop fuel cf p n grid dr =
    Return (n + Z.of_nat (length l), mark_path l grid, path_frames l grid dr).
Proof.
  induction 1 as [p Hp|p q l Hp _ IH]; intros fuel n grid dr Hfuel;
    (destruct fuel as [|fuel]; [simpl in Hfuel; lia|]); simpl; rewrite Hp.
  - do 3 f_equal. lia.
  - rewrite IH by (simpl in Hfuel; lia). do 3 f_equal. lia.
Qed.

Lemma reconstruct_loop_inv (cf : gmap (Z * Z) (Z * Z)) (fuel : nat) :
  forall p n grid dr r, reconstruct_loop fuel cf p n grid dr = Return r ->
    exists l, walk cf p l /\ (length l < fuel)%nat.
Proof.
  induction fuel as [|fuel IH]; intros p n grid dr r; simpl; [discriminate|].
  destruct (cf !! p) as [q|] eqn:Hp.
  - intros H. destruct (IH _ _ _ _ _ H) as (l & Hw & Hlen).
    exists (q :: l). split; [apply walk_back; assumption | simpl; lia].
  - intros _. exists []. split; [apply walk_stop, Hp | simpl; lia].
Qed.

Lemma node_at_mark_path (l : list ref) :
  forall grid p, node_at (mark_path l grid) p =
    if decide (p ∈ l) then make_path <$> node_at grid p else node_at grid p.
Proof.
  induction l as [|q l IH]; intros grid p.
  - rewrite decide_False by apply not_elem_of_nil. reflexivity.
  - change (mark_path (q :: l) grid) with (mark_path l (update_node grid q make_path)).
    rewrite IH, node_at_update_node.
    destruct (decide (q = p)) as [->|Hne].
    + rewrite (decide_True (P := p ∈ p :: l)) by left.
      destruct (decide (p ∈ l)); [destruct (node_at grid p)|]; reflexivity.
    + destruct (decide (p ∈ l)) as [Hl|Hl].
      * rewrite (decide_True (P := p ∈ q :: l)) by (right; exact Hl). reflexivity.
      * rewrite (decide_False (P := p ∈ q :: l)); [reflexivity|].
        intros [->|H]%elem_of_cons; [congruence | contradiction].
Qed.

(** ** Facts used by the invariant *)

Lemma msum_one_nonneg (m : gmap (Z * Z) num) : 0 <= msum one m.
Proof.
  unfold msum. induction (map_to_list m) as [|kv l IH]; simpl; unfold one in *; lia.
Qed.

Lemma msum_nonneg (w : num -> Z) (m : gmap (Z * Z) num) :
  (forall v, 0 <= w v) -> 0 <= msum w m.
Proof.
  intros H. unfold msum. induction (map_to_list m) as [|kv l IH]; simpl; [lia|].
  pose proof (H kv.2). unfold sum_entries in *. lia.
Qed.

Lemma msum_le_scaled (w : num -> Z) (c : Z) (m : gmap (Z * Z) num) :
  (forall p v, m !! p = Some v -> w v <= c) -> msum w m <= c * msum one m.
Proof.
  intros H. unfold msum.
  assert (Hl : forall kv, kv ∈ map_to_list m -> w kv.2 <= c).
  { intros [p v] Hin. apply elem_of_map_to_list in Hin. apply (H p v Hin). }
  induction (map_to_list m) as [|kv l IH]; simpl; [lia|].
  pose proof (Hl kv ltac:(left)).
  assert (sum_entries w l <= c * sum_entries one l).
  { apply IH. intros kv' Hin. apply Hl. right. exact Hin. }
  unfold sum_entries, one in *. lia.
Qed.

Lemma all_inf_lookup (grid : Grid) (p : ref) :
  all_inf grid !! p = if decide (p ∈ all_refs grid) then Some Inf else None.
Proof.
  unfold all_inf. induction (all_refs grid) as [|q l IH]; cbn [foldr].
  - rewrite lookup_empty. rewrite decide_False by apply not_elem_of_nil. reflexivity.
  - rewrite lookup_insert, IH.
    destruct (decide (q = p)) as [->|Hne].
    + rewrite (decide_True (P := p ∈ p :: l)) by left. reflexivity.
    + destruct (decide (p ∈ l)) as [Hl|Hl].
      * rewrite (decide_True (P := p ∈ q :: l)) by (right; exact Hl). reflexivity.
      * rewrite (decide_False (P := p ∈ q :: l)); [reflexivity|].
        intros [->|H]%elem_of_cons; [congruence | contradiction].
Qed.

Lemma all_inf_entries (grid : Grid) :
  msum one (all_inf grid) <= Z.of_nat (length (all_refs grid)).
Proof.
  unfold all_inf. induction (all_refs grid) as [|q l IH]; simpl.
  - unfold msum. rewrite map_to_list_empty. simpl. lia.
  - pose proof (entries_insert_le (foldr (fun p m => <[p := Inf]> m) ∅ l) q Inf). lia.
Qed.

Lemma is_route_snoc (grid : Grid) (l : list ref) :
  forall a b c, is_route grid a l b = true -> step grid b c = true ->
    is_route grid a (l ++ [c]) c = true.
Proof.
  induction l as [|x l IH]; intros a b c; simpl.
  - intros ->%ref_eqb_eq Hs. rewrite Hs, ref_eqb_refl. reflexivity.
  - intros [Hs Hr]%andb_true_iff Hbc. rewrite Hs. simpl. eapply IH; eassumption.
Qed.

Lemma recolored_update (grid0 : Grid) (start : ref) (g : Grid) (p : ref) (c : rgb) :
  recolored grid0 start g ->
  rgb_eqb c Color.BARRIER = false ->
  p = start \/ passable grid0 p = true ->
  recolored grid0 start (update_node g p (set_color c)).
Proof.
  intros Hrec Hc Hp q. specialize (Hrec q). rewrite node_at_update_node.
  case_decide as E; [subst q|exact Hrec].
  destruct (node_at grid0 p) as [nd0|].
  - destruct Hrec as (c1 & -> & _). exists c. split; [reflexivity|]. right. auto.
  - rewrite Hrec. reflexivity.
Qed.

Lemma recolored_refl (grid0 : Grid) (start : ref) : recolored grid0 start grid0.
Proof.
  intros p. destruct (node_at grid0 p) as [nd0|] eqn:E; [|reflexivity].
  exists (color nd0). split; [destruct nd0; reflexivity | left; reflexivity].
Qed.

Lemma recolored_neighbors (grid0 : Grid) (start : ref) (g : Grid) (p : ref) (nd : Node) :
  recolored grid0 start g -> node_at g p = Some nd ->
  exists nd0, node_at grid0 p = Some nd0 /\ neighbors nd = neighbors nd0.
Proof.
  intros Hrec Hp. specialize (Hrec p). destruct (node_at grid0 p) as [nd0|].
  - destruct Hrec as (c & Hc & _). rewrite Hp in Hc. injection Hc as ->.
    exists nd0. split; reflexivity.
  - congruence.
Qed.

Lemma recolored_Some (grid0 : Grid) (start : ref) (g : Grid) (p : ref) :
  recolored grid0 start g -> is_Some (node_at grid0 p) -> is_Some (node_at g p).
Proof.
  intros Hrec [nd0 Hp]. specialize (Hrec p). rewrite Hp in Hrec.
  destruct Hrec as (c & -> & _). eauto.
Qed.

Lemma adjacent_neq (p q : ref) : adjacent p q -> p <> q.
Proof. unfold adjacent. intros H ->. lia. Qed.

(** What one relaxation does: nothing, or it lowers the score of the
    neighbour, and only then may the neighbour enter the frontier. *)
Lemma relax_shape (cur end_ nb : ref) (st st' : State) (kc : Z) :
  g_score st !! cur = Some (Fin kc) ->
  relax cur end_ nb st = Some st' ->
  (st' = st /\ exists kn, g_score st !! nb = Some (Fin kn))
  \/ (exists gn,
        g_score st !! nb = Some gn
        /\ num_ltb (Fin (kc + 1)) gn = true
        /\ g_score st' = <[nb := Fin (kc + 1)]> (g_score st)
        /\ came_from st' = <[nb := cur]> (came_from st)
        /\ ((open_set_hash st' = open_set_hash st /\ nb ∈ open_set_hash st
             /\ open_set st' = open_set st)
            \/ (open_set_hash st' = {[nb]} ∪ open_set_hash st
                /\ (nb ∉ open_set_hash st)
                /\ exists f, open_set st' = open_set st ++ [(f, count st + 1, nb)]))).
Proof.
  intros Hcur. unfold relax. rewrite Hcur. cbn -[num_ltb heuristic].
  destruct (g_score st !! nb) as [gn|] eqn:Hgn; [|discriminate].
  cbn -[num_ltb heuristic].
  destruct (num_ltb (Fin (kc + 1)) gn) eqn:Hlt.
  - destruct (node_at (st_grid st) nb) as [nnode|]; [|discriminate].
    cbn -[heuristic].
    destruct (node_at (st_grid st) end_) as [enode|]; [|discriminate].
    cbn -[heuristic].
    destruct (decide (nb ∈ open_set_hash st)) as [Hin|Hin]; intros [= <-]; right;
      exists gn; cbn -[heuristic]; (split; [reflexivity|]); (split; [exact Hlt|]);
      (split; [reflexivity|]); (split; [reflexivity|]).
    + left. auto.
    + right. split; [reflexivity|]. split; [exact Hin|]. eexists. reflexivity.
  - intros [= <-]. left. split; [reflexivity|].
    destruct gn as [kn|]; [eauto | discriminate].
Qed.

(** ** The search loop keeps its invariant *)

Section Search.
Variables (grid0 : Grid) (start end_ : ref).
Hypothesis Hwf : wf grid0.
Hypothesis Href : refreshed grid0 = true.
Hypothesis Hstart : is_Some (node_at grid0 start).
Hypothesis Hend : is_Some (node_at grid0 end_).

Let N : Z := cells_of grid0 start.

(** *** One relaxation, on the dictionaries *)

Lemma scores_relax (g : gmap (Z * Z) num) (cf : gmap (Z * Z) (Z * Z))
    (cur nb : ref) (kc : Z) (gn : num) :
  scores_ok grid0 start g cf ->
  g !! cur = Some (Fin kc) ->
  step grid0 cur nb = true ->
  g !! nb = Some gn ->
  num_ltb (Fin (kc + 1)) gn = true ->
  scores_ok grid0 start (<[nb := Fin (kc + 1)]> g) (<[nb := cur]> cf)
  /\ msum (weight N) (<[nb := Fin (kc + 1)]> g) + 1 <= msum (weight N) g.
Proof.
  intros Hok Hcur Hstep Hnb Hlt.
  destruct (sc_bound _ _ _ _ Hok _ _ Hcur) as [Hkc0 Hkc1].
  assert (Hne : cur <> nb).
  { apply adjacent_neq. apply step_spec in Hstep. tauto. }
  assert (Hns : nb <> start).
  { intros ->. rewrite (sc_start _ _ _ _ Hok) in Hnb. injection Hnb as <-.
    simpl in Hlt. apply Z.ltb_lt in Hlt. lia. }
  pose proof (msum_insert finite_one g nb gn (Fin (kc + 1)) Hnb) as Hfin.
  pose proof (msum_insert (weight N) g nb gn (Fin (kc + 1)) Hnb) as Hw.
  pose proof (msum_insert one g nb gn (Fin (kc + 1)) Hnb) as Hone.
  pose proof (sc_entries _ _ _ _ Hok) as Hent. fold N in Hent.
  assert (Hcase : (gn = Inf /\ msum finite_one g <= N - 1)
                  \/ exists ko, gn = Fin ko /\ kc + 1 < ko /\ ko < msum finite_one g).
  { destruct gn as [ko|].
    - right. exists ko. simpl in Hlt. apply Z.ltb_lt in Hlt.
      pose proof (sc_bound _ _ _ _ Hok _ _ Hnb). repeat split; lia.
    - left. split; [reflexivity|].
      pose proof (finite_lt_entries g nb Hnb). lia. }
  split; [constructor|].
  - intros p. rewrite lookup_insert. case_decide as E.
    + subst p. split; intros _; [|eauto]. apply (sc_dom _ _ _ _ Hok). eauto.
    + apply (sc_dom _ _ _ _ Hok).
  - rewrite Hone, Hent. unfold one, N. lia.
  - rewrite lookup_insert_ne by exact Hns. apply (sc_start _ _ _ _ Hok).
  - intros p k. rewrite Hfin. rewrite lookup_insert. case_decide as E.
    + intros [= <-]. destruct Hcase as [[-> Hb]|(ko & -> & H1 & H2)]; simpl; lia.
    + intros Hp. pose proof (sc_bound _ _ _ _ Hok _ _ Hp).
      destruct Hcase as [[-> Hb]|(ko & -> & H1 & H2)]; simpl; lia.
  - intros p q. rewrite lookup_insert. case_decide as E.
    + intros [= <-]. subst p. split; [exact Hns|]. split; [exact Hstep|].
      exists (kc + 1), kc. rewrite lookup_insert_eq, lookup_insert_ne by exact (not_eq_sym Hne).
      repeat split; [exact Hcur | lia].
    + intros Hpq. destruct (sc_cf _ _ _ _ Hok _ _ Hpq) as (H1 & H2 & kp & kq & Hp & Hq & Hle).
      split; [exact H1|]. split; [exact H2|].
      rewrite lookup_insert_ne by exact E.
      destruct (decide (nb = q)) as [<-|Hq'].
      * exists kp, (kc + 1). rewrite lookup_insert_eq. split; [exact Hp|]. split; [reflexivity|].
        rewrite Hnb in Hq. injection Hq as ->. simpl in Hlt. apply Z.ltb_lt in Hlt. lia.
      * exists kp, kq. rewrite lookup_insert_ne by exact Hq'. auto.
  - intros p k. rewrite !lookup_insert. case_decide as E; [eauto|].
    apply (sc_cf_total _ _ _ _ Hok).
  - rewrite Hw. destruct Hcase as [[-> Hb]|(ko & -> & H1 & H2)]; simpl; lia.
Qed.

Lemma finite_persists (g : gmap (Z * Z) num) (nb : ref) (k' : Z) (p : ref) (k : Z) :
  g !! p = Some (Fin k) -> exists k0, <[nb := Fin k']> g !! p = Some (Fin k0).
Proof.
  intros Hp. rewrite lookup_insert. case_decide; eauto.
Qed.

(** A cell with a finite score is the start cell or was reached through a
    move, so it is no barrier. *)
Lemma finite_passable (g : gmap (Z * Z) num) (cf : gmap (Z * Z) (Z * Z)) (p : ref) (k : Z) :
  scores_ok grid0 start g cf -> g !! p = Some (Fin k) ->
  p = start \/ passable grid0 p = true.
Proof.
  intros Hok Hp. destruct (decide (p = start)) as [->|Hne]; [left; reflexivity|].
  right. destruct (sc_cf_total _ _ _ _ Hok _ _ Hp Hne) as [q Hq].
  destruct (sc_cf _ _ _ _ Hok _ _ Hq) as (_ & Hs & _).
  apply step_spec in Hs. tauto.
Qed.

(** *** The frontier and its membership set *)

Lemma open_ok_pop (os : list entry) (hash : gset (Z * Z)) (g : gmap (Z * Z) num)
    (f : num) (c : Z) (cur : ref) (rest : list entry) :
  open_ok os hash g -> pq_get os = Some ((f, c, cur), rest) ->
  cur ∈ hash /\ open_ok rest (hash ∖ {[cur]}) g
  /\ (exists k, g !! cur = Some (Fin k))
  /\ length os = S (length rest).
Proof.
  intros [Hmem Hnd Hfin] Hget. apply pq_get_perm in Hget.
  assert (Hperm : snd <$> os ≡ₚ cur :: (snd <$> rest)).
  { rewrite Hget. reflexivity. }
  rewrite Hperm in Hnd. apply NoDup_cons in Hnd as [Hnotin Hnd'].
  assert (Hcur : cur ∈ hash).
  { apply Hmem. rewrite Hperm. left. }
  split; [exact Hcur|]. split; [constructor|split].
  - intros p. rewrite elem_of_difference, elem_of_singleton, Hmem, Hperm, elem_of_cons.
    split.
    + intros [[->|H] Hne]; [congruence | exact H].
    + intros H. split; [right; exact H|]. intros ->. contradiction.
  - exact Hnd'.
  - intros p [Hp _]%elem_of_difference. apply Hfin, Hp.
  - apply Hfin, Hcur.
  - rewrite (Permutation_length Hget). reflexivity.
Qed.

Lemma open_ok_push (os : list entry) (hash : gset (Z * Z)) (g : gmap (Z * Z) num)
    (f : num) (c : Z) (nb : ref) :
  open_ok os hash g -> nb ∉ hash -> (exists k, g !! nb = Some (Fin k)) ->
  open_ok (pq_put (f, c, nb) os) ({[nb]} ∪ hash) g.
Proof.
  intros [Hmem Hnd Hfin] Hnot Hk. unfold pq_put. constructor.
  - intros p. rewrite fmap_app, elem_of_union, elem_of_singleton, elem_of_app, Hmem.
    simpl. rewrite list_elem_of_singleton. tauto.
  - rewrite fmap_app. apply NoDup_app. split; [exact Hnd|]. split.
    + intros p Hp. simpl. rewrite list_elem_of_singleton. intros ->.
      apply Hnot, Hmem, Hp.
    + simpl. apply NoDup_singleton.
  - intros p [->%elem_of_singleton|Hp]%elem_of_union; [exact Hk | apply Hfin, Hp].
Qed.

Lemma open_ok_scores (os : list entry) (hash : gset (Z * Z))
    (g g' : gmap (Z * Z) num) :
  open_ok os hash g ->
  (forall p k, g !! p = Some (Fin k) -> exists k', g' !! p = Some (Fin k')) ->
  open_ok os hash g'.
Proof.
  intros [Hmem Hnd Hfin] Hper. constructor; [exact Hmem | exact Hnd|].
  intros p Hp. destruct (Hfin p Hp) as [k Hk]. eapply Hper, Hk.
Qed.

(** *** One relaxation, on the state *)

Lemma relax_Inv (cur nb : ref) (st : State) (kc : Z) :
  Inv grid0 start st ->
  g_score st !! cur = Some (Fin kc) ->
  step grid0 cur nb = true ->
  exists st', relax cur end_ nb st = Some st'
    /\ Inv grid0 start st'
    /\ measure grid0 start st' <= measure grid0 start st
    /\ (exists kc', g_score st' !! cur = Some (Fin kc'))
    /\ draws st' = draws st.
Proof.
  intros (Hg & Hfr & Hsc & Hop) Hcur Hstep.
  assert (Hpass : passable grid0 nb = true) by (apply step_spec in Hstep; tauto).
  assert (Hvalid : is_Some (node_at grid0 nb)).
  { apply passable_spec in Hpass as (nd & Hnd & _). eauto. }
  destruct (proj2 (sc_dom _ _ _ _ Hsc nb) Hvalid) as [gn Hgn].
  destruct (recolored_Some _ _ _ _ Hg Hvalid) as [nnode Hnnode].
  destruct (recolored_Some _ _ _ _ Hg Hend) as [enode Henode].
  unfold relax. rewrite Hcur. cbn -[num_ltb heuristic]. rewrite Hgn. cbn -[num_ltb heuristic].
  destruct (num_ltb (Fin (kc + 1)) gn) eqn:Hlt.
  2:{ exists st. split; [reflexivity|].
      split; [exact (conj Hg (conj Hfr (conj Hsc Hop)))|].
      split; [lia|]. split; [eauto | reflexivity]. }
  rewrite Hnnode. cbn -[heuristic]. rewrite Henode. cbn -[heuristic].
  destruct (scores_relax _ _ _ _ _ _ Hsc Hcur Hstep Hgn Hlt) as [Hsc' Hdec].
  assert (Hper : forall p k, g_score st !! p = Some (Fin k) ->
            exists k', <[nb := Fin (kc + 1)]> (g_score st) !! p = Some (Fin k')).
  { intros p k. apply finite_persists. }
  destruct (decide (nb ∈ open_set_hash st)) as [Hin|Hin].
  - eexists. split; [reflexivity|]. unfold Inv, measure. simpl.
    split; [|split; [|split; [exact (Hper _ _ Hcur) | reflexivity]]].
    + split; [exact Hg|]. split; [exact Hfr|]. split; [exact Hsc'|].
      eapply open_ok_scores; eassumption.
    + fold N. lia.
  - eexists. split; [reflexivity|]. unfold Inv, measure. simpl.
    split; [|split; [|split; [exact (Hper _ _ Hcur) | reflexivity]]].
    + split; [|split; [exact Hfr|split; [exact Hsc'|]]].
      * apply recolored_update; [exact Hg | reflexivity | right; exact Hpass].
      * apply open_ok_push; [eapply open_ok_scores; eassumption | exact Hin|].
        exists (kc + 1). apply lookup_insert_eq.
    + unfold pq_put. rewrite length_app. simpl. fold N. lia.
Qed.

Lemma for_neighbors_Inv (cur : ref) (l : list ref) :
  forall st,
    (forall nb, nb ∈ l -> step grid0 cur nb = true) ->
    Inv grid0 start st ->
    (exists kc, g_score st !! cur = Some (Fin kc)) ->
    exists st', for_neighbors cur end_ l st = Some st'
      /\ Inv grid0 start st'
      /\ measure grid0 start st' <= measure grid0 start st
      /\ draws st' = draws st.
Proof.
  induction l as [|nb l IH]; intros st Hl Hinv [kc Hcur]; simpl.
  - exists st. split; [reflexivity|]. split; [exact Hinv|]. split; [lia | reflexivity].
  - destruct (relax_Inv cur nb st kc Hinv Hcur) as (st1 & Hrun & Hinv1 & Hm1 & Hk1 & Hd1).
    { apply Hl. left. }
    rewrite Hrun. simpl.
    destruct (IH st1) as (st' & Hrun' & Hinv' & Hm' & Hd'); try assumption.
    { intros nb' Hin. apply Hl. right. exact Hin. }
    exists st'. split; [exact Hrun'|]. split; [exact Hinv'|]. split; [lia | congruence].
Qed.

(** *** One expansion *)

Lemma expand_Inv (cur : ref) (st : State) (kc : Z) :
  Inv grid0 start st ->
  g_score st !! cur = Some (Fin kc) ->
  exists st', expand start end_ cur st = Some st'
    /\ Inv grid0 start st'
    /\ measure grid0 start st' <= measure grid0 start st.
Proof.
  intros Hinv Hcur. pose proof Hinv as (Hg & Hfr & Hsc & Hop).
  assert (Hvalid : is_Some (node_at grid0 cur)).
  { apply (sc_dom _ _ _ _ Hsc). eauto. }
  destruct (recolored_Some _ _ _ _ Hg Hvalid) as [cnode Hcnode].
  destruct (recolored_neighbors _ _ _ _ _ Hg Hcnode) as (nd0 & Hnd0 & Hnb).
  rewrite (refreshed_neighbors grid0 cur nd0 Hwf Href Hnd0) in Hnb.
  destruct (for_neighbors_Inv cur (neighbors cnode) st)
    as (st' & Hrun & Hinv' & Hm & Hd); [|exact Hinv|eauto|].
  { intros nb. rewrite Hnb, elem_of_filter_passable, step_spec. tauto. }
  unfold expand. rewrite Hcnode. simpl. rewrite Hrun. simpl.
  eexists. split; [reflexivity|].
  destruct Hinv' as (Hg' & Hfr' & Hsc' & Hop').
  unfold Inv, measure. simpl. split; [|exact Hm].
  split; [|split; [|split; [exact Hsc' | exact Hop']]].
  - destruct (ref_eqb cur start) eqn:E; [exact Hg'|].
    apply recolored_update; [exact Hg' | reflexivity|].
    destruct (finite_passable _ _ _ _ Hsc Hcur) as [->|H]; [|right; exact H].
    rewrite ref_eqb_refl in E. discriminate.
  - constructor; assumption.
Qed.

(** *** The walk back from a cell with a finite score *)

Lemma walk_exists (g : gmap (Z * Z) num) (cf : gmap (Z * Z) (Z * Z)) :
  scores_ok grid0 start g cf ->
  forall (n : nat) (p : ref) (k : Z),
    k <= Z.of_nat n -> g !! p = Some (Fin k) ->
    exists l l',
      walk cf p l
      /\ rev (p :: l) = start :: l'
      /\ is_route grid0 start l' p = true
      /\ Z.of_nat (length l) <= k
      /\ forall q, q ∈ l -> exists kq, g !! q = Some (Fin kq) /\ kq < k.
Proof.
  intros Hok. induction n as [|n IH]; intros p k Hk Hp.
  - pose proof (sc_bound _ _ _ _ Hok _ _ Hp) as [Hk0 _].
    assert (k = 0) as -> by lia.
    destruct (decide (p = start)) as [->|Hne].
    + exists [], []. split; [|split; [reflexivity|split; [apply ref_eqb_refl|split]]].
      * apply walk_stop. destruct (cf !! start) as [q|] eqn:E; [|reflexivity].
        destruct (sc_cf _ _ _ _ Hok _ _ E) as [H _]. congruence.
      * simpl. lia.
      * intros q Hq. inversion Hq.
    + destruct (sc_cf_total _ _ _ _ Hok _ _ Hp Hne) as [q Hq].
      destruct (sc_cf _ _ _ _ Hok _ _ Hq) as (_ & _ & kp & kq & Hp' & Hq' & Hle).
      pose proof (sc_bound _ _ _ _ Hok _ _ Hq') as [Hq0 _].
      rewrite Hp in Hp'. injection Hp' as <-. lia.
  - destruct (decide (p = start)) as [->|Hne].
    + rewrite (sc_start _ _ _ _ Hok) in Hp. injection Hp as <-.
      exists [], []. split; [|split; [reflexivity|split; [apply ref_eqb_refl|split]]].
      * apply walk_stop. destruct (cf !! start) as [q|] eqn:E; [|reflexivity].
        destruct (sc_cf _ _ _ _ Hok _ _ E) as [H _]. congruence.
      * simpl. lia.
      * intros q Hq. inversion Hq.
    + destruct (sc_cf_total _ _ _ _ Hok _ _ Hp Hne) as [q Hq].
      destruct (sc_cf _ _ _ _ Hok _ _ Hq) as (_ & Hs & kp & kq & Hp' & Hq' & Hle).
      rewrite Hp in Hp'. injection Hp' as <-.
      destruct (IH q kq) as (l & l' & Hw & Hrev & Hroute & Hlen & Hall); [lia|exact Hq'|].
      exists (q :: l), (l' ++ [p]).
      split; [apply walk_back; assumption|]. split.
      { change (rev (p :: q :: l)) with (rev (q :: l) ++ [p]). rewrite Hrev. reflexivity. }
      split; [eapply is_route_snoc; eassumption|]. split; [simpl; lia|].
      intros x [->|Hx]%elem_of_cons.
      * exists kq. split; [exact Hq' | lia].
      * destruct (Hall x Hx) as (kx & Hkx & Hlt). exists kx. split; [exact Hkx | lia].
Qed.

(** *** Marking the path *)

Lemma recolored_mark_path (g : gmap (Z * Z) num) (cf : gmap (Z * Z) (Z * Z)) (l : list ref) :
  scores_ok grid0 start g cf ->
  (forall q, q ∈ l -> exists kq, g !! q = Some (Fin kq)) ->
  forall grid dr,
    recolored grid0 start grid -> Forall (recolored grid0 start) dr ->
    recolored grid0 start (mark_path l grid)
    /\ Forall (recolored grid0 start) (path_frames l grid dr).
Proof.
  intros Hok. induction l as [|q l IH]; intros Hl grid dr Hg Hdr.
  - split; assumption.
  - destruct (Hl q) as [kq Hq]; [left|].
    assert (Hg' : recolored grid0 start (update_node grid q make_path)).
    { apply recolored_update; [exact Hg | reflexivity|].
      eapply finite_passable; eassumption. }
    apply IH; [|exact Hg'|constructor; assumption].
    intros x Hx. apply Hl. right. exact Hx.
Qed.

(** *** The success exit *)

Lemma finish_walk (rfuel : nat) (st : State) (l : list ref) :
  walk (came_from st) end_ l -> (length l < rfuel)%nat ->
  finish rfuel start end_ st
  = Return (true, 1 + Z.of_nat (length l), final_state start end_ l st).
Proof.
  intros Hw Hlen. unfold finish, reconstruct_path.
  rewrite (reconstruct_loop_walk _ _ _ Hw) by exact Hlen. reflexivity.
Qed.

Lemma finish_inv (rfuel : nat) (st : State) (r : bool * Z * State) :
  finish rfuel start end_ st = Return r ->
  exists l, walk (came_from st) end_ l /\ (length l < rfuel)%nat.
Proof.
  unfold finish, reconstruct_path.
  destruct (reconstruct_loop rfuel (came_from st) end_ 1 (st_grid st) (draws st))
    as [x| |] eqn:E; try discriminate.
  intros _. eapply reconstruct_loop_inv, E.
Qed.

Lemma finish_Found (st1 : State) (k : Z) :
  Inv grid0 start st1 -> g_score st1 !! end_ = Some (Fin k) ->
  exists l,
    walk (came_from st1) end_ l
    /\ Z.of_nat (length l) < N
    /\ Found grid0 start end_ (1 + Z.of_nat (length l)) (final_state start end_ l st1).
Proof.
  intros (Hg & Hfr & Hsc & Hop) Hk.
  destruct (sc_bound _ _ _ _ Hsc _ _ Hk) as [Hk0 Hk1].
  destruct (walk_exists _ _ Hsc (Z.to_nat k) end_ k ltac:(lia) Hk)
    as (l & l' & Hw & Hrev & Hroute & Hlen & Hall).
  assert (HN : Z.of_nat (length l) < N).
  { pose proof (finite_le_entries (g_score st1)).
    pose proof (sc_entries _ _ _ _ Hsc). fold N in H0. lia. }
  assert (Hfin : forall q, q ∈ l -> exists kq, g_score st1 !! q = Some (Fin kq)).
  { intros q Hq. destruct (Hall q Hq) as (kq & H & _). eauto. }
  destruct (recolored_mark_path _ _ l Hsc Hfin _ _ Hg Hfr) as [Hm Hf].
  exists l. split; [exact Hw|]. split; [exact HN|].
  exists st1, l, l'. repeat (split; [first [assumption | reflexivity]|]).
  split.
  { intros q Hq ->. destruct (Hall _ Hq) as (kq & Hkq & Hlt).
    rewrite Hk in Hkq. injection Hkq as <-. lia. }
  split; [exact HN|]. split; [reflexivity|]. split; [reflexivity|].
  split; [exact Hg|]. split; [|exact Hf].
  simpl. apply recolored_update; [|reflexivity|left; reflexivity].
  apply recolored_update; [exact Hm|reflexivity|].
  eapply finite_passable; eassumption.
Qed.

(** *** One pass of the loop *)

Lemma loop_step (fuel rfuel : nat) (st : State) :
  Inv grid0 start st ->
  (open_set st = [] /\ loop (S fuel) rfuel start end_ 0 st = Return (false, 0, st))
  \/ (exists st1 k,
        Inv grid0 start st1
        /\ g_score st1 !! end_ = Some (Fin k)
        /\ loop (S fuel) rfuel start end_ 0 st = finish rfuel start end_ st1)
  \/ (exists st2,
        Inv grid0 start st2
        /\ measure grid0 start st2 < measure grid0 start st
        /\ loop (S fuel) rfuel start end_ 0 st = loop fuel rfuel start end_ 0 st2
        /\ exists st1 cur k,
             g_score st1 = g_score st
             /\ open_set_hash st1 = open_set_hash st ∖ {[cur]}
             /\ cur <> end_
             /\ Inv grid0 start st1
             /\ g_score st1 !! cur = Some (Fin k)
             /\ expand start end_ cur st1 = Some st2).
Proof.
  intros (Hg & Hfr & Hsc & Hop). simpl.
  destruct (pq_get (open_set st)) as [[[[f c] cur] rest]|] eqn:Hget.
  2:{ left. apply pq_get_None in Hget. split; [exact Hget | reflexivity]. }
  right.
  destruct (open_ok_pop _ _ _ _ _ _ _ Hop Hget) as (Hin & Hop1 & [k Hk] & Hlen).
  rewrite decide_True by exact Hin.
  set (st1 := mkState (st_grid st) rest (came_from st) (g_score st) (f_score st)
                (open_set_hash st ∖ {[cur]}) (count st) (draws st)).
  assert (Hinv1 : Inv grid0 start st1) by exact (conj Hg (conj Hfr (conj Hsc Hop1))).
  assert (Hm1 : measure grid0 start st1 < measure grid0 start st).
  { unfold measure, st1. simpl. lia. }
  destruct (ref_eqb cur end_) eqn:E.
  - left. apply ref_eqb_eq in E. subst cur. exists st1, k.
    split; [exact Hinv1|]. split; [exact Hk | reflexivity].
  - right. destruct (expand_Inv cur st1 k Hinv1 Hk) as (st2 & Hrun & Hinv2 & Hm2).
    rewrite Hrun. exists st2. split; [exact Hinv2|]. split; [lia|].
    split; [reflexivity|]. exists st1, cur, k.
    split; [reflexivity|]. split; [reflexivity|].
    split; [apply ref_eqb_neq, E|]. split; [exact Hinv1|]. split; [exact Hk | exact Hrun].
Qed.

Lemma loop_post (rfuel : nat) (fuel : nat) :
  forall st b L st',
    Inv grid0 start st ->
    loop fuel rfuel start end_ 0 st = Return (b, L, st') ->
    Post grid0 start end_ b L st'.
Proof.
  induction fuel as [|fuel IH]; intros st b L st' Hinv; [discriminate|].
  destruct (loop_step fuel rfuel st Hinv)
    as [[Hempty ->]|[(st1 & k & Hinv1 & Hk & ->)|(st2 & Hinv2 & _ & -> & _)]].
  - intros [= <- <- <-]. simpl. auto.
  - intros Hfin. destruct (finish_inv _ _ _ Hfin) as (l0 & Hw0 & Hlen0).
    destruct (finish_Found st1 k Hinv1 Hk) as (l & Hw & _ & Hfound).
    rewrite (walk_functional _ _ _ _ Hw0 Hw) in Hlen0.
    rewrite (finish_walk _ _ _ Hw Hlen0) in Hfin. injection Hfin as <- <- <-.
    exact Hfound.
  - apply IH, Hinv2.
Qed.

Lemma loop_returns (rfuel : nat) (fuel : nat) :
  N <= Z.of_nat rfuel ->
  forall st,
    Inv grid0 start st ->
    measure grid0 start st < Z.of_nat fuel ->
    exists r, loop fuel rfuel start end_ 0 st = Return r.
Proof.
  intros Hr. induction fuel as [|fuel IH]; intros st Hinv Hm.
  - exfalso. destruct Hinv as (_ & _ & Hsc & _).
    assert (0 <= msum (weight N) (g_score st)).
    { unfold msum. 
      assert (Hl : forall kv, kv ∈ map_to_list (g_score st) -> 0 <= weight N kv.2).
      { intros [p [k|]] Hin; simpl.
        - apply elem_of_map_to_list in Hin. apply (sc_bound _ _ _ _ Hsc _ _ Hin).
        - pose proof (sc_entries _ _ _ _ Hsc). fold N in H.
          pose proof (msum_one_nonneg (g_score st)). lia. }
      induction (map_to_list (g_score st)) as [|kv l IHl]; simpl; [lia|].
      pose proof (Hl kv ltac:(left)).
      assert (0 <= sum_entries (weight N) l).
      { apply IHl. intros kv' Hin. apply Hl. right. exact Hin. }
      unfold sum_entries in *. lia. }
    unfold measure in Hm. fold N in Hm. lia.
  - destruct (loop_step fuel rfuel st Hinv)
      as [[Hempty ->]|[(st1 & k & Hinv1 & Hk & ->)|(st2 & Hinv2 & Hm2 & -> & _)]].
    + eauto.
    + destruct (finish_Found st1 k Hinv1 Hk) as (l & Hw & Hlen & _).
      rewrite (finish_walk rfuel st1 l Hw) by lia. eauto.
    + apply IH; [exact Hinv2 | lia].
Qed.

(** *** The state before the loop *)

Lemma cells_of_bounds : 1 <= N <= Z.of_nat (length (all_refs grid0)).
Proof.
  unfold N, cells_of.
  assert (Hs : all_inf grid0 !! start = Some Inf).
  { rewrite all_inf_lookup, decide_True; [reflexivity|].
    apply elem_of_all_refs, Hstart. }
  pose proof (msum_insert one _ start Inf (Fin 0) Hs) as H1.
  pose proof (msum_delete one _ start Inf Hs) as H2.
  pose proof (all_inf_entries grid0) as H3.
  pose proof (msum_one_nonneg (delete start (all_inf grid0))) as H4.
  change (one Inf) with 1 in *. change (one (Fin 0)) with 1 in *. lia.
Qed.

Lemma init_Inv :
  exists st0, init grid0 start end_ = Some st0
    /\ Inv grid0 start st0
    /\ measure grid0 start st0 <= 2 * N * N + 1.
Proof.
  destruct Hstart as [snode Hs]. destruct Hend as [enode He].
  unfold init. rewrite Hs. cbn -[heuristic]. rewrite He. cbn -[heuristic].
  eexists. split; [reflexivity|].
  set (g0 := <[start := Fin 0]> (all_inf grid0)).
  assert (Hlook : forall p v, g0 !! p = Some v ->
            (p = start /\ v = Fin 0) \/ (p <> start /\ v = Inf)).
  { intros p v. unfold g0. rewrite lookup_insert. case_decide as E.
    - intros [= <-]. left. auto.
    - rewrite all_inf_lookup. case_decide; [|discriminate]. intros [= <-]. right. auto. }
  assert (Hg0s : g0 !! start = Some (Fin 0)) by apply lookup_insert_eq.
  pose proof cells_of_bounds as HN.
  assert (Hsc : scores_ok grid0 start g0 ∅).
  { constructor.
    - intros p. unfold g0. rewrite lookup_insert. case_decide as E.
      + subst p. split; intros _; eauto.
      + rewrite all_inf_lookup, <- elem_of_all_refs.
        case_decide; split; intros H'; try assumption; eauto; try contradiction.
        destruct H' as [? ?]; discriminate.
    - reflexivity.
    - exact Hg0s.
    - intros p k Hp. destruct (Hlook _ _ Hp) as [[-> [= ->]]|[_ ?]]; [|discriminate].
      rewrite (msum_delete finite_one g0 start (Fin 0) Hg0s).
      change (finite_one (Fin 0)) with 1.
      assert (0 <= msum finite_one (delete start g0)).
      { apply msum_nonneg. intros [z|]; simpl; lia. }
      lia.
    - intros p q. rewrite lookup_empty. discriminate.
    - intros p k Hp Hne. destruct (Hlook _ _ Hp) as [[-> _]|[_ ?]];
        [congruence | discriminate]. }
  split; [|].
  - unfold Inv. cbn [st_grid draws g_score came_from open_set open_set_hash].
    split; [apply recolored_refl|]. split; [constructor|]. split; [exact Hsc|].
    constructor.
    + intros p. simpl. rewrite elem_of_singleton, list_elem_of_singleton. tauto.
    + simpl. apply NoDup_singleton.
    + intros p ->%elem_of_singleton. eauto.
  - unfold measure. cbn [g_score open_set length]. fold N. fold g0.
    assert (msum (weight N) g0 <= N * msum one g0).
    { apply msum_le_scaled. intros p v Hp.
      destruct (Hlook _ _ Hp) as [[_ ->]|[_ ->]]; simpl; lia. }
    change (msum one g0) with N in H. lia.
Qed.

(** *** The whole search *)

Lemma algorithm_post (fuel : nat) (b : bool) (L : Z) (st' : State) :
  algorithm fuel grid0 start end_ = Return (b, L, st') -> Post grid0 start end_ b L st'.
Proof.
  unfold algorithm. destruct init_Inv as (st0 & -> & Hinv & _).
  apply loop_post, Hinv.
Qed.

Lemma algorithm_returns (fuel : nat) :
  2 * N * N + 2 <= Z.of_nat fuel ->
  exists r, algorithm fuel grid0 start end_ = Return r.
Proof.
  intros Hfuel. unfold algorithm. destruct init_Inv as (st0 & -> & Hinv & Hm).
  pose proof cells_of_bounds.
  apply loop_returns; [nia | exact Hinv | lia].
Qed.
(** *** A route is found when there is one *)

Lemma relax_reach (cur nb : ref) (st st' : State) (kc : Z) :
  g_score st !! cur = Some (Fin kc) ->
  relax cur end_ nb st = Some st' ->
  expanded_ok grid0 (Some cur) (open_set_hash st) (g_score st) ->
  end_waits end_ (open_set_hash st) (g_score st) ->
  expanded_ok grid0 (Some cur) (open_set_hash st') (g_score st')
  /\ end_waits end_ (open_set_hash st') (g_score st')
  /\ (exists kn, g_score st' !! nb = Some (Fin kn))
  /\ (forall p k, g_score st !! p = Some (Fin k) ->
        exists k', g_score st' !! p = Some (Fin k')).
Proof.
  intros Hcur Hrun Hexp Hwait.
  destruct (relax_shape _ _ _ _ _ _ Hcur Hrun)
    as [[-> Hkn]|(gn & Hgn & Hlt & Hg & _ & Hhash)].
  { split; [exact Hexp|]. split; [exact Hwait|]. split; [exact Hkn | eauto]. }
  assert (Hper : forall p k, g_score st !! p = Some (Fin k) ->
            exists k', g_score st' !! p = Some (Fin k')).
  { intros p k. rewrite Hg. apply finite_persists. }
  assert (Hsub : forall p, p ∈ open_set_hash st -> p ∈ open_set_hash st').
  { intros p Hp. destruct Hhash as [(-> & _)|(-> & _)]; [exact Hp|].
    apply elem_of_union. right. exact Hp. }
  assert (Hnb : nb ∈ open_set_hash st').
  { destruct Hhash as [(-> & H & _)|(-> & _)]; [exact H|].
    apply elem_of_union. left. apply elem_of_singleton. reflexivity. }
  split; [|split; [|split; [|exact Hper]]].
  - intros p k Hp Hnot Hskip q Hq.
    assert (Hpn : p <> nb) by (intros ->; contradiction).
    rewrite Hg, lookup_insert_ne in Hp by exact (not_eq_sym Hpn).
    destruct (Hexp p k Hp) with (q := q) as [k' Hk']; try assumption.
    { intros Hin. apply Hnot, Hsub, Hin. }
    eapply Hper, Hk'.
  - intros k Hk. destruct (decide (end_ = nb)) as [->|Hne]; [exact Hnb|].
    rewrite Hg, lookup_insert_ne in Hk by exact (not_eq_sym Hne).
    apply Hsub, (Hwait k Hk).
  - exists (kc + 1). rewrite Hg. apply lookup_insert_eq.
Qed.

Lemma for_neighbors_reach (cur : ref) (l : list ref) :
  forall st st',
    (exists kc, g_score st !! cur = Some (Fin kc)) ->
    for_neighbors cur end_ l st = Some st' ->
    expanded_ok grid0 (Some cur) (open_set_hash st) (g_score st) ->
    end_waits end_ (open_set_hash st) (g_score st) ->
    expanded_ok grid0 (Some cur) (open_set_hash st') (g_score st')
    /\ end_waits end_ (open_set_hash st') (g_score st')
    /\ (forall nb, nb ∈ l -> exists kn, g_score st' !! nb = Some (Fin kn))
    /\ (forall p k, g_score st !! p = Some (Fin k) ->
          exists k', g_score st' !! p = Some (Fin k')).
Proof.
  induction l as [|nb l IH]; intros st st' [kc Hcur]; simpl.
  - intros [= <-] Hexp Hwait. split; [exact Hexp|]. split; [exact Hwait|].
    split; [intros nb Hnb; inversion Hnb | eauto].
  - destruct (relax cur end_ nb st) as [st1|] eqn:Hrun; [|discriminate]. simpl.
    intros Hrest Hexp Hwait.
    destruct (relax_reach _ _ _ _ _ Hcur Hrun Hexp Hwait) as (Hexp1 & Hwait1 & Hnb1 & Hper1).
    destruct (IH st1 st' (Hper1 _ _ Hcur) Hrest Hexp1 Hwait1)
      as (Hexp' & Hwait' & Hall & Hper').
    split; [exact Hexp'|]. split; [exact Hwait'|]. split.
    + intros x [->|Hx]%elem_of_cons; [|apply Hall, Hx].
      destruct Hnb1 as [kn Hkn]. eapply Hper', Hkn.
    + intros p k Hp. destruct (Hper1 _ _ Hp) as [k1 Hk1]. eapply Hper', Hk1.
Qed.

Lemma expand_reach (cur : ref) (st st' : State) (kc : Z) :
  Inv grid0 start st ->
  g_score st !! cur = Some (Fin kc) ->
  expand start end_ cur st = Some st' ->
  expanded_ok grid0 (Some cur) (open_set_hash st) (g_score st) ->
  end_waits end_ (open_set_hash st) (g_score st) ->
  expanded_ok grid0 None (open_set_hash st') (g_score st')
  /\ end_waits end_ (open_set_hash st') (g_score st').
Proof.
  intros (Hg & _ & Hsc & _) Hcur Hrun Hexp Hwait. unfold expand in Hrun.
  destruct (node_at (st_grid st) cur) as [cnode|] eqn:Hcnode; [|discriminate].
  simpl in Hrun.
  destruct (for_neighbors cur end_ (neighbors cnode) st) as [st1|] eqn:Hfor; [|discriminate].
  simpl in Hrun. injection Hrun as <-. simpl.
  destruct (recolored_neighbors _ _ _ _ _ Hg Hcnode) as (nd0 & Hnd0 & Hnb).
  rewrite (refreshed_neighbors grid0 cur nd0 Hwf Href Hnd0) in Hnb.
  destruct (for_neighbors_reach cur _ st st1 (ex_intro _ kc Hcur) Hfor Hexp Hwait)
    as (Hexp1 & Hwait1 & Hall & _).
  split; [|exact Hwait1].
  intros p k Hp Hnot _ q Hq. destruct (decide (p = cur)) as [->|Hne].
  - apply Hall. rewrite Hnb. apply elem_of_filter_passable, step_spec, Hq.
  - apply (Hexp1 p k Hp Hnot) with (q := q); [congruence | exact Hq].
Qed.

Lemma route_finite (g : gmap (Z * Z) num) (l : list ref) :
  expanded_ok grid0 None ∅ g ->
  forall p k, g !! p = Some (Fin k) -> is_route grid0 p l end_ = true ->
    exists k', g !! end_ = Some (Fin k').
Proof.
  intros Hexp. induction l as [|x l IH]; intros p k Hp; simpl.
  - intros ->%ref_eqb_eq. eauto.
  - intros [Hs Hr]%andb_true_iff.
    destruct (Hexp p k Hp) with (q := x) as [k' Hk']; try assumption.
    + apply not_elem_of_empty.
    + discriminate.
    + eapply IH; eassumption.
Qed.

Lemma loop_finds (rfuel : nat) (l : list ref) (fuel : nat) :
  is_route grid0 start l end_ = true ->
  forall st b L st',
    Inv grid0 start st ->
    expanded_ok grid0 None (open_set_hash st) (g_score st) ->
    end_waits end_ (open_set_hash st) (g_score st) ->
    loop fuel rfuel start end_ 0 st = Return (b, L, st') ->
    b = true.
Proof.
  intros Hroute. induction fuel as [|fuel IH]; intros st b L st' Hinv Hexp Hwait;
    [discriminate|].
  destruct (loop_step fuel rfuel st Hinv)
    as [[Hempty ->]|[(st1 & k & Hinv1 & Hk & ->)
                    |(st2 & Hinv2 & _ & -> & st1 & cur & k & Hg1 & Hh1 & Hne & Hinv1 & Hk & Hrun)]].
  - intros _. exfalso. destruct Hinv as (_ & _ & Hsc & Hop).
    assert (Hhash : open_set_hash st = ∅).
    { apply set_eq. intros p. rewrite (op_mem _ _ _ Hop), Hempty. simpl.
      rewrite elem_of_nil. split; [tauto | intros H; inversion H]. }
    rewrite Hhash in Hexp, Hwait.
    destruct (route_finite _ l Hexp start 0 (sc_start _ _ _ _ Hsc) Hroute) as [k' Hk'].
    apply Hwait in Hk'. inversion Hk'.
  - unfold finish.
    destruct (reconstruct_path rfuel (came_from st1) end_ (st_grid st1) (draws st1))
      as [[[n g'] dr]| |]; [|discriminate|discriminate].
    intros [= <- _ _]. reflexivity.
  - assert (Hexp1 : expanded_ok grid0 (Some cur) (open_set_hash st1) (g_score st1)).
    { rewrite Hg1, Hh1. intros p kp Hp Hnot Hskip. apply (Hexp p kp Hp); [|discriminate].
      intros Hin. apply Hnot, elem_of_difference. split; [exact Hin|].
      intros ->%elem_of_singleton. congruence. }
    assert (Hwait1 : end_waits end_ (open_set_hash st1) (g_score st1)).
    { rewrite Hg1, Hh1. intros ke Hke. apply elem_of_difference.
      split; [apply (Hwait ke Hke)|]. intros ->%elem_of_singleton. congruence. }
    destruct (expand_reach cur st1 st2 k Hinv1 Hk Hrun Hexp1 Hwait1) as [Hexp2 Hwait2].
    apply IH; assumption.
Qed.

Lemma algorithm_finds (fuel : nat) (l : list ref) (b : bool) (L : Z) (st' : State) :
  is_route grid0 start l end_ = true ->
  algorithm fuel grid0 start end_ = Return (b, L, st') -> b = true.
Proof.
  intros Hroute. unfold algorithm.
  destruct init_Inv as (st0 & Hinit & Hinv & _). rewrite Hinit.
  assert (Hg0 : g_score st0 = <[start := Fin 0]> (all_inf grid0)
                /\ open_set_hash st0 = {[start]}).
  { unfold init in Hinit. destruct (node_at grid0 start); [|discriminate].
    cbn -[heuristic] in Hinit. destruct (node_at grid0 end_); [|discriminate].
    cbn -[heuristic] in Hinit. injection Hinit as <-. split; reflexivity. }
  destruct Hg0 as [Hg0 Hh0].
  assert (Honly : forall p k, g_score st0 !! p = Some (Fin k) -> p = start).
  { intros p k. rewrite Hg0, lookup_insert. destruct (decide (start = p)) as [->|Hne];
      [reflexivity|].
    rewrite all_inf_lookup. destruct (decide (p ∈ all_refs grid0)); discriminate. }
  apply (loop_finds fuel l fuel Hroute); [exact Hinv| |].
  - intros p k Hp Hnot _. rewrite (Honly p k Hp), Hh0 in Hnot.
    exfalso. apply Hnot, elem_of_singleton. reflexivity.
  - intros k Hk. rewrite (Honly _ _ Hk), Hh0. apply elem_of_singleton. reflexivity.
Qed.

End Search.

(** ** Consequences for the whole search *)

Lemma enough_fuel_cells (grid : Grid) (start : ref) (fuel : nat) :
  is_Some (node_at grid start) -> (enough_fuel grid <= fuel)%nat ->
  2 * cells_of grid start * cells_of grid start + 2 <= Z.of_nat fuel.
Proof.
  intros Hs Hfuel. pose proof (cells_of_bounds grid start Hs) as Hb.
  unfold enough_fuel in Hfuel. nia.
Qed.

Lemma rev_route_length (a b : ref) (l l' : list ref) :
  rev (b :: l) = a :: l' -> length l' = length l.
Proof.
  intros H. apply (f_equal length) in H. rewrite length_rev in H. simpl in H. lia.
Qed.

Lemma rev_route_last (a b : ref) (l l' : list ref) :
  rev (b :: l) = a :: l' -> last (a :: l') = Some b.
Proof. intros <-. simpl. apply last_snoc. Qed.

Lemma rev_route_start (a b : ref) (l l' : list ref) :
  rev (b :: l) = a :: l' -> a <> b -> last l = Some a.
Proof.
  intros H Hne. simpl in H. destruct (rev l) as [|x r] eqn:E; simpl in H.
  - injection H as <-. congruence.
  - injection H as -> _. rewrite <- (rev_involutive l), E. simpl. apply last_snoc.
Qed.

Lemma length_path_frames (l : list ref) :
  forall grid dr, length (path_frames l grid dr) = (length dr + length l)%nat.
Proof.
  induction l as [|q l IH]; intros grid dr; simpl; [lia|]. rewrite IH. simpl. lia.
Qed.

Lemma recolored_barriers (grid : Grid) (start : ref) (g : Grid) :
  passable grid start = true -> recolored grid start g ->
  (forall p, is_barrier <$> node_at g p = is_barrier <$> node_at grid p)
  /\ (forall p nd, node_at grid p = Some nd -> is_barrier nd = true ->
        node_at g p = Some nd).
Proof.
  intros Hs Hrec.
  assert (Hkey : forall p nd0 c, node_at grid p = Some nd0 ->
            rgb_eqb c Color.BARRIER = false ->
            p = start \/ passable grid p = true -> is_barrier nd0 = false).
  { intros p nd0 c Hp _ Hor.
    assert (Hpass : passable grid p = true) by (destruct Hor as [->|H]; assumption).
    unfold passable in Hpass. rewrite Hp in Hpass. apply negb_true_iff, Hpass. }
  split.
  - intros p. specialize (Hrec p). destruct (node_at grid p) as [nd0|] eqn:Hp.
    + destruct Hrec as (c & -> & [->|[Hc Hor]]); simpl.
      * destruct nd0; reflexivity.
      * f_equal. rewrite (Hkey p nd0 c Hp Hc Hor). exact Hc.
    + rewrite Hrec. reflexivity.
  - intros p nd Hp Hb. specialize (Hrec p). rewrite Hp in Hrec.
    destruct Hrec as (c & -> & [->|[Hc Hor]]).
    + destruct nd; reflexivity.
    + rewrite (Hkey p nd c Hp Hc Hor) in Hb. discriminate.
Qed.

(** C10: on a well-formed grid with refreshed neighbour lists the search
    returns: with [enough_fuel grid] passes of the loop, or more, it does not
    run out of fuel and raises nothing. *)
Theorem search_terminates (grid : Grid) (start end_ : ref) (fuel : nat) :
  well_formed grid = true -> refreshed grid = true ->
  is_Some (node_at grid start) -> is_Some (node_at grid end_) ->
  (enough_fuel grid <= fuel)%nat ->
  exists found path_length st',
    algorithm fuel grid start end_ = Return (found, path_length, st').
Proof.
  intros Hwf%well_formed_wf Href Hs He Hfuel.
  destruct (algorithm_returns grid start end_ Hwf Href Hs He fuel) as [[[b L] st'] Hr].
  - apply enough_fuel_cells; assumption.
  - exists b, L, st'. exact Hr.
Qed.

Lemma search_terminates_witness :
  exists found path_length st',
    algorithm 1252 open_grid (0, 0) (4, 4) = Return (found, path_length, st').
Proof.
  apply (search_terminates open_grid (0, 0) (4, 4) 1252).
  - vm_compute. reflexivity.
  - vm_compute. reflexivity.
  - eexists. vm_compute. reflexivity.
  - eexists. vm_compute. reflexivity.
  - vm_compute. lia.
Defined.

(** When a route leads from start to end, the search answers [true]: it
    finds some route, though not always a shortest one (see
    [search_not_shortest] below). *)
Lemma search_finds_route (grid : Grid) (start end_ : ref) (fuel : nat) (l : list ref) :
  well_formed grid = true -> refreshed grid = true ->
  is_Some (node_at grid start) -> is_Some (node_at grid end_) ->
  is_route grid start l end_ = true ->
  (enough_fuel grid <= fuel)%nat ->
  exists path_length st',
    algorithm fuel grid start end_ = Return (true, path_length, st').
Proof.
  intros Hwf%well_formed_wf Href Hs He Hroute Hfuel.
  destruct (algorithm_returns grid start end_ Hwf Href Hs He fuel) as [[[b L] st'] Hr].
  { apply enough_fuel_cells; assumption. }
  rewrite (algorithm_finds grid start end_ Hwf Href Hs He fuel l b L st' Hroute Hr) in Hr.
  eauto.
Qed.

(** C2: when no route leads from start to end, the search returns, and it
    returns exactly [(false, 0)] with the frontier used up: the queue it
    leaves is empty and so is [open_set_hash]. *)
Theorem no_path_false_zero (grid : Grid) (start end_ : ref) (fuel : nat) :
  well_formed grid = true -> refreshed grid = true ->
  is_Some (node_at grid start) -> is_Some (node_at grid end_) ->
  (forall l, is_route grid start l end_ = false) ->
  (enough_fuel grid <= fuel)%nat ->
  exists st',
    algorithm fuel grid start end_ = Return (false, 0, st')
    /\ open_set st' = []
    /\ open_set_hash st' = ∅.
Proof.
  intros Hwf%well_formed_wf Href Hs He Hno Hfuel.
  destruct (algorithm_returns grid start end_ Hwf Href Hs He fuel) as [[[b L] st'] Hr].
  { apply enough_fuel_cells; assumption. }
  pose proof (algorithm_post grid start end_ Hwf Href Hs He fuel b L st' Hr) as Hpost.
  destruct b; simpl in Hpost.
  - destruct Hpost as (st1 & l & l' & _ & _ & Hroute & _).
    rewrite Hno in Hroute. discriminate.
  - destruct Hpost as (-> & (_ & _ & _ & Hop) & Hempty).
    exists st'. split; [exact Hr|]. split; [exact Hempty|].
    apply set_eq. intros p. rewrite (op_mem _ _ _ Hop), Hempty. simpl.
    rewrite elem_of_nil. split; [tauto | intros H; inversion H].
Qed.

Lemma enclosed_no_route (l : list ref) : is_route enclosed_grid (2, 2) l (4, 4) = false.
Proof.
  destruct l as [|x l]; [reflexivity|]. simpl.
  destruct (step enclosed_grid (2, 2) x) eqn:E; [|reflexivity].
  apply step_spec in E as [Hadj Hp]. apply elem_of_around in Hadj.
  unfold around in Hadj. simpl in Hadj.
  rewrite !elem_of_cons, elem_of_nil in Hadj.
  destruct Hadj as [->|[->|[->|[->|[]]]]]; vm_compute in Hp; discriminate.
Qed.

Lemma no_path_false_zero_witness :
  exists st',
    algorithm 1252 enclosed_grid (2, 2) (4, 4) = Return (false, 0, st')
    /\ open_set st' = []
    /\ open_set_hash st' = ∅.
Proof.
  apply (no_path_false_zero enclosed_grid (2, 2) (4, 4) 1252).
  - vm_compute. reflexivity.
  - vm_compute. reflexivity.
  - eexists. vm_compute. reflexivity.
  - eexists. vm_compute. reflexivity.
  - exact enclosed_no_route.
  - vm_compute. lia.
Defined.

(** The start cell in the corner, its two neighbours barriers. *)
Example corner_start_enclosed :
  (grid ← scene 5 [(0, 1); (1, 0)] (0, 0) (4, 4);
   Some (answer (algorithm (enough_fuel grid) grid (0, 0) (4, 4))))
  = Some (Return (false, 0)).
Proof. vm_compute. reflexivity. Qed.

(** C3: when the search answers [(true, path_length)], the walk back along
    [came_from] from end reaches start, the cells of the walk in forward
    order form a route from start to end, and [path_length] is the number of
    cells of that route, one more than its number of moves; on the open grid
    of five rows from [(0, 0)] to [(4, 4)] the answer is [(true, 9)]. *)
Theorem path_length_counts_cells :
  (forall (grid : Grid) (start end_ : ref) (fuel : nat) (path_length : Z) (st' : State),
     well_formed grid = true -> refreshed grid = true ->
     is_Some (node_at grid start) -> is_Some (node_at grid end_) ->
     algorithm fuel grid start end_ = Return (true, path_length, st') ->
     exists route,
       head route = Some start /\ last route = Some end_
       /\ is_route grid start (tail route) end_ = true
       /\ walk (came_from st') end_ (tail (rev route))
       /\ path_length = Z.of_nat (length route)
       /\ path_length = Z.of_nat (length (tail route)) + 1)
  /\ answer (algorithm 100 open_grid (0, 0) (4, 4)) = Return (true, 9).
Proof.
  split; [|vm_compute; reflexivity].
  intros grid start end_ fuel L st' Hwf%well_formed_wf Href Hs He Hr.
  pose proof (algorithm_post grid start end_ Hwf Href Hs He fuel true L st' Hr) as Hpost.
  destruct Hpost as (st1 & l & l' & Hw & Hrev & Hroute & _ & _ & -> & -> & _).
  exists (start :: l'). split; [reflexivity|].
  split; [eapply rev_route_last, Hrev|]. split; [exact Hroute|].
  split.
  { rewrite <- Hrev, rev_involutive. exact Hw. }
  pose proof (rev_route_length _ _ _ _ Hrev). simpl. split; lia.
Qed.

Lemma path_length_counts_cells_witness :
  exists route,
    head route = Some (0, 0) /\ last route = Some (0, 1)
    /\ is_route pair_grid (0, 0) (tail route) (0, 1) = true
    /\ walk (came_from pair_final) (0, 1) (tail (rev route))
    /\ 2 = Z.of_nat (length route)
    /\ 2 = Z.of_nat (length (tail route)) + 1.
Proof.
  apply (proj1 path_length_counts_cells pair_grid (0, 0) (0, 1) 10%nat 2 pair_final).
  - vm_compute. reflexivity.
  - vm_compute. reflexivity.
  - eexists. vm_compute. reflexivity.
  - eexists. vm_compute. reflexivity.
  - vm_compute. reflexivity.
Defined.

(** C9, as the claim states it, fails: it asks nothing of the start cell,
    and the search runs from a start cell that is a barrier as from any
    other: on [barrier_corner], refreshed, with the barrier [(0, 0)] as
    start, the search succeeds and leaves that cell with the start colour,
    a barrier no more. *)
Lemma barrier_start_repainted :
  well_formed barrier_corner = true
  /\ refreshed barrier_corner = true
  /\ is_barrier <$> node_at barrier_corner (0, 0) = Some true
  /\ exists st',
       algorithm 10 barrier_corner (0, 0) (0, 1) = Return (true, 2, st')
       /\ is_barrier <$> node_at (st_grid st') (0, 0) = Some false
       /\ is_start <$> node_at (st_grid st') (0, 0) = Some true.
Proof.
  split; [vm_compute; reflexivity|]. split; [vm_compute; reflexivity|].
  split; [vm_compute; reflexivity|].
  eexists. split; [vm_compute; reflexivity|]. split; vm_compute; reflexivity.
Qed.

(** C9 (amended): when the start cell is no barrier, the search changes no
    barrier cell and turns no cell into a barrier: in every frame it draws
    and in the grid it leaves, [is_barrier] answers for every cell what it
    answered before the search, and every barrier cell is exactly as it
    was. *)
Theorem barriers_untouched (grid : Grid) (start end_ : ref) (fuel : nat)
    (found : bool) (path_length : Z) (st' : State) :
  well_formed grid = true -> refreshed grid = true ->
  passable grid start = true -> is_Some (node_at grid end_) ->
  algorithm fuel grid start end_ = Return (found, path_length, st') ->
  forall g, g ∈ st_grid st' :: draws st' ->
    (forall p, is_barrier <$> node_at g p = is_barrier <$> node_at grid p)
    /\ (forall p nd, node_at grid p = Some nd -> is_barrier nd = true ->
          node_at g p = Some nd).
Proof.
  intros Hwf%well_formed_wf Href Hpass He Hr g Hg.
  assert (Hs : is_Some (node_at grid start)).
  { apply passable_spec in Hpass as (nd & Hnd & _). eauto. }
  pose proof (algorithm_post grid start end_ Hwf Href Hs He fuel _ _ _ Hr) as Hpost.
  apply recolored_barriers with (start := start); [exact Hpass|].
  assert (Hall : Forall (recolored grid start) (st_grid st' :: draws st')).
  { destruct found; simpl in Hpost.
    - destruct Hpost as (st1 & l & l' & _ & _ & _ & _ & _ & _ & _ & _ & H1 & H2).
      constructor; assumption.
    - destruct Hpost as (_ & (H1 & H2 & _) & _). constructor; assumption. }
  rewrite Forall_forall in Hall. apply Hall, Hg.
Qed.

Lemma barriers_untouched_witness :
  (forall p, is_barrier <$> node_at (st_grid detour_final) p
             = is_barrier <$> node_at detour_grid p)
  /\ (forall p nd, node_at detour_grid p = Some nd -> is_barrier nd = true ->
        node_at (st_grid detour_final) p = Some nd).
Proof.
  apply (barriers_untouched detour_grid (0, 0) (0, 2) 30 true 7 detour_final).
  - vm_compute. reflexivity.
  - vm_compute. reflexivity.
  - vm_compute. reflexivity.
  - eexists. vm_compute. reflexivity.
  - vm_compute. reflexivity.
  - left.
Defined.

(** C4, as the claim states it, fails: the walk back ends at the start cell,
    and [reconstruct_path] marks it as path like every other predecessor.
    With the [came_from] of the search on [pair_grid], the start cell
    [(0, 0)] has the path colour when [reconstruct_path] returns, and it has
    it in the last frame the search draws. *)
Lemma reconstruction_marks_start :
  exists g' fr,
    reconstruct_path 10 (came_from pair_final) (0, 1) pair_grid [] = Return (2, g', [g'])
    /\ is_start <$> node_at pair_grid (0, 0) = Some true
    /\ is_path <$> node_at g' (0, 0) = Some true
    /\ head (draws pair_final) = Some fr
    /\ is_path <$> node_at fr (0, 0) = Some true.
Proof.
  eexists. eexists. split; [vm_compute; reflexivity|].
  split; [vm_compute; reflexivity|]. split; [vm_compute; reflexivity|].
  split; [vm_compute; reflexivity|]. vm_compute. reflexivity.
Qed.

(** C4 (amended): on a successful search with distinct start and end,
    [reconstruct_path] assigns the path role to exactly the predecessors it
    visits when it walks [came_from] back from end: the intermediate cells of
    the route and, last, the start cell, and not the end cell.  The search
    then marks end as end and start as start again. *)
Theorem reconstruction_marks_predecessors (grid : Grid) (start end_ : ref)
    (fuel : nat) (path_length : Z) (st' : State) :
  well_formed grid = true -> refreshed grid = true ->
  is_Some (node_at grid start) -> is_Some (node_at grid end_) ->
  start <> end_ ->
  algorithm fuel grid start end_ = Return (true, path_length, st') ->
  exists g1 dr1 preds,
    (forall rfuel, (length preds < rfuel)%nat ->
       reconstruct_path rfuel (came_from st') end_ g1 dr1
       = Return (path_length, mark_path preds g1, draws st'))
    /\ walk (came_from st') end_ preds
    /\ last preds = Some start
    /\ (end_ ∉ preds)
    /\ (forall p, node_at (mark_path preds g1) p =
          if decide (p ∈ preds) then make_path <$> node_at g1 p else node_at g1 p)
    /\ st_grid st' =
       update_node (update_node (mark_path preds g1) end_ make_end) start make_start.
Proof.
  intros Hwf%well_formed_wf Href Hs He Hne Hr.
  pose proof (algorithm_post grid start end_ Hwf Href Hs He fuel true _ st' Hr) as Hpost.
  destruct Hpost as (st1 & l & l' & Hw & Hrev & _ & Hnot & _ & -> & -> & _).
  exists (st_grid st1), (draws st1), l. simpl.
  split.
  { intros rfuel Hlen. unfold reconstruct_path.
    rewrite (reconstruct_loop_walk _ _ _ Hw) by exact Hlen. reflexivity. }
  split; [exact Hw|]. split; [eapply rev_route_start; eassumption|].
  split; [intros Hin; apply (Hnot _ Hin); reflexivity|].
  split; [apply node_at_mark_path | reflexivity].
Qed.

Lemma reconstruction_marks_predecessors_witness :
  exists g1 dr1 preds,
    (forall rfuel, (length preds < rfuel)%nat ->
       reconstruct_path rfuel (came_from pair_final) (0, 1) g1 dr1
       = Return (2, mark_path preds g1, draws pair_final))
    /\ walk (came_from pair_final) (0, 1) preds
    /\ last preds = Some (0, 0)
    /\ ((0, 1) ∉ preds)
    /\ (forall p, node_at (mark_path preds g1) p =
          if decide (p ∈ preds) then make_path <$> node_at g1 p else node_at g1 p)
    /\ st_grid pair_final =
       update_node (update_node (mark_path preds g1) (0, 1) make_end) (0, 0) make_start.
Proof.
  apply (reconstruction_marks_predecessors pair_grid (0, 0) (0, 1) 10 2 pair_final).
  - vm_compute. reflexivity.
  - vm_compute. reflexivity.
  - eexists. vm_compute. reflexivity.
  - eexists. vm_compute. reflexivity.
  - discriminate.
  - vm_compute. reflexivity.
Defined.

(** C8, as the claim states it, fails: on the open grid the start cell enters
    the frontier with priority [(0, 0)] while [f_score[start]] is 8. *)
Lemma start_priority_is_zero :
  exists st,
    init open_grid (0, 0) (4, 4) = Some st
    /\ f_score st !! (0, 0) = Some (Fin 8)
    /\ open_set st = [(Fin 0, 0, (0, 0))]
    /\ open_set st <> [(Fin 8, 0, (0, 0))].
Proof.
  eexists. split; [vm_compute; reflexivity|].
  split; [vm_compute; reflexivity|]. split; [vm_compute; reflexivity|].
  vm_compute. discriminate.
Qed.

(** C8 (amended): before the loop the frontier holds the start cell alone,
    with priority [(0, 0)]; the membership set holds the start cell;
    [g_score[start]] is 0 and [f_score[start]] is the Manhattan distance from
    start to end. *)
Theorem init_frontier (grid : Grid) (start end_ : ref) (snode enode : Node) :
  node_at grid start = Some snode -> node_at grid end_ = Some enode ->
  exists st,
    init grid start end_ = Some st
    /\ open_set st = [(Fin 0, 0, start)]
    /\ open_set_hash st = {[start]}
    /\ count st = 0
    /\ came_from st = ∅
    /\ g_score st !! start = Some (Fin 0)
    /\ f_score st !! start = Some (Fin (heuristic (get_pos snode) (get_pos enode)))
    /\ heuristic (get_pos snode) (get_pos enode)
       = Z.abs (row snode - row enode) + Z.abs (col snode - col enode).
Proof.
  intros Hs He. unfold init. rewrite Hs. cbn -[heuristic]. rewrite He. cbn -[heuristic].
  eexists. split; [reflexivity|]. cbn -[heuristic].
  repeat split; try reflexivity; apply lookup_insert_eq.
Qed.

Lemma init_frontier_witness :
  exists st,
    init open_grid (0, 0) (4, 4) = Some st
    /\ open_set st = [(Fin 0, 0, (0, 0))]
    /\ open_set_hash st = {[(0, 0)]}
    /\ count st = 0
    /\ came_from st = ∅
    /\ g_score st !! (0, 0) = Some (Fin 0)
    /\ f_score st !! (0, 0)
       = Some (Fin (heuristic (get_pos (mkNode 0 0 160 5 Color.START [(1, 0); (0, 1)]))
                      (get_pos (mkNode 4 4 160 5 Color.END [(3, 4); (4, 3)]))))
    /\ heuristic (get_pos (mkNode 0 0 160 5 Color.START [(1, 0); (0, 1)]))
         (get_pos (mkNode 4 4 160 5 Color.END [(3, 4); (4, 3)]))
       = Z.abs (row (mkNode 0 0 160 5 Color.START [(1, 0); (0, 1)])
                - row (mkNode 4 4 160 5 Color.END [(3, 4); (4, 3)]))
         + Z.abs (col (mkNode 0 0 160 5 Color.START [(1, 0); (0, 1)])
                  - col (mkNode 4 4 160 5 Color.END [(3, 4); (4, 3)])).
Proof.
  apply (init_frontier open_grid (0, 0) (4, 4)); vm_compute; reflexivity.
Defined.

(** ** A search that misses the shortest route *)

(** C1 fails on the code: on [maze] the search answers [(true, 16)], a
    route of 16 cells, while [short_route] is a route from start to end with
    14 cells.  The grid is well formed, its neighbour lists are refreshed,
    start and end are distinct. *)
Theorem search_not_shortest :
  well_formed maze = true
  /\ refreshed maze = true
  /\ answer (algorithm (enough_fuel maze) maze (1, 8) (0, 0)) = Return (true, 16)
  /\ is_route maze (1, 8) short_route (0, 0) = true
  /\ Z.of_nat (length short_route) + 1 = 14.
Proof.
  split; [vm_compute; reflexivity|]. split; [vm_compute; reflexivity|].
  split; [vm_compute; reflexivity|]. split; [vm_compute; reflexivity|].
  reflexivity.
Qed.

(** The same on the grid of fifty rows. *)
Example search_not_shortest_50 :
  (grid ← scene 50 maze_barriers_50 (1, 8) (0, 0);
   Some (well_formed grid, refreshed grid,
         answer (algorithm 200 grid (1, 8) (0, 0)),
         is_route grid (1, 8) short_route (0, 0)))
  = Some (true, true, Return (true, 16), true).
Proof. vm_compute. reflexivity. Qed.

(** ** The heuristic *)

(** X1: the heuristic is a metric on positions: it is never negative, it is
    zero exactly for equal positions, it is symmetric and it obeys the
    triangle inequality. *)
Theorem heuristic_metric (p q r : Z * Z) :
  0 <= heuristic p q
  /\ (heuristic p q = 0 <-> p = q)
  /\ heuristic p q = heuristic q p
  /\ heuristic p r <= heuristic p q + heuristic q r.
Proof.
  destruct p as [a b], q as [c d], r as [e f]. unfold heuristic.
  split; [lia|]. split; [|split; lia].
  split.
  - intros H. f_equal; lia.
  - intros [= -> ->]. lia.
Qed.

Lemma heuristic_step (grid : Grid) (p x q : ref) :
  step grid p x = true -> heuristic p q <= heuristic x q + 1.
Proof.
  intros [Hadj _]%step_spec. unfold adjacent in Hadj.
  destruct p as [a b], x as [c d], q as [e f]. unfold heuristic. simpl in Hadj. lia.
Qed.

(** Along a route the heuristic to any target drops by at most one per
    move. *)
Lemma heuristic_route (grid : Grid) (e : ref) (l : list ref) :
  forall p q, is_route grid p l q = true ->
    heuristic p e <= heuristic q e + Z.of_nat (length l).
Proof.
  induction l as [|x l IH]; intros p q; simpl.
  - intros ->%ref_eqb_eq. lia.
  - intros [Hs Hr]%andb_true_iff.
    pose proof (heuristic_step grid p x e Hs). specialize (IH x q Hr). lia.
Qed.

(** X2: the heuristic is admissible: it never exceeds the number of moves
    of a route between the two positions, whatever the barriers. *)
Theorem heuristic_admissible (grid : Grid) (p q : ref) (l : list ref) :
  is_route grid p l q = true -> heuristic p q <= Z.of_nat (length l).
Proof.
  intros Hr. pose proof (heuristic_route grid q l p q Hr) as H.
  assert (heuristic q q = 0) as H0 by (destruct q; unfold heuristic; lia).
  lia.
Qed.

Lemma heuristic_admissible_witness :
  heuristic (1, 8) (0, 0) <= Z.of_nat (length short_route).
Proof.
  apply (heuristic_admissible maze (1, 8) (0, 0) short_route).
  vm_compute. reflexivity.
Defined.

(** ** More on the search *)

Lemma recolored_reset (grid : Grid) (start : ref) (g : Grid) (p : ref) :
  recolored grid start g -> reset <$> node_at g p = reset <$> node_at grid p.
Proof.
  intros Hrec. specialize (Hrec p). destruct (node_at grid p) as [nd0|].
  - destruct Hrec as (c & -> & _). reflexivity.
  - rewrite Hrec. reflexivity.
Qed.

Lemma post_recolored (grid : Grid) (start end_ : ref) (b : bool) (L : Z) (st' : State) :
  Post grid start end_ b L st' ->
  Forall (recolored grid start) (st_grid st' :: draws st').
Proof.
  destruct b; simpl.
  - intros (st1 & l & l' & _ & _ & _ & _ & _ & _ & _ & _ & H1 & H2).
    constructor; assumption.
  - intros (_ & (H1 & H2 & _) & _). constructor; assumption.
Qed.

(** X3: with enough fuel the search answers [true] exactly when a route
    leads from start to end. *)
Theorem search_found_iff_route (grid : Grid) (start end_ : ref) (fuel : nat) :
  well_formed grid = true -> refreshed grid = true ->
  is_Some (node_at grid start) -> is_Some (node_at grid end_) ->
  (enough_fuel grid <= fuel)%nat ->
  exists found path_length st',
    algorithm fuel grid start end_ = Return (found, path_length, st')
    /\ (found = true <-> exists l, is_route grid start l end_ = true).
Proof.
  intros Hwf%well_formed_wf Href Hs He Hfuel.
  destruct (algorithm_returns grid start end_ Hwf Href Hs He fuel) as [[[b L] st'] Hr].
  { apply enough_fuel_cells; assumption. }
  exists b, L, st'. split; [exact Hr|]. split.
  - intros ->.
    pose proof (algorithm_post grid start end_ Hwf Href Hs He fuel _ _ _ Hr) as Hpost.
    destruct Hpost as (st1 & l & l' & _ & _ & Hroute & _). eauto.
  - intros [l Hl].
    apply (algorithm_finds grid start end_ Hwf Href Hs He fuel l b L st' Hl Hr).
Qed.

Lemma search_found_iff_route_witness :
  exists found path_length st',
    algorithm 1252 enclosed_grid (2, 2) (4, 4) = Return (found, path_length, st')
    /\ (found = true <-> exists l, is_route enclosed_grid (2, 2) l (4, 4) = true).
Proof.
  apply (search_found_iff_route enclosed_grid (2, 2) (4, 4) 1252).
  - vm_compute. reflexivity.
  - vm_compute. reflexivity.
  - eexists. vm_compute. reflexivity.
  - eexists. vm_compute. reflexivity.
  - vm_compute. lia.
Defined.

(** X4: the search changes nothing but colours: in every frame it draws and
    in the grid it leaves, every cell has the position, width, grid size and
    neighbour list it had before, and no cell is added or lost. *)
Theorem search_changes_colors_only (grid : Grid) (start end_ : ref) (fuel : nat)
    (found : bool) (path_length : Z) (st' : State) :
  well_formed grid = true -> refreshed grid = true ->
  is_Some (node_at grid start) -> is_Some (node_at grid end_) ->
  algorithm fuel grid start end_ = Return (found, path_length, st') ->
  forall g, g ∈ st_grid st' :: draws st' ->
    forall p,
      (fun nd => (row nd, col nd, width nd, total_rows nd, neighbors nd)) <$> node_at g p
      = (fun nd => (row nd, col nd, width nd, total_rows nd, neighbors nd)) <$> node_at grid p.
Proof.
  intros Hwf%well_formed_wf Href Hs He Hr g Hg p.
  pose proof (algorithm_post grid start end_ Hwf Href Hs He fuel _ _ _ Hr) as Hpost.
  apply post_recolored in Hpost. rewrite Forall_forall in Hpost.
  pose proof (recolored_reset grid start g p (Hpost g Hg)) as Hreset.
  destruct (node_at g p) as [nd|], (node_at grid p) as [nd0|]; try discriminate;
    [|reflexivity].
  simpl in *. injection Hreset as H1 H2 H3 H4 H5. congruence.
Qed.

Lemma search_changes_colors_only_witness :
  (fun nd => (row nd, col nd, width nd, total_rows nd, neighbors nd))
    <$> node_at (st_grid pair_final) (0, 1)
  = (fun nd => (row nd, col nd, width nd, total_rows nd, neighbors nd))
    <$> node_at pair_grid (0, 1).
Proof.
  apply (search_changes_colors_only pair_grid (0, 0) (0, 1) 10 true 2 pair_final).
  - vm_compute. reflexivity.
  - vm_compute. reflexivity.
  - eexists. vm_compute. reflexivity.
  - eexists. vm_compute. reflexivity.
  - vm_compute. reflexivity.
  - left.
Defined.

(** X5: a successful search returns a length between the Manhattan distance
    plus one and the number of cells of the grid. *)
Theorem path_length_bounds (grid : Grid) (start end_ : ref) (fuel : nat)
    (path_length : Z) (st' : State) :
  well_formed grid = true -> refreshed grid = true ->
  is_Some (node_at grid start) -> is_Some (node_at grid end_) ->
  algorithm fuel grid start end_ = Return (true, path_length, st') ->
  heuristic start end_ + 1 <= path_length <= Z.of_nat (length (all_refs grid)).
Proof.
  intros Hwf%well_formed_wf Href Hs He Hr.
  pose proof (algorithm_post grid start end_ Hwf Href Hs He fuel _ _ _ Hr) as Hpost.
  destruct Hpost as (st1 & l & l' & _ & Hrev & Hroute & _ & Hlen & -> & _).
  pose proof (heuristic_route grid end_ l' start end_ Hroute) as Hh.
  assert (heuristic end_ end_ = 0) as H0 by (destruct end_; unfold heuristic; lia).
  pose proof (rev_route_length _ _ _ _ Hrev) as Hl.
  pose proof (cells_of_bounds grid start Hs) as Hb. lia.
Qed.

Lemma path_length_bounds_witness :
  heuristic (0, 0) (0, 1) + 1 <= 2 <= Z.of_nat (length (all_refs pair_grid)).
Proof.
  apply (path_length_bounds pair_grid (0, 0) (0, 1) 10 2 pair_final).
  - vm_compute. reflexivity.
  - vm_compute. reflexivity.
  - eexists. vm_compute. reflexivity.
  - eexists. vm_compute. reflexivity.
  - vm_compute. reflexivity.
Defined.

Lemma is_Some_mark_path (l : list ref) (g : Grid) (p : ref) :
  is_Some (node_at g p) -> is_Some (node_at (mark_path l g) p).
Proof.
  intros [nd Hnd]. rewrite node_at_mark_path, Hnd.
  destruct (decide (p ∈ l)); simpl; eauto.
Qed.

Lemma is_route_cells (grid : Grid) (l : list ref) :
  forall p q x, is_route grid p l q = true -> x ∈ l -> passable grid x = true.
Proof.
  induction l as [|y l IH]; intros p q x; simpl; [intros _ H; inversion H|].
  intros [Hs Hr]%andb_true_iff [->|Hx]%elem_of_cons.
  - apply step_spec in Hs. tauto.
  - eapply IH; eassumption.
Qed.

(** X6: after a successful search with distinct start and end, the start
    cell has the start colour, the end cell the end colour, and every other
    cell met on the walk back from end has the path colour. *)
Theorem search_marks_route (grid : Grid) (start end_ : ref) (fuel : nat)
    (path_length : Z) (st' : State) :
  well_formed grid = true -> refreshed grid = true ->
  is_Some (node_at grid start) -> is_Some (node_at grid end_) ->
  start <> end_ ->
  algorithm fuel grid start end_ = Return (true, path_length, st') ->
  exists preds,
    walk (came_from st') end_ preds
    /\ is_start <$> node_at (st_grid st') start = Some true
    /\ is_end <$> node_at (st_grid st') end_ = Some true
    /\ forall p, p ∈ preds -> p <> start ->
         is_path <$> node_at (st_grid st') p = Some true.
Proof.
  intros Hwf%well_formed_wf Href Hs He Hne Hr.
  pose proof (algorithm_post grid start end_ Hwf Href Hs He fuel _ _ _ Hr) as Hpost.
  destruct Hpost as (st1 & l & l' & Hw & Hrev & Hroute & Hnot & _ & _ & -> & Hg1 & _).
  exists l. split; [exact Hw|]. simpl.
  assert (Hvalid : forall p, is_Some (node_at grid p) ->
            is_Some (node_at (mark_path l (st_grid st1)) p)).
  { intros p Hp. apply is_Some_mark_path. eapply recolored_Some; eassumption. }
  split; [|split].
  - rewrite node_at_update_node, decide_True by reflexivity.
    rewrite node_at_update_node, decide_False by congruence.
    destruct (Hvalid start Hs) as [nd ->]. reflexivity.
  - rewrite node_at_update_node, decide_False by exact Hne.
    rewrite node_at_update_node, decide_True by reflexivity.
    destruct (Hvalid end_ He) as [nd ->]. reflexivity.
  - intros p Hp Hps.
    assert (Hpe : p <> end_) by (apply Hnot, Hp).
    rewrite node_at_update_node, decide_False by congruence.
    rewrite node_at_update_node, decide_False by congruence.
    rewrite node_at_mark_path, decide_True by exact Hp.
    assert (Hpv : is_Some (node_at grid p)).
    { assert (Hin : p ∈ start :: l').
      { rewrite <- Hrev. apply list_elem_of_In, in_rev. rewrite rev_involutive.
        apply list_elem_of_In. right. exact Hp. }
      apply elem_of_cons in Hin as [->|Hin]; [congruence|].
      pose proof (is_route_cells grid l' start end_ p Hroute Hin) as Hpass.
      apply passable_spec in Hpass as (nd & Hnd & _). eauto. }
    destruct (recolored_Some _ _ _ _ Hg1 Hpv) as [nd ->]. reflexivity.
Qed.

Lemma search_marks_route_witness :
  exists preds,
    walk (came_from pair_final) (0, 1) preds
    /\ is_start <$> node_at (st_grid pair_final) (0, 0) = Some true
    /\ is_end <$> node_at (st_grid pair_final) (0, 1) = Some true
    /\ forall p, p ∈ preds -> p <> (0, 0) ->
         is_path <$> node_at (st_grid pair_final) p = Some true.
Proof.
  apply (search_marks_route pair_grid (0, 0) (0, 1) 10 2 pair_final).
  - vm_compute. reflexivity.
  - vm_compute. reflexivity.
  - eexists. vm_compute. reflexivity.
  - eexists. vm_compute. reflexivity.
  - discriminate.
  - vm_compute. reflexivity.
Defined.

(** X7: called on a well-formed grid with the end cell equal to the start
    cell, the search answers [(true, 1)] in its first pass: it expands
    nothing, draws nothing, records no predecessor, and leaves the cell with
    the start colour, the rest of the grid as it was. *)
Theorem search_start_is_end (grid : Grid) (start : ref) (fuel : nat) :
  well_formed grid = true ->
  is_Some (node_at grid start) ->
  exists st',
    algorithm (S fuel) grid start start = Return (true, 1, st')
    /\ st_grid st' = update_node (update_node grid start make_end) start make_start
    /\ is_start <$> node_at (st_grid st') start = Some true
    /\ (forall p, p <> start -> node_at (st_grid st') p = node_at grid p)
    /\ draws st' = []
    /\ came_from st' = ∅.
Proof.
  intros _ [snode Hs]. unfold algorithm, init. rewrite Hs. cbn -[heuristic].
  rewrite decide_True by (apply elem_of_singleton; reflexivity).
  rewrite ref_eqb_refl. unfold finish, reconstruct_path. cbn -[heuristic].
  rewrite lookup_empty. eexists. split; [reflexivity|]. cbn -[heuristic].
  split; [reflexivity|]. split; [|split; [|split; reflexivity]].
  - rewrite node_at_update_node, decide_True by reflexivity.
    rewrite node_at_update_node, decide_True by reflexivity.
    rewrite Hs. reflexivity.
  - intros p Hp. rewrite !node_at_update_node, !decide_False by congruence.
    reflexivity.
Qed.

Lemma search_start_is_end_witness :
  exists st',
    algorithm 1 open_grid (2, 3) (2, 3) = Return (true, 1, st')
    /\ st_grid st' = update_node (update_node open_grid (2, 3) make_end) (2, 3) make_start
    /\ is_start <$> node_at (st_grid st') (2, 3) = Some true
    /\ (forall p, p <> (2, 3) -> node_at (st_grid st') p = node_at open_grid p)
    /\ draws st' = []
    /\ came_from st' = ∅.
Proof.
  apply (search_start_is_end open_grid (2, 3) 0).
  - vm_compute. reflexivity.
  - eexists. vm_compute. reflexivity.
Defined.

(** ** More on [reconstruct_path] *)

Lemma reconstruct_loop_no_raise (cf : gmap (Z * Z) (Z * Z)) (fuel : nat) :
  forall current n grid dr, reconstruct_loop fuel cf current n grid dr <> Raise.
Proof.
  induction fuel as [|fuel IH]; intros current n grid dr; simpl; [discriminate|].
  destruct (cf !! current); [apply IH | discriminate].
Qed.

Lemma walk_self_loop (cf : gmap (Z * Z) (Z * Z)) (p : ref) (l : list ref) :
  cf !! p = Some p -> ~ walk cf p l.
Proof.
  intros Hp. induction l as [|q l IH]; intros Hw; inversion Hw; subst.
  - congruence.
  - assert (q = p) as -> by congruence. apply IH. assumption.
Qed.

(** X8: for cells of one well-formed grid (so that no two of them are
    equal), [reconstruct_path] returns exactly when the chain of
    predecessors from [current] ends; it then returns one plus the length of
    the chain, for every fuel above that length; it never raises; and when
    the chain does not end (it runs into a cycle) it returns for no fuel. *)
Theorem reconstruct_path_returns_iff (cf : gmap (Z * Z) (Z * Z)) (current : ref)
    (grid : Grid) (dr : list Grid) :
  well_formed grid = true ->
  is_Some (node_at grid current) ->
  map_Forall (fun p q => is_Some (node_at grid p) /\ is_Some (node_at grid q)) cf ->
  ((exists fuel r, reconstruct_path fuel cf current grid dr = Return r)
   <-> exists l, walk cf current l)
  /\ (forall fuel, reconstruct_path fuel cf current grid dr <> Raise)
  /\ (forall fuel l, walk cf current l ->
        reconstruct_path fuel cf current grid dr =
        if decide (length l < fuel)%nat
        then Return (1 + Z.of_nat (length l), mark_path l grid, path_frames l grid dr)
        else OutOfFuel)
  /\ ((forall l, ~ walk cf current l) ->
      forall fuel, reconstruct_path fuel cf current grid dr = OutOfFuel).
Proof.
  intros _ _ _. unfold reconstruct_path. split; [|split; [|split]].
  - split.
    + intros (fuel & r & Hr).
      destruct (reconstruct_loop_inv _ _ _ _ _ _ _ Hr) as (l & Hw & _). eauto.
    + intros [l Hw]. exists (S (length l)). eexists.
      apply (reconstruct_loop_walk _ _ _ Hw). lia.
  - intros fuel. apply reconstruct_loop_no_raise.
  - intros fuel l Hw. destruct (decide (length l < fuel)%nat) as [Hlt|Hge].
    + apply (reconstruct_loop_walk _ _ _ Hw). exact Hlt.
    + destruct (reconstruct_loop fuel cf current 1 grid dr) as [r| |] eqn:E.
      * destruct (reconstruct_loop_inv _ _ _ _ _ _ _ E) as (l0 & Hw0 & Hlen).
        rewrite (walk_functional _ _ _ _ Hw0 Hw) in Hlen. contradiction.
      * exfalso. exact (reconstruct_loop_no_raise _ _ _ _ _ _ E).
      * reflexivity.
  - intros Hno fuel.
    destruct (reconstruct_loop fuel cf current 1 grid dr) as [r| |] eqn:E.
    + destruct (reconstruct_loop_inv _ _ _ _ _ _ _ E) as (l0 & Hw0 & _).
      exfalso. exact (Hno l0 Hw0).
    + exfalso. exact (reconstruct_loop_no_raise _ _ _ _ _ _ E).
    + reflexivity.
Qed.

Lemma reconstruct_path_returns_iff_witness :
  (forall fuel,
     reconstruct_path fuel {[ (0, 0) := (0, 0) ]} (0, 0) pair_grid [] = OutOfFuel)
  /\ reconstruct_path 2 (came_from pair_final) (0, 1) pair_grid []
     = (if decide (length [(0%Z, 0%Z)] < 2)%nat
        then Return (1 + Z.of_nat (length [(0, 0)]), mark_path [(0, 0)] pair_grid,
                     path_frames [(0, 0)] pair_grid [])
        else OutOfFuel).
Proof.
  split.
  - apply (reconstruct_path_returns_iff {[ (0, 0) := (0, 0) ]} (0, 0) pair_grid []).
    + vm_compute. reflexivity.
    + eexists. vm_compute. reflexivity.
    + apply map_Forall_singleton. split; eexists; vm_compute; reflexivity.
    + intros l. apply walk_self_loop. reflexivity.
  - apply (fun H1 H2 H3 => proj1 (proj2 (proj2
      (reconstruct_path_returns_iff (came_from pair_final) (0, 1) pair_grid []
         H1 H2 H3)))).
    + vm_compute. reflexivity.
    + eexists. vm_compute. reflexivity.
    + apply (bool_decide_unpack _). vm_compute. exact I.
    + apply walk_back with (q := (0, 0)); [vm_compute; reflexivity|].
      apply walk_stop. vm_compute. reflexivity.
Defined.

(** ** Roles *)

(** X9: a cell answers [true] to at most one of the five role queries, and
    each [make_...] method gives the cell the role it names and no other;
    [reset] and [make_path] leave it with none of the five. *)
Theorem roles_exclusive (n : Node) :
  (length (List.filter (fun b : bool => b)
             [is_closed n; is_open n; is_barrier n; is_start n; is_end n]) <= 1)%nat
  /\ (fun m => [is_closed (m n); is_open (m n); is_barrier (m n); is_start (m n);
               is_end (m n)])
       <$> [make_closed; make_open; make_barrier; make_start; make_end; make_path; reset]
     = [[true; false; false; false; false];
        [false; true; false; false; false];
        [false; false; true; false; false];
        [false; false; false; true; false];
        [false; false; false; false; true];
        [false; false; false; false; false];
        [false; false; false; false; false]].
Proof.
  split; [|reflexivity].
  unfold is_closed, is_open, is_barrier, is_start, is_end.
  destruct (rgb_eqb (color n) Color.CLOSED) eqn:E1;
    destruct (rgb_eqb (color n) Color.OPEN) eqn:E2;
    destruct (rgb_eqb (color n) Color.BARRIER) eqn:E3;
    destruct (rgb_eqb (color n) Color.START) eqn:E4;
    destruct (rgb_eqb (color n) Color.END) eqn:E5;
    simpl; try lia; exfalso;
    repeat match goal with
           | H : rgb_eqb _ _ = true |- _ => apply rgb_eqb_eq in H
           | H : rgb_eqb _ _ = false |- _ => clear H
           end;
    unfold Color.CLOSED, Color.OPEN, Color.BARRIER, Color.START, Color.END in *;
    congruence.
Qed.

(** ** [make_grid] *)

Lemma wf_well_formed (grid : Grid) : wf grid -> well_formed grid = true.
Proof.
  intros [Hshape Hcells]. unfold well_formed.
  apply andb_true_iff. split; apply forallb_forall.
  - intros rowl Hin. apply Nat.eqb_eq.
    rewrite Forall_forall in Hshape. apply Hshape, list_elem_of_In, Hin.
  - intros p Hin. apply list_elem_of_In, elem_of_all_refs in Hin as [nd Hnd].
    unfold cell_ok. rewrite Hnd. destruct (Hcells _ _ Hnd) as (-> & -> & ->).
    rewrite !Z.eqb_refl. reflexivity.
Qed.

Lemma node_at_matrix (f : Z -> Z -> Node) (rows : Z) (p : ref) :
  node_at ((fun i => (fun j => f i j) <$> seqZ 0 rows) <$> seqZ 0 rows) p
  = if decide (0 <= p.1 < rows /\ 0 <= p.2 < rows) then Some (f p.1 p.2) else None.
Proof.
  unfold node_at. destruct p as [i j]. simpl.
  destruct (0 <=? i) eqn:Hi, (0 <=? j) eqn:Hj; simpl;
    try (apply Z.leb_gt in Hi); try (apply Z.leb_gt in Hj);
    try (rewrite decide_False by lia; reflexivity).
  apply Z.leb_le in Hi, Hj. rewrite list_lookup_fmap.
  destruct (decide (i < rows)) as [Hir|Hir].
  - rewrite lookup_seqZ_lt by lia. simpl. rewrite list_lookup_fmap.
    destruct (decide (j < rows)) as [Hjr|Hjr].
    + rewrite lookup_seqZ_lt by lia. simpl. rewrite decide_True by lia.
      do 2 f_equal; lia.
    + rewrite lookup_seqZ_ge by lia. simpl. rewrite decide_False by lia. reflexivity.
  - rewrite lookup_seqZ_ge by lia. simpl. rewrite decide_False by lia. reflexivity.
Qed.

Lemma make_grid_cells (rows width : Z) :
  rows <> 0 ->
  exists grid,
    make_grid rows width = Some grid
    /\ wf grid
    /\ length grid = Z.to_nat rows
    /\ forall p, node_at grid p =
         if decide (0 <= p.1 < rows /\ 0 <= p.2 < rows)
         then Some (mkNode p.1 p.2 (width / rows) rows Color.WHITE [])
         else None.
Proof.
  intros Hrows. unfold make_grid.
  rewrite (proj2 (Z.eqb_neq rows 0) Hrows). eexists. split; [reflexivity|].
  set (grid := (fun i => (fun j => Node_new i j (width / rows) rows) <$> seqZ 0 rows)
                 <$> seqZ 0 rows).
  assert (Hlen : length grid = Z.to_nat rows).
  { unfold grid. rewrite length_fmap, length_seqZ. reflexivity. }
  assert (Hat : forall p, node_at grid p =
            if decide (0 <= p.1 < rows /\ 0 <= p.2 < rows)
            then Some (mkNode p.1 p.2 (width / rows) rows Color.WHITE [])
            else None).
  { intros p. unfold grid.
    apply (node_at_matrix (fun i j => Node_new i j (width / rows) rows)). }
  split; [|split; [exact Hlen | exact Hat]].
  split.
  - apply Forall_forall. intros rowl Hin. unfold grid in Hin.
    apply list_elem_of_fmap in Hin as (i & -> & _).
    rewrite length_fmap, length_seqZ. symmetry. exact Hlen.
  - intros p nd. rewrite Hat. case_decide as Hb; [|discriminate].
    intros [= <-]. simpl. rewrite Hlen. repeat split. lia.
Qed.

(** X10: [make_grid] raises for zero rows; otherwise it builds a
    well-formed grid of [rows] rows in which the cell at [(i, j)] is a white
    cell that knows its position, has width [width // rows] and an empty
    neighbour list; for a negative [rows] the grid is empty. *)
Theorem make_grid_spec (rows width : Z) :
  make_grid 0 width = None
  /\ (rows <> 0 ->
      exists grid,
        make_grid rows width = Some grid
        /\ well_formed grid = true
        /\ length grid = Z.to_nat rows
        /\ forall p, node_at grid p =
             if decide (0 <= p.1 < rows /\ 0 <= p.2 < rows)
             then Some (mkNode p.1 p.2 (width / rows) rows Color.WHITE [])
             else None).
Proof.
  split; [reflexivity|]. intros Hrows.
  destruct (make_grid_cells rows width Hrows) as (grid & Hrun & Hwf & Hlen & Hat).
  exists grid. split; [exact Hrun|]. split; [apply wf_well_formed, Hwf|].
  split; [exact Hlen | exact Hat].
Qed.

Lemma make_grid_spec_witness :
  exists grid,
    make_grid 3 800 = Some grid
    /\ well_formed grid = true
    /\ length grid = Z.to_nat 3
    /\ forall p, node_at grid p =
         if decide (0 <= p.1 < 3 /\ 0 <= p.2 < 3)
         then Some (mkNode p.1 p.2 (800 / 3) 3 Color.WHITE [])
         else None.
Proof.
  apply (proj2 (make_grid_spec 3 800)). discriminate.
Defined.

(** ** Refreshing establishes what the search needs *)

Lemma refreshed_intro (g : Grid) :
  wf g ->
  (forall p nd, node_at g p = Some nd ->
     neighbors nd = List.filter (passable g) (around p)) ->
  refreshed g = true.
Proof.
  intros Hwf Hnb. unfold refreshed. apply forallb_forall. intros p Hin.
  apply list_elem_of_In, elem_of_all_refs in Hin as [nd Hnd].
  unfold cache_ok. rewrite Hnd, (update_neighbors_filter g p nd Hwf Hnd).
  apply refs_eqb_eq. simpl. apply Hnb, Hnd.
Qed.

(** X11: the double loop of [main] that refreshes every cell succeeds on a
    well-formed grid; the grid it leaves is well formed and has every
    neighbour list up to date, the colours (so the barrier layout) are as
    before, and refreshing once more changes no cell. *)
Theorem refresh_all_establishes (grid : Grid) :
  well_formed grid = true ->
  exists g',
    refresh_all grid = Some g'
    /\ well_formed g' = true
    /\ refreshed g' = true
    /\ (forall p, color <$> node_at g' p = color <$> node_at grid p)
    /\ exists g'', refresh_all g' = Some g'' /\ forall p, node_at g'' p = node_at g' p.
Proof.
  intros Hwf%well_formed_wf.
  destruct (refresh_all_spec grid Hwf) as (g' & Hrun & Hsame & Hcells).
  pose proof Hsame as [Hwf' _].
  assert (Hnb : forall p nd, node_at g' p = Some nd ->
            neighbors nd = List.filter (passable g') (around p)).
  { intros p nd. rewrite Hcells. destruct (node_at grid p) as [nd0|]; [|discriminate].
    intros [= <-]. unfold fresh, set_neighbors. cbn [neighbors].
    apply filter_ext. intros q. symmetry. apply same_cells_passable, Hsame. }
  exists g'. split; [exact Hrun|]. split; [apply wf_well_formed, Hwf'|].
  split; [apply refreshed_intro; assumption|]. split.
  - intros p. rewrite Hcells. destruct (node_at grid p); reflexivity.
  - destruct (refresh_all_spec g' Hwf') as (g'' & Hrun' & _ & Hcells').
    exists g''. split; [exact Hrun'|]. intros p. rewrite Hcells'.
    destruct (node_at g' p) as [nd|] eqn:Hnd; [|reflexivity].
    simpl. f_equal. unfold fresh. rewrite <- (Hnb p nd Hnd). destruct nd; reflexivity.
Qed.

Lemma refresh_all_establishes_witness :
  exists g',
    refresh_all corner_grid = Some g'
    /\ well_formed g' = true
    /\ refreshed g' = true
    /\ (forall p, color <$> node_at g' p = color <$> node_at corner_grid p)
    /\ exists g'', refresh_all g' = Some g'' /\ forall p, node_at g'' p = node_at g' p.
Proof.
  apply (refresh_all_establishes corner_grid). vm_compute. reflexivity.
Defined.

(** ** [get_clicked_pos] *)

(** X12: [get_clicked_pos] raises exactly when [rows] is zero or the cell
    width [width // rows] is zero; otherwise the row and column it returns
    are those of the square of side [gap] that contains the pixel, so they
    lie in the grid exactly when the pixel lies in the first [rows * gap]
    pixels. *)
Theorem get_clicked_pos_spec (y x rows width : Z) :
  (get_clicked_pos (y, x) rows width = None <-> rows = 0 \/ width / rows = 0)
  /\ (0 < width / rows ->
      exists r c,
        get_clicked_pos (y, x) rows width = Some (r, c)
        /\ r * (width / rows) <= y < (r + 1) * (width / rows)
        /\ c * (width / rows) <= x < (c + 1) * (width / rows)
        /\ (0 <= r < rows <-> 0 <= y < rows * (width / rows))
        /\ (0 <= c < rows <-> 0 <= x < rows * (width / rows))).
Proof.
  unfold get_clicked_pos. split.
  - destruct (rows =? 0) eqn:Hr.
    + apply Z.eqb_eq in Hr. tauto.
    + apply Z.eqb_neq in Hr. destruct (width / rows =? 0) eqn:Hg.
      * apply Z.eqb_eq in Hg. tauto.
      * apply Z.eqb_neq in Hg. split; [discriminate | tauto].
  - intros Hgap.
    assert (Hrows : rows <> 0).
    { intros ->. rewrite Z.div_0_r in Hgap. lia. }
    rewrite (proj2 (Z.eqb_neq rows 0) Hrows).
    rewrite (proj2 (Z.eqb_neq (width / rows) 0)) by lia.
    set (gap := width / rows) in *.
    exists (y / gap), (x / gap). split; [reflexivity|].
    pose proof (Z.div_mod y gap ltac:(lia)) as Hy.
    pose proof (Z.mod_pos_bound y gap Hgap) as Hym.
    pose proof (Z.div_mod x gap ltac:(lia)) as Hx.
    pose proof (Z.mod_pos_bound x gap Hgap) as Hxm.
    repeat split; try nia.
Qed.

Lemma get_clicked_pos_spec_witness :
  exists r c,
    get_clicked_pos (799, 17) 50 800 = Some (r, c)
    /\ r * (800 / 50) <= 799 < (r + 1) * (800 / 50)
    /\ c * (800 / 50) <= 17 < (c + 1) * (800 / 50)
    /\ (0 <= r < 50 <-> 0 <= 799 < 50 * (800 / 50))
    /\ (0 <= c < 50 <-> 0 <= 17 < 50 * (800 / 50)).
Proof.
  apply (proj2 (get_clicked_pos_spec 799 17 50 800)). reflexivity.
Defined.

(** X13: a click anywhere inside the square that [draw] paints for the cell
    [make_grid] puts at [(i, j)] is mapped back to [(i, j)]. *)
Theorem clicked_cell_round_trip (rows width i j dx dy : Z) :
  0 < width / rows ->
  0 <= dx < width / rows -> 0 <= dy < width / rows ->
  get_clicked_pos (Node_x (Node_new i j (width / rows) rows) + dx,
                   Node_y (Node_new i j (width / rows) rows) + dy) rows width
  = Some (i, j).
Proof.
  intros Hgap Hdx Hdy. unfold get_clicked_pos, Node_x, Node_y. simpl.
  assert (Hrows : rows <> 0).
  { intros ->. rewrite Z.div_0_r in Hgap. lia. }
  rewrite (proj2 (Z.eqb_neq rows 0) Hrows).
  rewrite (proj2 (Z.eqb_neq (width / rows) 0)) by lia.
  set (gap := width / rows) in *. do 2 f_equal.
  - symmetry. apply (Z.div_unique_pos _ gap i dx); lia.
  - symmetry. apply (Z.div_unique_pos _ gap j dy); lia.
Qed.

Lemma clicked_cell_round_trip_witness :
  get_clicked_pos (Node_x (Node_new 49 3 (800 / 50) 50) + 15,
                   Node_y (Node_new 49 3 (800 / 50) 50) + 0) 50 800
  = Some (49, 3).
Proof.
  apply (clicked_cell_round_trip 50 800 49 3 15 0); vm_compute; split; congruence.
Defined.

(** ** The search never reads a colour *)

Lemma alike_node_at (ga gb : Grid) (p : ref) :
  alike ga gb ->
  match node_at ga p, node_at gb p with
  | Some na, Some nb => get_pos na = get_pos nb /\ neighbors na = neighbors nb
  | None, None => True
  | _, _ => False
  end.
Proof.
  intros H. specialize (H p).
  destruct (node_at ga p) as [na|], (node_at gb p) as [nb|]; try discriminate; [|exact I].
  simpl in H. injection H as H1 H2 H3 H4 H5. unfold get_pos. split; congruence.
Qed.

Lemma alike_update (ga gb : Grid) (p : ref) (c : rgb) :
  alike ga gb -> alike (update_node ga p (set_color c)) (update_node gb p (set_color c)).
Proof.
  intros H q. rewrite !node_at_update_node. case_decide as E; [|apply H].
  specialize (H p).
  destruct (node_at ga p) as [na|], (node_at gb p) as [nb|]; try discriminate;
    [|reflexivity].
  simpl in *. injection H as H1 H2 H3 H4 H5. unfold reset, set_color. simpl.
  congruence.
Qed.

Lemma alike_refl (g : Grid) : alike g g.
Proof. intros p. reflexivity. Qed.

Lemma alike_paint (g : Grid) (p : ref) (c : rgb) :
  alike (update_node g p (set_color c)) g.
Proof.
  intros q. rewrite node_at_update_node. case_decide as E; [|reflexivity].
  subst q. destruct (node_at g p) as [n|]; reflexivity.
Qed.

Lemma relax_alike (cur end_ nb : ref) (sa sb : State) :
  alike_st sa sb -> alike_opt (relax cur end_ nb sa) (relax cur end_ nb sb).
Proof.
  destruct sa as [ga os cf g f h c da], sb as [gb os' cf' g' f' h' c' db].
  intros (Hg & Hos & Hcf & Hgs & Hf & Hh & Hc & Hd). simpl in *. subst.
  unfold relax. cbn -[num_ltb heuristic get_pos].
  destruct (g' !! cur) as [gc|]; [|exact I]. cbn -[num_ltb heuristic get_pos].
  destruct (g' !! nb) as [gn|]; [|exact I]. cbn -[num_ltb heuristic get_pos].
  destruct (num_ltb (num_add gc 1) gn).
  2:{ repeat split; try assumption; reflexivity. }
  pose proof (alike_node_at ga gb nb Hg) as Hn.
  destruct (node_at ga nb) as [na|], (node_at gb nb) as [nb'|]; try contradiction;
    [|exact I].
  cbn -[heuristic get_pos].
  pose proof (alike_node_at ga gb end_ Hg) as He.
  destruct (node_at ga end_) as [ea|], (node_at gb end_) as [eb|]; try contradiction;
    [|exact I].
  cbn -[heuristic get_pos]. destruct Hn as [-> _], He as [-> _].
  destruct (decide (nb ∈ h')); simpl.
  - repeat split; try assumption; reflexivity.
  - repeat split; try assumption; try reflexivity. apply alike_update, Hg.
Qed.

Lemma for_neighbors_alike (cur end_ : ref) (l : list ref) :
  forall sa sb, alike_st sa sb ->
    alike_opt (for_neighbors cur end_ l sa) (for_neighbors cur end_ l sb).
Proof.
  induction l as [|nb l IH]; intros sa sb H; simpl; [exact H|].
  pose proof (relax_alike cur end_ nb sa sb H) as Hr.
  destruct (relax cur end_ nb sa) as [sa'|], (relax cur end_ nb sb) as [sb'|];
    try contradiction; simpl; [apply IH, Hr | exact I].
Qed.

Lemma expand_alike (start end_ cur : ref) (sa sb : State) :
  alike_st sa sb ->
  alike_opt (expand start end_ cur sa) (expand start end_ cur sb).
Proof.
  intros H. unfold expand. pose proof H as (Hg & _).
  pose proof (alike_node_at _ _ cur Hg) as Hn.
  destruct (node_at (st_grid sa) cur) as [na|], (node_at (st_grid sb) cur) as [nb|];
    try contradiction; [|exact I].
  simpl. destruct Hn as [_ ->].
  pose proof (for_neighbors_alike cur end_ (neighbors nb) sa sb H) as Hf.
  destruct (for_neighbors cur end_ (neighbors nb) sa) as [sa'|],
    (for_neighbors cur end_ (neighbors nb) sb) as [sb'|]; try contradiction; [|exact I].
  simpl. destruct Hf as (Hg' & Hos & Hcf & Hgs & Hfs & Hh & Hc & Hd).
  repeat split; try assumption.
  - destruct (ref_eqb cur start); [exact Hg' | apply alike_update, Hg'].
  - constructor; assumption.
Qed.

Lemma reconstruct_loop_alike (cf : gmap (Z * Z) (Z * Z)) (fuel : nat) :
  forall cur n ga gb da db,
    alike ga gb -> Forall2 alike da db ->
    alike_path (reconstruct_loop fuel cf cur n ga da)
               (reconstruct_loop fuel cf cur n gb db).
Proof.
  induction fuel as [|fuel IH]; intros cur n ga gb da db Hg Hd; simpl; [exact I|].
  destruct (cf !! cur) as [prev|].
  - apply IH; [apply alike_update, Hg|]. constructor; [apply alike_update, Hg | exact Hd].
  - repeat split; assumption.
Qed.

Lemma finish_alike (rfuel : nat) (start end_ : ref) (sa sb : State) :
  alike_st sa sb ->
  alike_res (finish rfuel start end_ sa) (finish rfuel start end_ sb).
Proof.
  intros (Hg & Hos & Hcf & Hgs & Hfs & Hh & Hc & Hd). unfold finish, reconstruct_path.
  rewrite Hcf.
  pose proof (reconstruct_loop_alike (came_from sb) rfuel end_ 1 _ _ _ _ Hg Hd) as Hr.
  destruct (reconstruct_loop rfuel (came_from sb) end_ 1 (st_grid sa) (draws sa))
    as [[[n1 g1] d1]| |],
    (reconstruct_loop rfuel (came_from sb) end_ 1 (st_grid sb) (draws sb))
    as [[[n2 g2] d2]| |]; try contradiction; try exact I.
  destruct Hr as (-> & Hg' & Hd'). simpl.
  repeat split; try assumption. apply alike_update, alike_update, Hg'.
Qed.

Lemma loop_alike (rfuel : nat) (start end_ : ref) (n : Z) (fuel : nat) :
  forall sa sb, alike_st sa sb ->
    alike_res (loop fuel rfuel start end_ n sa) (loop fuel rfuel start end_ n sb).
Proof.
  induction fuel as [|fuel IH]; intros sa sb H; simpl; [exact I|].
  pose proof H as (Hg & Hos & Hcf & Hgs & Hfs & Hh & Hc & Hd).
  rewrite Hos, Hh.
  destruct (pq_get (open_set sb)) as [[[[f c] cur] rest]|].
  2:{ simpl. repeat split; assumption. }
  destruct (decide (cur ∈ open_set_hash sb)); [|exact I].
  set (sa1 := mkState (st_grid sa) rest (came_from sa) (g_score sa) (f_score sa)
                (open_set_hash sb ∖ {[cur]}) (count sa) (draws sa)).
  set (sb1 := mkState (st_grid sb) rest (came_from sb) (g_score sb) (f_score sb)
                (open_set_hash sb ∖ {[cur]}) (count sb) (draws sb)).
  assert (H1 : alike_st sa1 sb1) by (repeat split; assumption).
  destruct (ref_eqb cur end_); [apply finish_alike, H1|].
  pose proof (expand_alike start end_ cur sa1 sb1 H1) as He.
  destruct (expand start end_ cur sa1) as [sa2|], (expand start end_ cur sb1) as [sb2|];
    try contradiction; [apply IH, He | exact I].
Qed.

Lemma all_inf_alike (ga gb : Grid) : alike ga gb -> all_inf ga = all_inf gb.
Proof.
  intros H. apply map_eq. intros p. rewrite !all_inf_lookup.
  pose proof (alike_node_at ga gb p H) as Hn.
  destruct (decide (p ∈ all_refs ga)) as [Ha|Ha], (decide (p ∈ all_refs gb)) as [Hb|Hb];
    try reflexivity; exfalso.
  - apply elem_of_all_refs in Ha as [na Hna]. rewrite Hna in Hn.
    destruct (node_at gb p) eqn:E; [|contradiction].
    apply Hb, elem_of_all_refs. eauto.
  - apply elem_of_all_refs in Hb as [nb Hnb]. rewrite Hnb in Hn.
    destruct (node_at ga p) eqn:E; [|contradiction].
    apply Ha, elem_of_all_refs. eauto.
Qed.

Lemma algorithm_alike (fuel : nat) (ga gb : Grid) (start end_ : ref) :
  alike ga gb ->
  alike_res (algorithm fuel ga start end_) (algorithm fuel gb start end_).
Proof.
  intros H. unfold algorithm, init.
  pose proof (alike_node_at ga gb start H) as Hs.
  destruct (node_at ga start) as [sa|], (node_at gb start) as [sb|];
    try contradiction; [|exact I].
  cbn -[heuristic].
  pose proof (alike_node_at ga gb end_ H) as He.
  destruct (node_at ga end_) as [ea|], (node_at gb end_) as [eb|];
    try contradiction; [|exact I].
  cbn -[heuristic]. destruct Hs as [-> _], He as [-> _].
  rewrite (all_inf_alike ga gb H).
  apply loop_alike. repeat split; try assumption; try reflexivity. constructor.
Qed.

Lemma alike_res_answer (ra rb : result (bool * Z * State)) :
  alike_res ra rb -> answer ra = answer rb.
Proof.
  destruct ra as [[[b1 n1] sa]| |], rb as [[[b2 n2] sb]| |]; simpl; try tauto.
  intros (-> & -> & _). reflexivity.
Qed.

(** X14: on well-formed grids the search never reads a colour: on two such
    grids whose cells differ at most in colour (same positions, same
    neighbour lists) it gives the same answer, with the same fuel.  In
    particular a barrier painted after the last refresh is not seen by the
    search. *)
Theorem search_ignores_colors (ga gb : Grid) (start end_ : ref) (fuel : nat) :
  well_formed ga = true -> well_formed gb = true ->
  (forall p, reset <$> node_at ga p = reset <$> node_at gb p) ->
  answer (algorithm fuel ga start end_) = answer (algorithm fuel gb start end_).
Proof.
  intros _ _ H. apply alike_res_answer, algorithm_alike. exact H.
Qed.

Lemma search_ignores_colors_witness :
  answer (algorithm 100 (update_node open_grid (2, 2) make_barrier) (0, 0) (4, 4))
  = answer (algorithm 100 open_grid (0, 0) (4, 4)).
Proof.
  apply (search_ignores_colors (update_node open_grid (2, 2) make_barrier) open_grid).
  - vm_compute. reflexivity.
  - vm_compute. reflexivity.
  - exact (alike_paint open_grid (2, 2) Color.BARRIER).
Defined.

(** X15: a search can be repeated: run again on the grid that a first
    search left behind, with the same start and end, the search gives the
    answer it would give on the grid as it was before the first search. *)
Theorem search_repeatable (grid : Grid) (start end_ : ref) (fuel fuel' : nat)
    (found : bool) (path_length : Z) (st' : State) :
  well_formed grid = true -> refreshed grid = true ->
  is_Some (node_at grid start) -> is_Some (node_at grid end_) ->
  algorithm fuel grid start end_ = Return (found, path_length, st') ->
  answer (algorithm fuel' (st_grid st') start end_)
  = answer (algorithm fuel' grid start end_).
Proof.
  intros Hwf%well_formed_wf Href Hs He Hr.
  pose proof (algorithm_post grid start end_ Hwf Href Hs He fuel _ _ _ Hr) as Hpost.
  apply post_recolored in Hpost. apply Forall_cons in Hpost as [Hg _].
  apply alike_res_answer, algorithm_alike. intros p.
  apply (recolored_reset grid start), Hg.
Qed.

Lemma search_repeatable_witness :
  answer (algorithm 10 (st_grid pair_final) (0, 0) (0, 1))
  = answer (algorithm 10 pair_grid (0, 0) (0, 1)).
Proof.
  apply (search_repeatable pair_grid (0, 0) (0, 1) 10 10 true 2 pair_final).
  - vm_compute. reflexivity.
  - vm_compute. reflexivity.
  - eexists. vm_compute. reflexivity.
  - eexists. vm_compute. reflexivity.
  - vm_compute. reflexivity.
Defined.

(** ** The search only repaints *)

Lemma repainted_trans (g1 g2 g3 : Grid) :
  repainted g1 g2 -> repainted g2 g3 -> repainted g1 g3.
Proof.
  intros H12 H23. induction H23 as [|g' p c _ IH]; [exact H12|].
  constructor. exact IH.
Qed.

Lemma repainted_wf (g g' : Grid) :
  repainted g g' -> wf g -> wf g' /\ length g' = length g.
Proof.
  intros H Hwf. induction H as [|g' p c _ [IHwf IHlen]]; [auto|]. split.
  - apply wf_update_node; [|exact IHwf]. intros nd _. apply set_color_fields.
  - rewrite length_update_node. exact IHlen.
Qed.

Lemma relax_repainted (cur end_ nb : ref) (st st' : State) :
  relax cur end_ nb st = Some st' -> repainted (st_grid st) (st_grid st').
Proof.
  unfold relax. destruct (g_score st !! cur) as [gc|]; [|discriminate].
  cbn -[num_ltb heuristic get_pos].
  destruct (g_score st !! nb) as [gn|]; [|discriminate].
  cbn -[num_ltb heuristic get_pos].
  destruct (num_ltb (num_add gc 1) gn); [|intros [= <-]; constructor].
  destruct (node_at (st_grid st) nb) as [nnode|]; [|discriminate].
  cbn -[heuristic get_pos].
  destruct (node_at (st_grid st) end_) as [enode|]; [|discriminate].
  cbn -[heuristic get_pos].
  destruct (decide (nb ∈ open_set_hash st)); intros [= <-]; cbn [st_grid].
  - constructor.
  - apply (repainted_step _ _ nb Color.OPEN). constructor.
Qed.

Lemma for_neighbors_repainted (cur end_ : ref) (l : list ref) :
  forall st st',
    for_neighbors cur end_ l st = Some st' -> repainted (st_grid st) (st_grid st').
Proof.
  induction l as [|nb l IH]; intros st st'; simpl.
  - intros [= <-]. constructor.
  - destruct (relax cur end_ nb st) as [st1|] eqn:Hr; [|discriminate]. simpl.
    intros H. eapply repainted_trans; [eapply relax_repainted, Hr | apply IH, H].
Qed.

Lemma expand_repainted (start end_ cur : ref) (st st' : State) :
  expand start end_ cur st = Some st' -> repainted (st_grid st) (st_grid st').
Proof.
  unfold expand. destruct (node_at (st_grid st) cur) as [cnode|]; [|discriminate].
  simpl. destruct (for_neighbors cur end_ (neighbors cnode) st) as [st1|] eqn:Hf;
    [|discriminate].
  simpl. intros [= <-]. cbn [st_grid]. apply for_neighbors_repainted in Hf.
  destruct (ref_eqb cur start); [exact Hf|].
  apply (repainted_step _ _ cur Color.CLOSED). exact Hf.
Qed.

Lemma reconstruct_loop_repainted (cf : gmap (Z * Z) (Z * Z)) (fuel : nat) :
  forall cur n g dr n' g' dr',
    reconstruct_loop fuel cf cur n g dr = Return (n', g', dr') -> repainted g g'.
Proof.
  induction fuel as [|fuel IH]; intros cur n g dr n' g' dr'; simpl; [discriminate|].
  destruct (cf !! cur) as [prev|].
  - intros H. apply IH in H. eapply repainted_trans; [|exact H].
    apply (repainted_step _ _ prev Color.PATH). constructor.
  - intros [= _ <- _]. constructor.
Qed.

Lemma finish_repainted (rfuel : nat) (start end_ : ref) (st : State)
    (b : bool) (L : Z) (st' : State) :
  finish rfuel start end_ st = Return (b, L, st') ->
  repainted (st_grid st) (st_grid st').
Proof.
  unfold finish, reconstruct_path.
  destruct (reconstruct_loop rfuel (came_from st) end_ 1 (st_grid st) (draws st))
    as [[[n g1] d1]| |] eqn:Hr; try discriminate.
  intros [= _ _ <-]. cbn [st_grid]. apply reconstruct_loop_repainted in Hr.
  apply (repainted_step _ _ start Color.START).
  apply (repainted_step _ _ end_ Color.END). exact Hr.
Qed.

Lemma loop_repainted (rfuel : nat) (start end_ : ref) (n : Z) (fuel : nat) :
  forall st b L st',
    loop fuel rfuel start end_ n st = Return (b, L, st') ->
    repainted (st_grid st) (st_grid st').
Proof.
  induction fuel as [|fuel IH]; intros st b L st'; simpl; [discriminate|].
  destruct (pq_get (open_set st)) as [[[[f c] cur] rest]|].
  2:{ intros [= _ _ <-]. constructor. }
  destruct (decide (cur ∈ open_set_hash st)); [|discriminate].
  destruct (ref_eqb cur end_).
  - intros H. apply finish_repainted in H. exact H.
  - match goal with |- context [expand start end_ cur ?s] =>
      destruct (expand start end_ cur s) as [st2|] eqn:He end; [|discriminate].
    intros H. apply IH in H. apply expand_repainted in He.
    eapply repainted_trans; [exact He | exact H].
Qed.

Lemma algorithm_repainted (fuel : nat) (grid : Grid) (start end_ : ref)
    (b : bool) (L : Z) (st' : State) :
  algorithm fuel grid start end_ = Return (b, L, st') -> repainted grid (st_grid st').
Proof.
  unfold algorithm. destruct (init grid start end_) as [st0|] eqn:Hi; [|discriminate].
  intros H. apply loop_repainted in H.
  unfold init in Hi. destruct (node_at grid start); [|discriminate].
  cbn -[heuristic] in Hi. destruct (node_at grid end_); [|discriminate].
  cbn -[heuristic] in Hi. injection Hi as <-. exact H.
Qed.

(** ** The size of a well-formed grid *)

Lemma length_all_refs (grid : Grid) :
  wf grid -> length (all_refs grid) = (length grid * length grid)%nat.
Proof.
  intros [Hshape _]. unfold all_refs. rewrite length_join.
  replace (length <$> imap row_refs grid) with (length <$> grid).
  - apply sum_list_fmap_same, Hshape.
  - apply list_eq. intros i. rewrite !list_lookup_fmap, list_lookup_imap.
    destruct (grid !! i) as [rowl|]; [|reflexivity]. simpl. f_equal.
    unfold row_refs. rewrite length_fmap, length_seq. reflexivity.
Qed.

Lemma wf_length_eq (g g' : Grid) :
  wf g -> wf g' ->
  (forall p, is_Some (node_at g p) <-> is_Some (node_at g' p)) ->
  length g = length g'.
Proof.
  intros Hwf Hwf' H.
  assert (Hb : forall p, in_bounds g p <-> in_bounds g' p).
  { intros p. rewrite <- !wf_node_at by assumption. apply H. }
  unfold in_bounds in Hb.
  destruct (Nat.lt_trichotomy (length g) (length g')) as [Hlt|[Heq|Hlt]];
    [|exact Heq|]; exfalso.
  - specialize (Hb (Z.of_nat (length g), Z.of_nat (length g))). simpl in Hb. lia.
  - specialize (Hb (Z.of_nat (length g'), Z.of_nat (length g'))). simpl in Hb. lia.
Qed.

Lemma enough_fuel_rows (grid : Grid) (rows : Z) :
  wf grid -> Z.of_nat (length grid) = rows -> enough_fuel grid = fuel_for rows.
Proof.
  intros Hwf Hlen. unfold enough_fuel, fuel_for. rewrite (length_all_refs grid Hwf).
  subst rows. lia.
Qed.

Lemma refresh_all_refreshed (grid : Grid) :
  wf grid ->
  exists g',
    refresh_all grid = Some g' /\ wf g' /\ refreshed g' = true
    /\ length g' = length grid
    /\ (forall q, color <$> node_at g' q = color <$> node_at grid q)
    /\ (forall q, passable g' q = passable grid q).
Proof.
  intros Hwf.
  destruct (refresh_all_spec grid Hwf) as (g' & Hrun & Hsame & Hcells).
  pose proof Hsame as [Hwf' _].
  assert (Hpass : forall q, passable g' q = passable grid q).
  { intros q. apply same_cells_passable, Hsame. }
  exists g'. split; [exact Hrun|]. split; [exact Hwf'|]. split; [|split; [|split]].
  - apply refreshed_intro; [exact Hwf'|]. intros p nd. rewrite Hcells.
    destruct (node_at grid p) as [nd0|]; [|discriminate].
    intros [= <-]. unfold fresh, set_neighbors. cbn [neighbors].
    apply filter_ext. intros q. symmetry. apply Hpass.
  - apply wf_length_eq; [exact Hwf' | exact Hwf |]. intros p. rewrite Hcells.
    apply fmap_is_Some.
  - intros q. rewrite Hcells. destruct (node_at grid q); reflexivity.
  - exact Hpass.
Qed.

(** ** The colours a search leaves *)

Section Colours.
Variables (grid0 : Grid) (start end_ : ref).
Hypothesis Hwf : wf grid0.
Hypothesis Href : refreshed grid0 = true.
Hypothesis Hstart : is_Some (node_at grid0 start).
Hypothesis Hend : is_Some (node_at grid0 end_).

Lemma relax_painted (cur nb : ref) (st st' : State) (kc : Z) :
  Inv grid0 start st ->
  g_score st !! cur = Some (Fin kc) ->
  nb <> cur ->
  cur ∉ open_set_hash st ->
  painted grid0 start (Some cur) st ->
  relax cur end_ nb st = Some st' ->
  painted grid0 start (Some cur) st' /\ (cur ∉ open_set_hash st').
Proof.
  intros (_ & _ & Hsc & Hop) Hcur Hnb Hnot [Hst Hp]. unfold relax. rewrite Hcur.
  cbn -[num_ltb heuristic get_pos].
  destruct (g_score st !! nb) as [gn|] eqn:Hgn; [|discriminate].
  cbn -[num_ltb heuristic get_pos].
  destruct (num_ltb (Fin (kc + 1)) gn) eqn:Hlt.
  2:{ intros [= <-]. split; [split; assumption | exact Hnot]. }
  assert (Hns : nb <> start).
  { intros ->. rewrite (sc_start _ _ _ _ Hsc) in Hgn. injection Hgn as <-.
    simpl in Hlt. apply Z.ltb_lt in Hlt.
    pose proof (sc_bound _ _ _ _ Hsc _ _ Hcur). lia. }
  destruct (node_at (st_grid st) nb) as [nnode|] eqn:Hnn; [|discriminate].
  cbn -[heuristic get_pos].
  destruct (node_at (st_grid st) end_) as [enode|]; [|discriminate].
  cbn -[heuristic get_pos].
  destruct (decide (nb ∈ open_set_hash st)) as [Hin|Hin]; intros [= <-];
    unfold painted; cbn [st_grid g_score open_set_hash].
  - split; [|exact Hnot]. split; [exact Hst|].
    intros p Hps Hpc. specialize (Hp p Hps Hpc). rewrite lookup_insert.
    destruct (decide (nb = p)) as [<-|Hne]; [|exact Hp].
    destruct (op_fin _ _ _ Hop nb Hin) as [k Hk]. rewrite Hk in Hp. exact Hp.
  - split.
    + split.
      * rewrite node_at_update_node, decide_False by exact Hns. exact Hst.
      * intros p Hps Hpc. rewrite lookup_insert, node_at_update_node.
        destruct (decide (nb = p)) as [<-|Hne].
        -- rewrite Hnn. simpl. rewrite decide_True; [reflexivity|].
           apply elem_of_union. left. apply elem_of_singleton. reflexivity.
        -- specialize (Hp p Hps Hpc).
           destruct (g_score st !! p) as [[k|]|]; try exact Hp.
           rewrite Hp. f_equal.
           destruct (decide (p ∈ open_set_hash st)) as [H1|H1].
           ++ rewrite decide_True; [reflexivity|]. apply elem_of_union. right. exact H1.
           ++ rewrite decide_False; [reflexivity|].
              intros [H2%elem_of_singleton|H2]%elem_of_union;
                [congruence | contradiction].
    + intros [H2%elem_of_singleton|H2]%elem_of_union; [congruence | contradiction].
Qed.

Lemma for_neighbors_painted (cur : ref) (l : list ref) :
  forall st st',
    (forall nb, nb ∈ l -> step grid0 cur nb = true) ->
    Inv grid0 start st ->
    (exists kc, g_score st !! cur = Some (Fin kc)) ->
    cur ∉ open_set_hash st ->
    painted grid0 start (Some cur) st ->
    for_neighbors cur end_ l st = Some st' ->
    painted grid0 start (Some cur) st' /\ (cur ∉ open_set_hash st')
    /\ Inv grid0 start st' /\ exists kc, g_score st' !! cur = Some (Fin kc).
Proof.
  induction l as [|nb l IH]; intros st st' Hl Hinv [kc Hcur] Hnot Hp; simpl.
  - intros [= <-]. eauto 6.
  - assert (Hstep : step grid0 cur nb = true) by (apply Hl; left).
    destruct (relax_Inv grid0 start end_ Hend cur nb st kc Hinv Hcur Hstep)
      as (st1 & Hr & Hinv1 & _ & Hcur1 & _).
    rewrite Hr. simpl.
    assert (Hne : nb <> cur).
    { apply step_spec in Hstep as [Hadj _]. apply adjacent_neq in Hadj. congruence. }
    destruct (relax_painted cur nb st st1 kc Hinv Hcur Hne Hnot Hp Hr) as [Hp1 Hnot1].
    apply IH; try assumption. intros nb' Hnb'. apply Hl. right. exact Hnb'.
Qed.

Lemma expand_painted (cur : ref) (st st2 : State) (kc : Z) :
  Inv grid0 start st ->
  g_score st !! cur = Some (Fin kc) ->
  cur ∉ open_set_hash st ->
  painted grid0 start (Some cur) st ->
  expand start end_ cur st = Some st2 ->
  painted grid0 start None st2.
Proof.
  intros Hinv Hcur Hnot Hp. pose proof Hinv as (Hg & _ & Hsc & _). unfold expand.
  destruct (node_at (st_grid st) cur) as [cnode|] eqn:Hcnode; [|discriminate].
  simpl.
  destruct (for_neighbors cur end_ (neighbors cnode) st) as [st1|] eqn:Hfor;
    [|discriminate].
  simpl. intros [= <-].
  destruct (recolored_neighbors _ _ _ _ _ Hg Hcnode) as (nd0 & Hnd0 & Hnb).
  rewrite (refreshed_neighbors grid0 cur nd0 Hwf Href Hnd0) in Hnb.
  destruct (for_neighbors_painted cur (neighbors cnode) st st1)
    as ([Hst1 Hp1] & Hnot1 & Hinv1 & [kc1 Hcur1]); try assumption; eauto.
  { intros nb. rewrite Hnb. intros H%elem_of_filter_passable. apply step_spec, H. }
  destruct Hinv1 as (Hg1 & _).
  unfold painted. cbn [st_grid g_score open_set_hash]. split.
  - destruct (ref_eqb cur start) eqn:E; [exact Hst1|].
    apply ref_eqb_neq in E. rewrite node_at_update_node, decide_False by exact E.
    exact Hst1.
  - intros p Hps _. destruct (decide (p = cur)) as [->|Hne].
    + rewrite (proj2 (ref_eqb_neq cur start) Hps), Hcur1.
      rewrite node_at_update_node, decide_True by reflexivity.
      destruct (recolored_Some grid0 start _ cur Hg1 (ex_intro _ nd0 Hnd0)) as [nd1 ->].
      simpl. rewrite decide_False by exact Hnot1. reflexivity.
    + assert (Hpc : Some p <> Some cur) by congruence.
      specialize (Hp1 p Hps Hpc).
      destruct (ref_eqb cur start); [exact Hp1|].
      rewrite node_at_update_node, decide_False by congruence. exact Hp1.
Qed.

Lemma loop_pop (fuel rfuel : nat) (st : State) :
  Inv grid0 start st ->
  (open_set st = [] /\ loop (S fuel) rfuel start end_ 0 st = Return (false, 0, st))
  \/ exists cur rest k,
       cur ∈ open_set_hash st
       /\ g_score st !! cur = Some (Fin k)
       /\ Inv grid0 start
            (mkState (st_grid st) rest (came_from st) (g_score st) (f_score st)
               (open_set_hash st ∖ {[cur]}) (count st) (draws st))
       /\ loop (S fuel) rfuel start end_ 0 st =
          if ref_eqb cur end_ then
            finish rfuel start end_
              (mkState (st_grid st) rest (came_from st) (g_score st) (f_score st)
                 (open_set_hash st ∖ {[cur]}) (count st) (draws st))
          else
            match expand start end_ cur
                    (mkState (st_grid st) rest (came_from st) (g_score st) (f_score st)
                       (open_set_hash st ∖ {[cur]}) (count st) (draws st)) with
            | None => Raise
            | Some st2 => loop fuel rfuel start end_ 0 st2
            end.
Proof.
  intros (Hg & Hfr & Hsc & Hop). simpl.
  destruct (pq_get (open_set st)) as [[[[f c] cur] rest]|] eqn:Hget.
  2:{ left. apply pq_get_None in Hget. split; [exact Hget | reflexivity]. }
  right.
  destruct (open_ok_pop _ _ _ _ _ _ _ Hop Hget) as (Hin & Hop1 & [k Hk] & Hlen).
  rewrite decide_True by exact Hin.
  exists cur, rest, k. split; [exact Hin|]. split; [exact Hk|].
  split; [exact (conj Hg (conj Hfr (conj Hsc Hop1))) | reflexivity].
Qed.

Lemma loop_final (rfuel fuel : nat) :
  forall st b L st',
    Inv grid0 start st ->
    expanded_ok grid0 None (open_set_hash st) (g_score st) ->
    end_waits end_ (open_set_hash st) (g_score st) ->
    painted grid0 start None st ->
    loop fuel rfuel start end_ 0 st = Return (b, L, st') ->
    if b then
      exists st1 l k,
        Inv grid0 start st1 /\ painted grid0 start (Some end_) st1
        /\ g_score st1 !! end_ = Some (Fin k)
        /\ walk (came_from st1) end_ l
        /\ st' = final_state start end_ l st1
    else
      Inv grid0 start st' /\ painted grid0 start None st'
      /\ open_set_hash st' = ∅
      /\ expanded_ok grid0 None ∅ (g_score st').
Proof.
  induction fuel as [|fuel IH]; intros st b L st' Hinv Hexp Hwait Hp; [discriminate|].
  destruct (loop_pop fuel rfuel st Hinv)
    as [[Hempty ->]|(cur & rest & k & Hin & Hk & Hinv1 & ->)].
  - intros [= <- <- <-]. pose proof Hinv as (_ & _ & _ & Hop).
    assert (Hhash : open_set_hash st = ∅).
    { apply set_eq. intros p. rewrite (op_mem _ _ _ Hop), Hempty. simpl.
      rewrite elem_of_nil. split; [tauto | intros H; inversion H]. }
    rewrite Hhash in Hexp. auto.
  - set (st1 := mkState (st_grid st) rest (came_from st) (g_score st) (f_score st)
                  (open_set_hash st ∖ {[cur]}) (count st) (draws st)) in *.
    assert (Hp1 : painted grid0 start (Some cur) st1).
    { destruct Hp as [Hs Hp]. split; [exact Hs|]. intros p Hps Hpc.
      specialize (Hp p Hps ltac:(discriminate)). unfold st1.
      cbn [st_grid g_score open_set_hash].
      destruct (g_score st !! p) as [[kk|]|]; try exact Hp.
      rewrite Hp. f_equal.
      destruct (decide (p ∈ open_set_hash st)) as [H1|H1].
      - rewrite decide_True; [reflexivity|]. apply elem_of_difference.
        split; [exact H1|]. intros ->%elem_of_singleton. congruence.
      - rewrite decide_False; [reflexivity|].
        intros [H2 _]%elem_of_difference. contradiction. }
    assert (Hnot1 : cur ∉ open_set_hash st1).
    { unfold st1. cbn [open_set_hash]. intros [_ H2]%elem_of_difference.
      apply H2, elem_of_singleton. reflexivity. }
    destruct (ref_eqb cur end_) eqn:E.
    + apply ref_eqb_eq in E. subst cur. intros Hfin.
      destruct (finish_inv _ _ _ _ _ Hfin) as (l & Hw & Hlen).
      rewrite (finish_walk _ _ _ _ _ Hw Hlen) in Hfin. injection Hfin as <- <- <-.
      exists st1, l, k. auto.
    + apply ref_eqb_neq in E.
      destruct (expand_Inv grid0 start end_ Hwf Href Hend cur st1 k Hinv1 Hk)
        as (st2 & Hrun & Hinv2 & _).
      rewrite Hrun.
      assert (Hexp1 : expanded_ok grid0 (Some cur) (open_set_hash st1) (g_score st1)).
      { unfold st1. cbn [open_set_hash g_score]. intros p kp Hkp Hnot Hskip.
        apply (Hexp p kp Hkp); [|discriminate].
        intros Hin'. apply Hnot, elem_of_difference. split; [exact Hin'|].
        intros ->%elem_of_singleton. congruence. }
      assert (Hwait1 : end_waits end_ (open_set_hash st1) (g_score st1)).
      { unfold st1. cbn [open_set_hash g_score]. intros ke Hke. apply elem_of_difference.
        split; [apply (Hwait ke Hke)|]. intros ->%elem_of_singleton. congruence. }
      destruct (expand_reach grid0 start end_ Hwf Href Hend cur st1 st2 k Hinv1 Hk Hrun
                  Hexp1 Hwait1) as [Hexp2 Hwait2].
      pose proof (expand_painted cur st1 st2 k Hinv1 Hk Hnot1 Hp1 Hrun) as Hp2.
      apply IH; assumption.
Qed.

Lemma algorithm_final (fuel : nat) (b : bool) (L : Z) (st' : State) :
  algorithm fuel grid0 start end_ = Return (b, L, st') ->
  if b then
    exists st1 l k,
      Inv grid0 start st1 /\ painted grid0 start (Some end_) st1
      /\ g_score st1 !! end_ = Some (Fin k)
      /\ walk (came_from st1) end_ l
      /\ st' = final_state start end_ l st1
  else
    Inv grid0 start st' /\ painted grid0 start None st'
    /\ open_set_hash st' = ∅
    /\ expanded_ok grid0 None ∅ (g_score st').
Proof.
  unfold algorithm.
  destruct (init_Inv grid0 start end_ Hstart Hend) as (st0 & Hinit & Hinv & _).
  rewrite Hinit.
  assert (Hg0 : g_score st0 = <[start := Fin 0]> (all_inf grid0)
                /\ open_set_hash st0 = {[start]} /\ st_grid st0 = grid0).
  { unfold init in Hinit. destruct (node_at grid0 start); [|discriminate].
    cbn -[heuristic] in Hinit. destruct (node_at grid0 end_); [|discriminate].
    cbn -[heuristic] in Hinit. injection Hinit as <-. auto. }
  destruct Hg0 as (Hg0 & Hh0 & Hgr0).
  assert (Honly : forall p k, g_score st0 !! p = Some (Fin k) -> p = start).
  { intros p k. rewrite Hg0, lookup_insert. destruct (decide (start = p)) as [->|Hne];
      [reflexivity|].
    rewrite all_inf_lookup. destruct (decide (p ∈ all_refs grid0)); discriminate. }
  apply loop_final; [exact Hinv| | |].
  - intros p k Hp Hnot _. rewrite (Honly p k Hp), Hh0 in Hnot.
    exfalso. apply Hnot, elem_of_singleton. reflexivity.
  - intros k Hk. rewrite (Honly _ _ Hk), Hh0. apply elem_of_singleton. reflexivity.
  - split; [rewrite Hgr0; reflexivity|]. intros p Hps _.
    destruct (g_score st0 !! p) as [[k|]|] eqn:Hgp; rewrite ?Hgr0; try reflexivity.
    exfalso. apply Hps, (Honly p k Hgp).
Qed.

End Colours.

Lemma walk_NoDup (grid0 : Grid) (start : ref) (g : gmap (Z * Z) num)
    (cf : gmap (Z * Z) (Z * Z)) :
  scores_ok grid0 start g cf ->
  forall p l, walk cf p l ->
    forall k, g !! p = Some (Fin k) ->
      NoDup (p :: l) /\ forall q, q ∈ l -> exists kq, g !! q = Some (Fin kq) /\ kq < k.
Proof.
  intros Hok p l Hw. induction Hw as [p Hnone|p q l Hpq Hw IH]; intros k Hk.
  - split; [apply NoDup_singleton | intros q Hq; inversion Hq].
  - destruct (sc_cf _ _ _ _ Hok p q Hpq) as (_ & _ & kp & kq & Hkp & Hkq & Hle).
    rewrite Hk in Hkp. injection Hkp as <-.
    destruct (IH kq Hkq) as [Hnd Hall].
    assert (Hall' : forall x, x ∈ q :: l ->
              exists kx, g !! x = Some (Fin kx) /\ kx < k).
    { intros x [->|Hx]%elem_of_cons.
      - exists kq. split; [exact Hkq | lia].
      - destruct (Hall x Hx) as (kx & Hkx & Hlt). exists kx. split; [exact Hkx | lia]. }
    split; [|exact Hall']. apply NoDup_cons. split; [|exact Hnd].
    intros Hin. destruct (Hall' p Hin) as (kx & Hkx & Hlt).
    rewrite Hk in Hkx. injection Hkx as <-. lia.
Qed.

(** X16: the route behind a successful search visits no cell twice: the
    walk back from the end cell along [came_from] reaches the start cell
    without a repetition, it is a route of the grid, and [path_length] is
    its number of cells. *)
Theorem search_route_simple (grid : Grid) (start end_ : ref) (fuel : nat)
    (path_length : Z) (st' : State) :
  well_formed grid = true -> refreshed grid = true ->
  is_Some (node_at grid start) -> is_Some (node_at grid end_) ->
  algorithm fuel grid start end_ = Return (true, path_length, st') ->
  exists preds route,
    walk (came_from st') end_ preds
    /\ rev (end_ :: preds) = start :: route
    /\ is_route grid start route end_ = true
    /\ NoDup (start :: route)
    /\ path_length = Z.of_nat (length (start :: route)).
Proof.
  intros Hwf%well_formed_wf Href Hs He Hr.
  pose proof (algorithm_post grid start end_ Hwf Href Hs He fuel _ _ _ Hr) as Hpost.
  destruct Hpost as (st0 & l0 & l' & Hw0 & Hrev & Hroute & _ & _ & HL & Hst0 & _).
  destruct (algorithm_final grid start end_ Hwf Href Hs He fuel _ _ _ Hr)
    as (st1 & l & k & (_ & _ & Hsc & _) & _ & Hk & Hw & Hst1).
  assert (Hcf0 : came_from st' = came_from st0) by (rewrite Hst0; reflexivity).
  assert (Hcf1 : came_from st' = came_from st1) by (rewrite Hst1; reflexivity).
  rewrite <- Hcf0 in Hw0.
  clear Hst0 Hst1.
  exists l0, l'.
  rewrite Hcf1 in Hw0.
  destruct (walk_NoDup grid start _ _ Hsc end_ l0 Hw0 k Hk) as [Hnd _].
  rewrite <- Hcf1 in Hw0.
  split; [exact Hw0|]. split; [exact Hrev|]. split; [exact Hroute|].
  split.
  - rewrite <- Hrev. apply NoDup_ListNoDup, NoDup_rev, NoDup_ListNoDup, Hnd.
  - pose proof (rev_route_length _ _ _ _ Hrev). simpl. lia.
Qed.

Lemma search_route_simple_witness :
  exists preds route,
    walk (came_from field_final) (0, 2) preds
    /\ rev ((0, 2) :: preds) = (0, 0) :: route
    /\ is_route field_grid (0, 0) route (0, 2) = true
    /\ NoDup ((0, 0) :: route)
    /\ 3 = Z.of_nat (length ((0, 0) :: route)).
Proof.
  apply (search_route_simple field_grid (0, 0) (0, 2) 20 3 field_final).
  - vm_compute. reflexivity.
  - vm_compute. reflexivity.
  - eexists. vm_compute. reflexivity.
  - eexists. vm_compute. reflexivity.
  - vm_compute. reflexivity.
Defined.

(** X17: the picture a failed search leaves: the start cell is as it was,
    every other cell that a route leads to from the start cell has the
    closed colour, and every cell that no route leads to, the end cell
    among them, is exactly as it was. *)
Theorem no_path_colors (grid : Grid) (start end_ : ref) (fuel : nat)
    (path_length : Z) (st' : State) :
  well_formed grid = true -> refreshed grid = true ->
  is_Some (node_at grid start) -> is_Some (node_at grid end_) ->
  algorithm fuel grid start end_ = Return (false, path_length, st') ->
  node_at (st_grid st') start = node_at grid start
  /\ node_at (st_grid st') end_ = node_at grid end_
  /\ forall p, p <> start ->
       ((exists l, is_route grid start l p = true)
        /\ is_closed <$> node_at (st_grid st') p = Some true)
       \/ ((~ exists l, is_route grid start l p = true)
           /\ node_at (st_grid st') p = node_at grid p).
Proof.
  intros Hwf%well_formed_wf Href Hs He Hr.
  destruct (algorithm_final grid start end_ Hwf Href Hs He fuel _ _ _ Hr)
    as ((_ & _ & Hsc & _) & [Hst Hp] & Hhash & Hexp).
  assert (Hall : forall p, p <> start ->
       ((exists l, is_route grid start l p = true)
        /\ is_closed <$> node_at (st_grid st') p = Some true)
       \/ ((~ exists l, is_route grid start l p = true)
           /\ node_at (st_grid st') p = node_at grid p)).
  { intros p Hps. specialize (Hp p Hps ltac:(discriminate)).
    destruct (g_score st' !! p) as [gp|] eqn:Hgp; [destruct gp as [k|]|].
    - left. pose proof (sc_bound _ _ _ _ Hsc _ _ Hgp) as [Hk0 _].
      destruct (walk_exists grid start _ _ Hsc (Z.to_nat k) p k ltac:(lia) Hgp)
        as (l & l' & _ & _ & Hroute & _).
      split; [eauto|]. rewrite Hhash in Hp.
      rewrite decide_False in Hp by apply not_elem_of_empty.
      destruct (node_at (st_grid st') p) as [nd|]; [|discriminate].
      simpl in *. injection Hp as Hp. unfold is_closed. rewrite Hp. reflexivity.
    - right. split; [|exact Hp]. intros [l Hl].
      destruct (route_finite grid p _ l Hexp start 0 (sc_start _ _ _ _ Hsc) Hl)
        as [k' Hk']. congruence.
    - right. split; [|exact Hp]. intros [l Hl].
      destruct (route_finite grid p _ l Hexp start 0 (sc_start _ _ _ _ Hsc) Hl)
        as [k' Hk']. congruence. }
  split; [exact Hst|]. split; [|exact Hall].
  destruct (decide (end_ = start)) as [->|Hne]; [exact Hst|].
  destruct (Hall end_ Hne) as [[[l Hl] _]|[_ Hsame]]; [|exact Hsame].
  pose proof (algorithm_finds grid start end_ Hwf Href Hs He fuel l _ _ _ Hl Hr).
  discriminate.
Qed.

Lemma no_path_colors_witness :
  node_at (st_grid walled_final) (0, 0) = node_at walled_grid (0, 0)
  /\ node_at (st_grid walled_final) (0, 2) = node_at walled_grid (0, 2)
  /\ forall p, p <> (0, 0) ->
       ((exists l, is_route walled_grid (0, 0) l p = true)
        /\ is_closed <$> node_at (st_grid walled_final) p = Some true)
       \/ ((~ exists l, is_route walled_grid (0, 0) l p = true)
           /\ node_at (st_grid walled_final) p = node_at walled_grid p).
Proof.
  apply (no_path_colors walled_grid (0, 0) (0, 2) 20 0 walled_final).
  - vm_compute. reflexivity.
  - vm_compute. reflexivity.
  - eexists. vm_compute. reflexivity.
  - eexists. vm_compute. reflexivity.
  - vm_compute. reflexivity.
Defined.

(** X18: the picture a successful search leaves off the route: a cell
    other than the start cell, the end cell and the cells of the walk back
    is open if it still waits in [open_set_hash], closed if it has a
    finite [g_score] and has left it, and exactly as it was if its
    [g_score] is still infinite; a finite [g_score] is only ever given to
    a cell that a route leads to, so a cell out of reach is untouched. *)
Theorem found_colors (grid : Grid) (start end_ : ref) (fuel : nat)
    (path_length : Z) (st' : State) :
  well_formed grid = true -> refreshed grid = true ->
  is_Some (node_at grid start) -> is_Some (node_at grid end_) ->
  algorithm fuel grid start end_ = Return (true, path_length, st') ->
  exists preds,
    walk (came_from st') end_ preds
    /\ (forall p, p <> start -> p <> end_ -> p ∉ preds ->
          match g_score st' !! p with
          | Some (Fin _) =>
              color <$> node_at (st_grid st') p
              = Some (if decide (p ∈ open_set_hash st') then Color.OPEN
                      else Color.CLOSED)
          | _ => node_at (st_grid st') p = node_at grid p
          end)
    /\ (forall p k, g_score st' !! p = Some (Fin k) ->
          exists l, is_route grid start l p = true).
Proof.
  intros Hwf%well_formed_wf Href Hs He Hr.
  destruct (algorithm_final grid start end_ Hwf Href Hs He fuel _ _ _ Hr)
    as (st1 & l & k & (_ & _ & Hsc & _) & [_ Hp] & Hk & Hw & ->).
  exists l. cbn [final_state came_from g_score open_set_hash st_grid].
  split; [exact Hw|]. split.
  - intros p Hps Hpe Hpl. specialize (Hp p Hps ltac:(congruence)).
    assert (Hat : node_at
              (update_node (update_node (mark_path l (st_grid st1)) end_ make_end)
                 start make_start) p = node_at (st_grid st1) p).
    { rewrite !node_at_update_node, !decide_False by congruence.
      rewrite node_at_mark_path, decide_False by exact Hpl. reflexivity. }
    rewrite Hat. exact Hp.
  - intros p kp Hkp. pose proof (sc_bound _ _ _ _ Hsc _ _ Hkp) as [Hk0 _].
    destruct (walk_exists grid start _ _ Hsc (Z.to_nat kp) p kp ltac:(lia) Hkp)
      as (l1 & l' & _ & _ & Hroute & _). eauto.
Qed.

Lemma found_colors_witness :
  exists preds,
    walk (came_from field_final) (0, 2) preds
    /\ (forall p, p <> (0, 0) -> p <> (0, 2) -> p ∉ preds ->
          match g_score field_final !! p with
          | Some (Fin _) =>
              color <$> node_at (st_grid field_final) p
              = Some (if decide (p ∈ open_set_hash field_final) then Color.OPEN
                      else Color.CLOSED)
          | _ => node_at (st_grid field_final) p = node_at field_grid p
          end)
    /\ (forall p k, g_score field_final !! p = Some (Fin k) ->
          exists l, is_route field_grid (0, 0) l p = true).
Proof.
  apply (found_colors field_grid (0, 0) (0, 2) 20 3 field_final).
  - vm_compute. reflexivity.
  - vm_compute. reflexivity.
  - eexists. vm_compute. reflexivity.
  - eexists. vm_compute. reflexivity.
  - vm_compute. reflexivity.
Defined.

(** ** The queue never compares two cells *)

Lemma entry_ltb_spec (a b : entry) :
  entry_ltb a b = true <->
  num_ltb a.1.1 b.1.1 = true
  \/ (num_eqb a.1.1 b.1.1 = true /\ entry_count a < entry_count b).
Proof.
  destruct a as [[f1 c1] n1], b as [[f2 c2] n2]. unfold entry_ltb, entry_count. simpl.
  destruct (num_eqb f1 f2) eqn:Ef.
  - assert (Hnlt : num_ltb f1 f2 = false).
    { destruct f1, f2; simpl in *; try discriminate; try reflexivity.
      apply Z.eqb_eq in Ef. apply Z.ltb_ge. lia. }
    rewrite Hnlt. destruct (c1 =? c2) eqn:Ec.
    + apply Z.eqb_eq in Ec. unfold Node_lt. split; [discriminate|].
      intros [H|[_ H]]; [discriminate | lia].
    + rewrite Z.ltb_lt. split; [auto|]. intros [H|[_ H]]; [discriminate | exact H].
  - split; [auto|]. intros [H|[H _]]; [exact H | discriminate].
Qed.

Lemma num_order (f1 f2 : num) :
  (num_ltb f1 f2 = true /\ num_eqb f1 f2 = false /\ num_ltb f2 f1 = false)
  \/ (num_ltb f1 f2 = false /\ num_eqb f1 f2 = true /\ num_ltb f2 f1 = false
      /\ num_eqb f2 f1 = true)
  \/ (num_ltb f1 f2 = false /\ num_eqb f1 f2 = false /\ num_ltb f2 f1 = true).
Proof.
  destruct f1 as [x|], f2 as [y|]; simpl.
  - destruct (Z.lt_trichotomy x y) as [H|[H|H]].
    + left. rewrite (proj2 (Z.ltb_lt x y) H), (proj2 (Z.eqb_neq x y)) by lia.
      rewrite (proj2 (Z.ltb_ge y x)) by lia. auto.
    + right. left. subst y. rewrite Z.ltb_irrefl, Z.eqb_refl. auto.
    + right. right. rewrite (proj2 (Z.ltb_lt y x) H), (proj2 (Z.eqb_neq x y)) by lia.
      rewrite (proj2 (Z.ltb_ge x y)) by lia. auto.
  - left. auto.
  - right. right. auto.
  - right. left. auto.
Qed.

Lemma num_ltb_trans (f1 f2 f3 : num) :
  num_ltb f1 f2 = true -> num_ltb f2 f3 = true -> num_ltb f1 f3 = true.
Proof.
  destruct f1, f2, f3; simpl; try discriminate; try reflexivity.
  rewrite !Z.ltb_lt. lia.
Qed.

Lemma num_eqb_eq (f1 f2 : num) : num_eqb f1 f2 = true <-> f1 = f2.
Proof.
  destruct f1, f2; simpl; try (split; [discriminate | congruence]).
  - rewrite Z.eqb_eq. split; congruence.
  - tauto.
Qed.

Lemma entry_ltb_total (a b : entry) :
  entry_count a <> entry_count b -> entry_ltb a b = negb (entry_ltb b a).
Proof.
  intros Hne. pose proof (entry_ltb_spec a b) as Hab.
  pose proof (entry_ltb_spec b a) as Hba.
  destruct (num_order a.1.1 b.1.1) as [(H1 & H2 & H3)|[(H1 & H2 & H3 & H4)|(H1 & H2 & H3)]].
  - rewrite (proj2 Hab) by auto.
    destruct (entry_ltb b a); [|reflexivity].
    destruct (proj1 Hba eq_refl) as [H|[H _]]; [congruence|].
    apply num_eqb_eq in H. symmetry in H. apply num_eqb_eq in H. congruence.
  - destruct (Z.lt_trichotomy (entry_count a) (entry_count b)) as [H|[H|H]];
      [|contradiction|].
    + rewrite (proj2 Hab) by auto.
      destruct (entry_ltb b a); [|reflexivity].
      destruct (proj1 Hba eq_refl) as [H'|[_ H']]; [congruence | lia].
    + rewrite (proj2 Hba) by auto.
      destruct (entry_ltb a b); [|reflexivity].
      destruct (proj1 Hab eq_refl) as [H'|[_ H']]; [congruence | lia].
  - rewrite (proj2 Hba) by auto.
    destruct (entry_ltb a b); [|reflexivity].
    destruct (proj1 Hab eq_refl) as [H|[H _]]; congruence.
Qed.

Lemma entry_ltb_trans (a b c : entry) :
  entry_ltb a b = true -> entry_ltb b c = true -> entry_ltb a c = true.
Proof.
  rewrite !entry_ltb_spec.
  intros [H1|[H1 H1']] [H2|[H2 H2']].
  - left. eapply num_ltb_trans; eassumption.
  - left. apply num_eqb_eq in H2. rewrite <- H2. exact H1.
  - left. apply num_eqb_eq in H1. rewrite H1. exact H2.
  - right. apply num_eqb_eq in H1, H2. split; [apply num_eqb_eq; congruence | lia].
Qed.

Lemma NoDup_fmap_eq {A B : Type} (f : A -> B) (l : list A) (a b : A) :
  NoDup (f <$> l) -> a ∈ l -> b ∈ l -> f a = f b -> a = b.
Proof.
  intros Hnd [i Hi]%list_elem_of_lookup [j Hj]%list_elem_of_lookup Hf.
  assert (Hi' : (f <$> l) !! i = Some (f a)) by (rewrite list_lookup_fmap, Hi; reflexivity).
  assert (Hj' : (f <$> l) !! j = Some (f a))
    by (rewrite list_lookup_fmap, Hj, Hf; reflexivity).
  pose proof (NoDup_lookup _ _ _ _ Hnd Hi' Hj') as ->. congruence.
Qed.

(** With different counts, [get] returns the one entry that is below all
    others. *)
Lemma pq_get_least (q : list entry) :
  NoDup (entry_count <$> q) ->
  forall m rest, pq_get q = Some (m, rest) ->
    forall e, e ∈ rest -> entry_ltb m e = true.
Proof.
  induction q as [|x q IH]; intros Hnd m rest; simpl; [discriminate|].
  rewrite fmap_cons in Hnd. apply NoDup_cons in Hnd as [Hx Hnd].
  destruct (pq_get q) as [[m' rest']|] eqn:E.
  - pose proof (pq_get_perm _ _ _ E) as Hperm.
    assert (Hm' : m' ∈ q) by (rewrite Hperm; left).
    assert (Hxm : entry_count m' <> entry_count x).
    { intros Heq. apply Hx. rewrite <- Heq. apply list_elem_of_fmap. eauto. }
    destruct (entry_ltb m' x) eqn:Elt.
    + intros [= <- <-] e [->|He]%elem_of_cons; [exact Elt|].
      apply (IH Hnd _ _ eq_refl), He.
    + intros [= <- <-] e He.
      assert (Hlt : entry_ltb x m' = true).
      { rewrite (entry_ltb_total x m') by congruence. rewrite Elt. reflexivity. }
      rewrite Hperm in He. apply elem_of_cons in He as [->|He]; [exact Hlt|].
      eapply entry_ltb_trans; [exact Hlt|]. apply (IH Hnd _ _ eq_refl), He.
  - intros [= <- <-] e He. inversion He.
Qed.

Lemma counts_ok_push (os : list entry) (cnt : Z) (f : num) (p : ref) :
  counts_ok os cnt -> counts_ok (pq_put (f, cnt + 1, p) os) (cnt + 1).
Proof.
  intros [Hnd Hle]. unfold pq_put. split.
  - rewrite fmap_app. apply NoDup_app. split; [exact Hnd|]. split.
    + intros c Hc [->|H]%elem_of_cons; [|inversion H].
      apply list_elem_of_fmap in Hc as (e & He & Hin).
      rewrite Forall_forall in Hle. specialize (Hle e Hin).
      unfold entry_count in *. simpl in *. lia.
    + apply NoDup_singleton.
  - apply Forall_app. split.
    + eapply Forall_impl; [exact Hle|]. intros e He. simpl in *. lia.
    + constructor; [|constructor]. unfold entry_count. simpl. lia.
Qed.

Lemma counts_ok_pop (os : list entry) (cnt : Z) (m : entry) (rest : list entry) :
  counts_ok os cnt -> pq_get os = Some (m, rest) -> counts_ok rest cnt.
Proof.
  intros [Hnd Hle] Hget. pose proof (pq_get_perm _ _ _ Hget) as Hperm.
  rewrite Hperm in Hnd, Hle. rewrite fmap_cons in Hnd.
  apply NoDup_cons in Hnd as [_ Hnd]. apply Forall_cons in Hle as [_ Hle].
  split; assumption.
Qed.

Lemma relax_counts (cur end_ nb : ref) (st st' : State) :
  counts_ok (open_set st) (count st) ->
  relax cur end_ nb st = Some st' ->
  counts_ok (open_set st') (count st').
Proof.
  intros Hok. unfold relax.
  destruct (g_score st !! cur) as [gc|]; [|discriminate].
  cbn -[num_ltb heuristic get_pos pq_put].
  destruct (g_score st !! nb) as [gn|]; [|discriminate].
  cbn -[num_ltb heuristic get_pos pq_put].
  destruct (num_ltb (num_add gc 1) gn); [|intros [= <-]; exact Hok].
  destruct (node_at (st_grid st) nb) as [nnode|]; [|discriminate].
  cbn -[heuristic get_pos pq_put].
  destruct (node_at (st_grid st) end_) as [enode|]; [|discriminate].
  cbn -[heuristic get_pos pq_put].
  destruct (decide (nb ∈ open_set_hash st)); intros [= <-]; cbn [open_set count].
  - exact Hok.
  - apply counts_ok_push, Hok.
Qed.

Lemma for_neighbors_counts (cur end_ : ref) (l : list ref) :
  forall st st',
    counts_ok (open_set st) (count st) ->
    for_neighbors cur end_ l st = Some st' ->
    counts_ok (open_set st') (count st').
Proof.
  induction l as [|nb l IH]; intros st st' Hok; simpl.
  - intros [= <-]. exact Hok.
  - destruct (relax cur end_ nb st) as [st1|] eqn:Hr; [|discriminate]. simpl.
    apply IH. eapply relax_counts; eassumption.
Qed.

Lemma expand_counts (start end_ cur : ref) (st st' : State) :
  counts_ok (open_set st) (count st) ->
  expand start end_ cur st = Some st' ->
  counts_ok (open_set st') (count st').
Proof.
  intros Hok. unfold expand.
  destruct (node_at (st_grid st) cur) as [cnode|]; [|discriminate]. simpl.
  destruct (for_neighbors cur end_ (neighbors cnode) st) as [st1|] eqn:Hf;
    [|discriminate].
  simpl. intros [= <-]. cbn [open_set count].
  eapply for_neighbors_counts; eassumption.
Qed.

Lemma loop_head_counts (grid : Grid) (start end_ : ref) (st0 st : State) :
  init grid start end_ = Some st0 ->
  loop_head start end_ st0 st ->
  counts_ok (open_set st) (count st).
Proof.
  intros Hinit Hhead. induction Hhead as [|st f c cur rest st2 _ IH Hget _ _ Hexp].
  - unfold init in Hinit. destruct (node_at grid start); [|discriminate].
    cbn -[heuristic] in Hinit. destruct (node_at grid end_); [|discriminate].
    cbn -[heuristic] in Hinit. injection Hinit as <-. cbn [open_set count].
    split.
    + apply NoDup_singleton.
    + constructor; [|constructor]. unfold entry_count. simpl. lia.
  - eapply expand_counts; [|exact Hexp]. cbn [open_set count].
    eapply counts_ok_pop; eassumption.
Qed.

(** A search that returns took its last entry from the queue of such a
    state: [loop] passes through the states of [loop_head] only. *)
Lemma loop_head_run (rfuel : nat) (start end_ : ref) (n : Z) (st0 : State)
    (fuel : nat) :
  forall st b L st',
    loop_head start end_ st0 st ->
    loop fuel rfuel start end_ n st = Return (b, L, st') ->
    exists last,
      loop_head start end_ st0 last
      /\ ((b = false /\ st' = last /\ open_set last = [])
          \/ (b = true /\ exists f c rest,
                pq_get (open_set last) = Some ((f, c, end_), rest)
                /\ open_set st' = rest)).
Proof.
  induction fuel as [|fuel IH]; intros st b L st' Hhead; simpl; [discriminate|].
  destruct (pq_get (open_set st)) as [[[[f c] cur] rest]|] eqn:Hget.
  2:{ intros [= <- <- <-]. exists st. split; [exact Hhead|]. left.
      apply pq_get_None in Hget. auto. }
  destruct (decide (cur ∈ open_set_hash st)) as [Hin|]; [|discriminate].
  destruct (ref_eqb cur end_) eqn:E.
  - apply ref_eqb_eq in E. subst cur. unfold finish.
    match goal with |- context [reconstruct_path ?a ?b ?c ?d ?e] =>
      destruct (reconstruct_path a b c d e) as [[[k g'] dr]| |] end;
      try discriminate.
    intros [= <- <- <-]. exists st. split; [exact Hhead|]. right.
    split; [reflexivity|]. exists f, c, rest. split; [exact Hget | reflexivity].
  - match goal with |- context [expand start end_ cur ?s] =>
      destruct (expand start end_ cur s) as [st2|] eqn:Hexp end; [|discriminate].
    apply IH. eapply head_next; eassumption.
Qed.

(** X19: the queue never has to compare two cells.  At the head of every
    pass of the search loop the entries of [open_set] carry pairwise
    different counts, so the order of two entries is decided by their
    [(f_score, count)] parts and [Node.__lt__] is not consulted; the order
    is total on them, and [get] returns the one entry below all others. *)
Theorem queue_never_compares_nodes (grid : Grid) (start end_ : ref) (st0 st : State) :
  init grid start end_ = Some st0 ->
  loop_head start end_ st0 st ->
  (forall a b, a ∈ open_set st -> b ∈ open_set st -> a <> b ->
     entry_count a <> entry_count b
     /\ entry_ltb a b = (if num_eqb a.1.1 b.1.1 then entry_count a <? entry_count b
                         else num_ltb a.1.1 b.1.1)
     /\ entry_ltb a b = negb (entry_ltb b a))
  /\ (forall m rest, pq_get (open_set st) = Some (m, rest) ->
        forall e, e ∈ rest -> entry_ltb m e = true).
Proof.
  intros Hinit Hhead.
  destruct (loop_head_counts grid start end_ st0 st Hinit Hhead) as [Hnd _].
  split; [|apply pq_get_least, Hnd].
  intros a b Ha Hb Hab.
  assert (Hc : entry_count a <> entry_count b).
  { intros Heq. apply Hab. eapply NoDup_fmap_eq; eassumption. }
  split; [exact Hc|]. split; [|apply entry_ltb_total, Hc].
  destruct a as [[f1 c1] n1], b as [[f2 c2] n2]. unfold entry_ltb, entry_count in *.
  simpl in *. rewrite (proj2 (Z.eqb_neq c1 c2) Hc). reflexivity.
Qed.

Lemma queue_never_compares_nodes_witness :
  (forall a b, a ∈ open_set pair_second -> b ∈ open_set pair_second -> a <> b ->
     entry_count a <> entry_count b
     /\ entry_ltb a b = (if num_eqb a.1.1 b.1.1 then entry_count a <? entry_count b
                         else num_ltb a.1.1 b.1.1)
     /\ entry_ltb a b = negb (entry_ltb b a))
  /\ (forall m rest, pq_get (open_set pair_second) = Some (m, rest) ->
        forall e, e ∈ rest -> entry_ltb m e = true).
Proof.
  apply (queue_never_compares_nodes pair_grid (0, 0) (0, 1) pair_init pair_second).
  - vm_compute. reflexivity.
  - apply (head_next (0, 0) (0, 1) pair_init pair_init (Fin 0) 0 (0, 0) []).
    + apply head_first.
    + vm_compute. reflexivity.
    + vm_compute. reflexivity.
    + reflexivity.
    + vm_compute. reflexivity.
Defined.

(** ** The event loop of [main] *)

Lemma same_node_spec (grid : Grid) (q : ref) (o : option ref) :
  wf grid -> is_Some (node_at grid q) ->
  (forall p, o = Some p -> is_Some (node_at grid p)) ->
  same_node grid q o = bool_decide (o = Some q).
Proof.
  intros Hwf [a Ha] Ho. destruct o as [p|]; simpl; [|reflexivity].
  destruct (Ho p eq_refl) as [b Hb]. rewrite Ha, Hb.
  pose proof (Node_eq_same_cell grid q p a b Hwf Ha Hb) as Heq.
  destruct (decide (q = p)) as [->|Hne].
  - rewrite bool_decide_eq_true_2 by reflexivity. apply Heq. reflexivity.
  - rewrite bool_decide_eq_false_2 by congruence.
    destruct (Node_eq a b); [|reflexivity]. exfalso. apply Hne, Heq. reflexivity.
Qed.

Lemma role_is_Some (f : Node -> bool) (grid : Grid) (p : ref) :
  f <$> node_at grid p = Some true -> is_Some (node_at grid p).
Proof.
  destruct (node_at grid p); [eauto | discriminate].
Qed.

Lemma is_start_passable (grid : Grid) (p : ref) :
  is_start <$> node_at grid p = Some true -> passable grid p = true.
Proof.
  unfold passable. destruct (node_at grid p) as [nd|]; [|discriminate].
  simpl. intros [= H]. unfold is_start, is_barrier in *.
  apply rgb_eqb_eq in H. rewrite H. reflexivity.
Qed.

Lemma roles_differ (grid : Grid) (p : ref) :
  is_start <$> node_at grid p = Some true ->
  is_end <$> node_at grid p = Some true -> False.
Proof.
  destruct (node_at grid p) as [nd|]; [|discriminate].
  simpl. unfold is_start, is_end. intros [= H1] [= H2].
  apply rgb_eqb_eq in H1, H2. rewrite H1 in H2. discriminate.
Qed.

Lemma role_color_eq (c : rgb) (a b : option Node) :
  color <$> a = color <$> b ->
  (fun nd => rgb_eqb (color nd) c) <$> a = (fun nd => rgb_eqb (color nd) c) <$> b.
Proof.
  destruct a, b; simpl; try discriminate; [|reflexivity].
  intros [= ->]. reflexivity.
Qed.

Lemma app_ok_update (rows : Z) (grid : Grid) (p : ref) (c : rgb) :
  wf grid -> Z.of_nat (length grid) = rows ->
  well_formed (update_node grid p (set_color c)) = true
  /\ Z.of_nat (length (update_node grid p (set_color c))) = rows.
Proof.
  intros Hwf Hlen. split.
  - apply wf_well_formed, wf_update_node; [|exact Hwf].
    intros nd _. apply set_color_fields.
  - rewrite length_update_node. exact Hlen.
Qed.

(** Painting one cell keeps what [main] keeps true, as long as a cell that
    is or becomes the start or end cell ends with the colour of its
    role. *)
Lemma app_ok_paint (rows : Z) (app : App) (q : ref) (c : rgb)
    (start' end' : option ref) :
  app_ok rows app -> is_Some (node_at (app_grid app) q) ->
  (forall s, start' = Some s ->
     (s = q /\ c = Color.START) \/ (s <> q /\ app_start app = Some s)) ->
  (forall e, end' = Some e ->
     (e = q /\ c = Color.END) \/ (e <> q /\ app_end app = Some e)) ->
  app_ok rows
    (mkApp (update_node (app_grid app) q (set_color c)) start' end'
       (app_path_length app) (app_run app) (app_caption app)).
Proof.
  intros (Hwf%well_formed_wf & Hlen & Hs & He & Hne) [nd Hq] Hs' He'.
  destruct (app_ok_update rows _ q c Hwf Hlen) as [Hwf' Hlen'].
  assert (Hs2 : forall s, start' = Some s ->
            is_start <$> node_at (update_node (app_grid app) q (set_color c)) s
            = Some true).
  { intros s Hss. destruct (Hs' s Hss) as [[-> ->]|[Hsq Hold]].
    - rewrite node_at_update_node, decide_True by reflexivity. rewrite Hq. reflexivity.
    - rewrite node_at_update_node, decide_False by congruence. apply Hs, Hold. }
  assert (He2 : forall e, end' = Some e ->
            is_end <$> node_at (update_node (app_grid app) q (set_color c)) e
            = Some true).
  { intros e Hee. destruct (He' e Hee) as [[-> ->]|[Heq Hold]].
    - rewrite node_at_update_node, decide_True by reflexivity. rewrite Hq. reflexivity.
    - rewrite node_at_update_node, decide_False by congruence. apply He, Hold. }
  unfold app_ok. cbn [app_grid app_start app_end].
  split; [exact Hwf'|]. split; [exact Hlen'|]. split; [exact Hs2|]. split; [exact He2|].
  intros s e Hss Hee ->. exact (roles_differ _ _ (Hs2 _ Hss) (He2 _ Hee)).
Qed.

Lemma click_target_ok (rows width : Z) (pos : Z * Z) (grid : Grid) :
  wf grid -> Z.of_nat (length grid) = rows -> 0 < width / rows ->
  0 <= pos.1 < rows * (width / rows) -> 0 <= pos.2 < rows * (width / rows) ->
  click_target rows width pos grid = Some (pos.1 / (width / rows), pos.2 / (width / rows))
  /\ is_Some (node_at grid (pos.1 / (width / rows), pos.2 / (width / rows))).
Proof.
  intros Hwf Hlen Hgap Hy Hx. destruct pos as [y x]. simpl in *.
  assert (Hrows : rows <> 0).
  { intros ->. rewrite Z.div_0_r in Hgap. lia. }
  set (gap := width / rows) in *.
  assert (Hb : in_bounds grid (y / gap, x / gap)).
  { unfold in_bounds. simpl. rewrite Hlen.
    pose proof (Z.div_pos y gap ltac:(lia) Hgap).
    pose proof (Z.div_pos x gap ltac:(lia) Hgap).
    pose proof (Z.div_lt_upper_bound y gap rows Hgap ltac:(lia)).
    pose proof (Z.div_lt_upper_bound x gap rows Hgap ltac:(lia)). lia. }
  pose proof (proj2 (wf_node_at grid _ Hwf) Hb) as Hsome.
  split; [|exact Hsome].
  unfold click_target, get_clicked_pos.
  rewrite (proj2 (Z.eqb_neq rows 0) Hrows). fold gap.
  rewrite (proj2 (Z.eqb_neq gap 0)) by lia. cbn [mbind option_bind].
  rewrite (grid_item_in_bounds grid _ _ Hwf Hb).
  destruct Hsome as [nd ->]. reflexivity.
Qed.

Lemma left_click_ok (rows : Z) (q : ref) (app : App) :
  app_ok rows app -> is_Some (node_at (app_grid app) q) ->
  app_ok rows (left_click q app).
Proof.
  intros Hok Hq. pose proof Hok as (Hwf%well_formed_wf & Hlen & Hs & He & Hne).
  unfold left_click.
  rewrite (same_node_spec _ q (app_end app) Hwf Hq)
    by (intros p Hp; eapply role_is_Some, He, Hp).
  rewrite (same_node_spec _ q (app_start app) Hwf Hq)
    by (intros p Hp; eapply role_is_Some, Hs, Hp).
  destruct (unset (app_start app) && negb (bool_decide (app_end app = Some q))) eqn:E1.
  { apply andb_true_iff in E1 as [E1 E2].
    apply negb_true_iff, bool_decide_eq_false in E2.
    apply (app_ok_paint rows app q Color.START (Some q) (app_end app) Hok Hq).
    - intros s [= <-]. left. auto.
    - intros e Hee. right. split; [congruence | exact Hee]. }
  destruct (unset (app_end app) && negb (bool_decide (app_start app = Some q))) eqn:E2.
  { apply andb_true_iff in E2 as [E2 E3].
    apply negb_true_iff, bool_decide_eq_false in E3.
    apply (app_ok_paint rows app q Color.END (app_start app) (Some q) Hok Hq).
    - intros s Hss. right. split; [congruence | exact Hss].
    - intros e [= <-]. left. auto. }
  destruct (negb (bool_decide (app_end app = Some q))
            && negb (bool_decide (app_start app = Some q))) eqn:E3; [|exact Hok].
  apply andb_true_iff in E3 as [E3 E4].
  apply negb_true_iff, bool_decide_eq_false in E3, E4.
  apply (app_ok_paint rows app q Color.BARRIER (app_start app) (app_end app) Hok Hq).
  - intros s Hss. right. split; [congruence | exact Hss].
  - intros e Hee. right. split; [congruence | exact Hee].
Qed.

Lemma is_Some_update_node (grid : Grid) (p q : ref) (f : Node -> Node) :
  is_Some (node_at (update_node grid p f) q) <-> is_Some (node_at grid q).
Proof.
  rewrite node_at_update_node. case_decide as E; [|reflexivity].
  subst q. apply fmap_is_Some.
Qed.

Lemma right_click_ok (rows : Z) (q : ref) (app : App) :
  app_ok rows app -> is_Some (node_at (app_grid app) q) ->
  app_ok rows (right_click q app).
Proof.
  intros Hok Hq. pose proof Hok as (Hwf%well_formed_wf & Hlen & Hs & He & Hne).
  unfold right_click.
  destruct (app_ok_update rows _ q Color.WHITE Hwf Hlen) as [Hwf' _].
  fold reset in Hwf'.
  assert (Hq' : is_Some (node_at (update_node (app_grid app) q reset) q))
    by (apply is_Some_update_node, Hq).
  rewrite (same_node_spec _ q (app_start app) (well_formed_wf _ Hwf') Hq')
    by (intros p Hp; apply is_Some_update_node; eapply role_is_Some, Hs, Hp).
  rewrite (same_node_spec _ q (app_end app) (well_formed_wf _ Hwf') Hq')
    by (intros p Hp; apply is_Some_update_node; eapply role_is_Some, He, Hp).
  destruct (bool_decide (app_start app = Some q)) eqn:E1.
  { apply bool_decide_eq_true in E1.
    apply (app_ok_paint rows app q Color.WHITE None (app_end app) Hok Hq).
    - discriminate.
    - intros e Hee. right. split; [|exact Hee]. intros ->.
      exact (Hne _ _ E1 Hee eq_refl). }
  apply bool_decide_eq_false in E1.
  destruct (bool_decide (app_end app = Some q)) eqn:E2.
  { apply (app_ok_paint rows app q Color.WHITE (app_start app) None Hok Hq).
    - intros s Hss. right. split; [congruence | exact Hss].
    - discriminate. }
  apply bool_decide_eq_false in E2.
  apply (app_ok_paint rows app q Color.WHITE (app_start app) (app_end app) Hok Hq).
  - intros s Hss. right. split; [congruence | exact Hss].
  - intros e Hee. right. split; [congruence | exact Hee].
Qed.

Lemma passable_barrier_eq (g g' : Grid) (p : ref) :
  is_barrier <$> node_at g p = is_barrier <$> node_at g' p ->
  passable g p = passable g' p.
Proof.
  unfold passable. destruct (node_at g p), (node_at g' p); simpl; congruence.
Qed.

(** What a search started from [main] finds and leaves. *)
Lemma press_space_facts (rows : Z) (fuel : nat) (app : App) (s e : ref)
    (grid : Grid) (found : bool) (path_length : Z) (st : State) :
  app_ok rows app ->
  app_start app = Some s -> app_end app = Some e ->
  refresh_all (app_grid app) = Some grid ->
  algorithm fuel grid s e = Return (found, path_length, st) ->
  wf grid /\ refreshed grid = true
  /\ is_Some (node_at grid s) /\ is_Some (node_at grid e)
  /\ (forall q, passable grid q = passable (app_grid app) q)
  /\ (forall q, passable (st_grid st) q = passable (app_grid app) q)
  /\ wf (st_grid st) /\ Z.of_nat (length (st_grid st)) = rows
  /\ is_start <$> node_at (st_grid st) s = Some true
  /\ is_end <$> node_at (st_grid st) e = Some true.
Proof.
  intros (Hwf%well_formed_wf & Hlen & Hs & He & Hne) Es Ee Hrefresh Hr.
  destruct (refresh_all_refreshed _ Hwf)
    as (g1 & Hrun & Hwf1 & Href & Hlen1 & Hcol & Hpass).
  rewrite Hrefresh in Hrun. injection Hrun as <-.
  assert (Hs1c : is_start <$> node_at grid s = Some true).
  { rewrite <- (Hs s Es). apply (role_color_eq Color.START), Hcol. }
  assert (He1c : is_end <$> node_at grid e = Some true).
  { rewrite <- (He e Ee). apply (role_color_eq Color.END), Hcol. }
  pose proof (is_start_passable _ _ Hs1c) as Hs1.
  pose proof (role_is_Some _ _ _ Hs1c) as Hss.
  pose proof (role_is_Some _ _ _ He1c) as Hes.
  assert (Hse : s <> e) by (apply Hne; assumption).
  split; [exact Hwf1|]. split; [exact Href|]. split; [exact Hss|]. split; [exact Hes|].
  split; [exact Hpass|].
  pose proof (algorithm_post grid s e Hwf1 Href Hss Hes fuel _ _ _ Hr) as Hpost.
  pose proof (post_recolored _ _ _ _ _ _ Hpost) as Hrec.
  apply Forall_cons in Hrec as [Hrec _].
  destruct (recolored_barriers grid s _ Hs1 Hrec) as [Hbar _].
  destruct (repainted_wf _ _ (algorithm_repainted _ _ _ _ _ _ _ Hr) Hwf1) as [Hwf2 Hlen2].
  split; [|split; [exact Hwf2 | split; [lia|]]].
  { intros q. rewrite <- Hpass. apply passable_barrier_eq, Hbar. }
  destruct found.
  - destruct Hpost as (st1 & l & l' & _ & _ & _ & _ & _ & _ & -> & Hg1 & _).
    cbn [final_state st_grid].
    assert (Hvalid : forall p, is_Some (node_at grid p) ->
              is_Some (node_at (mark_path l (st_grid st1)) p)).
    { intros p Hp. apply is_Some_mark_path. eapply recolored_Some; eassumption. }
    split.
    + rewrite node_at_update_node, decide_True by reflexivity.
      rewrite node_at_update_node, decide_False by congruence.
      destruct (Hvalid s Hss) as [nd ->]. reflexivity.
    + rewrite node_at_update_node, decide_False by exact Hse.
      rewrite node_at_update_node, decide_True by reflexivity.
      destruct (Hvalid e Hes) as [nd ->]. reflexivity.
  - destruct (algorithm_final grid s e Hwf1 Href Hss Hes fuel _ _ _ Hr)
      as ((_ & _ & Hsc & _) & [Hst Hp] & _ & _).
    split; [rewrite Hst; exact Hs1c|].
    assert (Hes' : e <> s) by congruence.
    specialize (Hp e Hes' ltac:(discriminate)).
    destruct (g_score st !! e) as [ge|] eqn:Hge; [destruct ge as [k|]|];
      try (rewrite Hp; exact He1c).
    exfalso. pose proof (sc_bound _ _ _ _ Hsc _ _ Hge) as [Hk0 _].
    destruct (walk_exists grid s _ _ Hsc (Z.to_nat k) e k ltac:(lia) Hge)
      as (l & l' & _ & _ & Hroute & _).
    pose proof (algorithm_finds grid s e Hwf1 Href Hss Hes fuel l' _ _ _ Hroute Hr).
    discriminate.
Qed.

Lemma press_space_run (rows : Z) (fuel : nat) (app : App) (s e : ref) :
  app_ok rows app -> (fuel_for rows <= fuel)%nat ->
  app_start app = Some s -> app_end app = Some e ->
  exists grid found path_length st,
    refresh_all (app_grid app) = Some grid
    /\ algorithm fuel grid s e = Return (found, path_length, st)
    /\ wf grid /\ refreshed grid = true
    /\ is_Some (node_at grid s) /\ is_Some (node_at grid e)
    /\ (forall q, passable grid q = passable (app_grid app) q)
    /\ (forall q, passable (st_grid st) q = passable (app_grid app) q)
    /\ wf (st_grid st) /\ Z.of_nat (length (st_grid st)) = rows
    /\ is_start <$> node_at (st_grid st) s = Some true
    /\ is_end <$> node_at (st_grid st) e = Some true.
Proof.
  intros Hok Hfuel Es Ee.
  pose proof Hok as (Hwf%well_formed_wf & Hlen & Hs & He & Hne).
  destruct (refresh_all_refreshed _ Hwf)
    as (g1 & Hrun & Hwf1 & Href & Hlen1 & Hcol & Hpass).
  assert (Hss : is_Some (node_at g1 s)).
  { apply (role_is_Some is_start). rewrite <- (Hs s Es).
    apply (role_color_eq Color.START), Hcol. }
  assert (Hes : is_Some (node_at g1 e)).
  { apply (role_is_Some is_end). rewrite <- (He e Ee).
    apply (role_color_eq Color.END), Hcol. }
  destruct (algorithm_returns g1 s e Hwf1 Href Hss Hes fuel) as [[[b L] st'] Hr].
  { apply enough_fuel_cells; [exact Hss|].
    rewrite (enough_fuel_rows g1 rows Hwf1) by lia. exact Hfuel. }
  exists g1, b, L, st'. split; [exact Hrun|]. split; [exact Hr|].
  exact (press_space_facts rows fuel app s e g1 b L st' Hok Es Ee Hrun Hr).
Qed.

Lemma main_init_ok (rows width : Z) :
  0 < rows ->
  exists app, main_init rows width = Some app /\ app_ok rows app
    /\ app_start app = None /\ app_end app = None /\ app_run app = true.
Proof.
  intros Hrows. unfold main_init.
  destruct (make_grid_cells rows width ltac:(lia)) as (grid & -> & Hwf & Hlen & _).
  eexists. split; [reflexivity|]. split; [|auto].
  unfold app_ok. cbn [app_grid app_start app_end].
  split; [apply wf_well_formed, Hwf|]. split; [lia|]. repeat split; discriminate.
Qed.

Lemma press_c_ok (rows width : Z) (app : App) :
  0 < rows ->
  exists app', press_c rows width app = Return app' /\ app_ok rows app'.
Proof.
  intros Hrows. unfold press_c.
  destruct (main_init_ok rows width Hrows) as (app0 & Hinit & Hok & _).
  unfold main_init in Hinit.
  destruct (make_grid rows width) as [grid|]; [|discriminate].
  simpl in Hinit. injection Hinit as <-. eexists. split; [reflexivity|]. exact Hok.
Qed.

Lemma is_route_passable_ext (g g' : Grid) (l : list ref) :
  (forall q, passable g q = passable g' q) ->
  forall p q, is_route g p l q = is_route g' p l q.
Proof.
  intros Hpass. induction l as [|x l IH]; intros p q; simpl; [reflexivity|].
  unfold step. rewrite Hpass, IH. reflexivity.
Qed.

Lemma click_target_outside (rows width : Z) (pos : Z * Z) (grid : Grid) :
  wf grid -> Z.of_nat (length grid) = rows -> 0 < width / rows ->
  0 <= pos.1 -> 0 <= pos.2 ->
  ~ (pos.1 < rows * (width / rows) /\ pos.2 < rows * (width / rows)) ->
  click_target rows width pos grid = None.
Proof.
  intros [Hshape _] Hlen Hgap Hy Hx Hout. destruct pos as [y x]. simpl in *.
  assert (Hrows : rows <> 0).
  { intros ->. rewrite Z.div_0_r in Hgap. lia. }
  unfold click_target, get_clicked_pos.
  rewrite (proj2 (Z.eqb_neq rows 0) Hrows).
  set (gap := width / rows) in *.
  rewrite (proj2 (Z.eqb_neq gap 0)) by lia. cbn [mbind option_bind].
  pose proof (Z.div_pos y gap Hy Hgap) as Hr0.
  pose proof (Z.div_pos x gap Hx Hgap) as Hc0.
  unfold grid_item, py_index.
  replace (0 <=? y / gap) with true by (symmetry; apply Z.leb_le; lia).
  destruct (y / gap <? Z.of_nat (length grid)) eqn:Hr; cbn [andb].
  - apply Z.ltb_lt in Hr. cbn [mbind option_bind].
    destruct (grid !! Z.to_nat (y / gap)) as [rowl|] eqn:Hrow; [|reflexivity].
    cbn [mbind option_bind].
    rewrite Forall_lookup in Hshape. rewrite (Hshape _ _ Hrow).
    replace (0 <=? x / gap) with true by (symmetry; apply Z.leb_le; lia).
    assert (Hc : rows <= x / gap).
    { apply Z.div_le_lower_bound; [exact Hgap|].
      assert (y < rows * gap); [|lia].
      pose proof (Z.mul_div_le y gap Hgap).
      pose proof (Z.mod_pos_bound y gap Hgap). pose proof (Z.div_mod y gap). nia. }
    replace (x / gap <? Z.of_nat (length grid)) with false
      by (symmetry; apply Z.ltb_ge; lia).
    replace (x / gap <? 0) with false by (symmetry; apply Z.ltb_ge; lia).
    rewrite !andb_false_r. reflexivity.
  - replace (y / gap <? 0) with false by (symmetry; apply Z.ltb_ge; lia).
    rewrite andb_false_r. reflexivity.
Qed.

Lemma py_index_range {A : Type} (l : list A) (i k : Z) :
  py_index l i = Some k -> 0 <= k < Z.of_nat (length l).
Proof.
  unfold py_index.
  destruct ((0 <=? i) && (i <? Z.of_nat (length l))) eqn:E1.
  - apply andb_true_iff in E1 as [H1 H2]. apply Z.leb_le in H1. apply Z.ltb_lt in H2.
    intros [= <-]. lia.
  - destruct ((- Z.of_nat (length l) <=? i) && (i <? 0)) eqn:E2; [|discriminate].
    apply andb_true_iff in E2 as [H1 H2]. apply Z.leb_le in H1. apply Z.ltb_lt in H2.
    intros [= <-]. lia.
Qed.

(** The cell a click is mapped to is a cell of the grid. *)
Lemma click_target_Some (rows width : Z) (pos : Z * Z) (grid : Grid) (q : ref) :
  click_target rows width pos grid = Some q -> is_Some (node_at grid q).
Proof.
  unfold click_target.
  destruct (get_clicked_pos pos rows width) as [[r c]|]; [|discriminate].
  cbn [mbind option_bind]. unfold grid_item.
  destruct (py_index grid r) as [i|] eqn:Hi; [|discriminate]. cbn [mbind option_bind].
  destruct (grid !! Z.to_nat i) as [rowl|] eqn:Hrow; [|discriminate].
  cbn [mbind option_bind].
  destruct (py_index rowl c) as [j|] eqn:Hj; [|discriminate]. cbn [mbind option_bind].
  destruct (rowl !! Z.to_nat j) as [nd|] eqn:Hnd; [|discriminate].
  cbn [mbind option_bind]. intros [= <-].
  apply py_index_range in Hi, Hj. unfold node_at. cbn [fst snd].
  rewrite (proj2 (Z.leb_le 0 i)), (proj2 (Z.leb_le 0 j)) by lia.
  cbn [andb]. rewrite Hrow. cbn [mbind option_bind]. rewrite Hnd. eauto.
Qed.

Lemma handle_event_inv (fuel : nat) (rows width : Z) (ev : Event) (app app' : App) :
  app_ok rows app ->
  handle_event fuel rows width ev app = Return app' ->
  app_ok rows app'.
Proof.
  intros Hok. unfold handle_event.
  set (app1 := match ev_type ev with
               | QUIT => mkApp (app_grid app) (app_start app) (app_end app)
                           (app_path_length app) false (app_caption app)
               | _ => app
               end).
  assert (Hok1 : app_ok rows app1).
  { unfold app1. destruct (ev_type ev); exact Hok. }
  clearbody app1.
  set (clicked := if left_pressed ev then _ else _).
  assert (Hclick : forall app2, clicked = Return app2 -> app_ok rows app2).
  { intros app2. unfold clicked.
    destruct (left_pressed ev); [|destruct (right_pressed ev)].
    - destruct (click_target rows width (mouse_pos ev) (app_grid app1)) as [q|] eqn:Hq;
        [|discriminate].
      intros [= <-]. apply left_click_ok; [exact Hok1|].
      eapply click_target_Some, Hq.
    - destruct (click_target rows width (mouse_pos ev) (app_grid app1)) as [q|] eqn:Hq;
        [|discriminate].
      intros [= <-]. apply right_click_ok; [exact Hok1|].
      eapply click_target_Some, Hq.
    - intros [= <-]. exact Hok1. }
  destruct clicked as [app2| |]; try discriminate.
  specialize (Hclick app2 eq_refl).
  destruct (ev_type ev) as [|[| |]|]; try (intros [= <-]; exact Hclick).
  - unfold press_space.
    destruct (app_start app2) as [s|] eqn:Es; [|intros [= <-]; exact Hclick].
    destruct (app_end app2) as [e|] eqn:Ee; [|intros [= <-]; exact Hclick].
    destruct (refresh_all (app_grid app2)) as [g1|] eqn:Hrefresh; [|discriminate].
    destruct (algorithm fuel g1 s e) as [[[found L] st]| |] eqn:Hr; try discriminate.
    intros [= <-].
    destruct (press_space_facts rows fuel app2 s e g1 found L st Hclick Es Ee Hrefresh Hr)
      as (_ & _ & _ & _ & _ & _ & Hwf2 & Hlen2 & Hs2 & He2).
    destruct Hclick as (_ & _ & _ & _ & Hne).
    unfold app_ok. cbn [app_grid app_start app_end].
    split; [apply wf_well_formed, Hwf2|]. split; [exact Hlen2|]. split; [|split].
    + intros s' [= <-]. exact Hs2.
    + intros e' [= <-]. exact He2.
    + intros s' e' [= <-] [= <-]. apply Hne; assumption.
  - intros Hc. assert (Hrows : 0 < rows).
    { destruct Hclick as (_ & Hlen & _). unfold press_c in Hc.
      destruct (Z.eq_dec rows 0) as [->|Hne]; [discriminate Hc | lia]. }
    destruct (press_c_ok rows width app2 Hrows) as (app3 & Hrun & Hok3).
    rewrite Hrun in Hc. injection Hc as <-. exact Hok3.
Qed.

Lemma handle_events_inv (fuel : nat) (rows width : Z) (evs : list Event) :
  forall app app',
    app_ok rows app ->
    handle_events fuel rows width evs app = Return app' ->
    app_ok rows app'.
Proof.
  induction evs as [|ev evs IH]; intros app app' Hok; simpl.
  - intros [= <-]. exact Hok.
  - destruct (handle_event fuel rows width ev app) as [app1| |] eqn:Hev;
      try discriminate.
    apply IH. eapply handle_event_inv; eassumption.
Qed.

Lemma main_loop_inv (fuel : nat) (rows width : Z) (frames : list (list Event)) :
  forall app app',
    app_ok rows app ->
    main_loop fuel rows width frames app = Return app' ->
    app_ok rows app'.
Proof.
  induction frames as [|evs frames IH]; intros app app' Hok; simpl.
  - intros [= <-]. exact Hok.
  - destruct (app_run app); [|intros [= <-]; exact Hok].
    destruct (handle_events fuel rows width evs app) as [app1| |] eqn:Hevs;
      try discriminate.
    apply IH. eapply handle_events_inv; eassumption.
Qed.

(** X20: what [main] keeps true.  Whatever is clicked and pressed, in a
    window of whatever width, when [main] has got through the events of
    its frames the grid is a well-formed grid of [ROWS] rows and the start
    and end cells, when chosen, are two different cells of it that carry
    the start colour and the end colour: neither has been painted over as
    a barrier or by a search. *)
Theorem main_keeps_start_end (fuel : nat) (width : Z) (frames : list (list Event))
    (app : App) :
  main fuel width frames = Return app -> app_ok ROWS app.
Proof.
  unfold main.
  destruct (main_init_ok ROWS width ltac:(reflexivity)) as (app0 & -> & Hok & _).
  apply main_loop_inv, Hok.
Qed.

Lemma main_keeps_start_end_witness : app_ok ROWS session_end.
Proof.
  apply (main_keeps_start_end 10 800 session session_end).
  vm_compute. reflexivity.
Defined.

(** X21: pressing SPACE with a start and an end cell chosen decides whether
    a route leads from one to the other on the barrier layout of that
    moment: either there is none, [path_length] becomes 0 and the caption
    reports that no path was found, or the caption reports as
    [path_length] the number of cells of a route from start to end.  The
    start and end cells stay chosen and no barrier is added or removed. *)
Theorem space_reports_route (fuel : nat) (rows width : Z) (pos : Z * Z) (app : App)
    (s e : ref) :
  app_ok rows app -> (fuel_for rows <= fuel)%nat ->
  app_start app = Some s -> app_end app = Some e ->
  exists app',
    handle_event fuel rows width (mkEvent (KEYDOWN K_SPACE) false false pos) app
    = Return app'
    /\ app_start app' = Some s /\ app_end app' = Some e
    /\ (forall q, passable (app_grid app') q = passable (app_grid app) q)
    /\ (((~ exists l, is_route (app_grid app) s l e = true)
         /\ app_path_length app' = 0
         /\ app_caption app' = caption_none)
        \/ (exists l, is_route (app_grid app) s l e = true
              /\ app_path_length app' = Z.of_nat (length l) + 1
              /\ app_caption app' = caption_found (app_path_length app'))).
Proof.
  intros Hok Hfuel Es Ee. unfold handle_event. cbn [ev_type left_pressed right_pressed].
  unfold press_space. rewrite Es, Ee.
  destruct (press_space_run rows fuel app s e Hok Hfuel Es Ee)
    as (g1 & b & L & st & -> & Hr & Hwf1 & Href & Hss & Hes & Hpass1 & Hpass2 & _ & _).
  rewrite Hr. eexists. split; [reflexivity|]. cbn [app_start app_end app_grid
    app_path_length app_caption].
  split; [reflexivity|]. split; [reflexivity|]. split; [exact Hpass2|].
  pose proof (algorithm_post g1 s e Hwf1 Href Hss Hes fuel _ _ _ Hr) as Hpost.
  destruct b.
  - right. destruct Hpost as (st1 & l & l' & _ & Hrev & Hroute & _ & _ & HL & _).
    exists l'. rewrite <- (is_route_passable_ext g1 (app_grid app) l' Hpass1).
    split; [exact Hroute|]. split; [|reflexivity].
    rewrite (rev_route_length _ _ _ _ Hrev). lia.
  - left. destruct Hpost as (HL & _). split; [|split; [exact HL | reflexivity]].
    intros [l Hl]. rewrite <- (is_route_passable_ext g1 (app_grid app) l Hpass1) in Hl.
    pose proof (algorithm_finds g1 s e Hwf1 Href Hss Hes fuel l _ _ _ Hl Hr).
    discriminate.
Qed.

Lemma space_reports_route_witness :
  exists app',
    handle_event (fuel_for 5) 5 800 (mkEvent (KEYDOWN K_SPACE) false false (0, 0))
      (mkApp enclosed_grid (Some (2, 2)) (Some (4, 4)) 0 true title)
    = Return app'
    /\ app_start app' = Some (2, 2) /\ app_end app' = Some (4, 4)
    /\ (forall q, passable (app_grid app') q = passable enclosed_grid q)
    /\ (((~ exists l, is_route enclosed_grid (2, 2) l (4, 4) = true)
         /\ app_path_length app' = 0
         /\ app_caption app' = caption_none)
        \/ (exists l, is_route enclosed_grid (2, 2) l (4, 4) = true
              /\ app_path_length app' = Z.of_nat (length l) + 1
              /\ app_caption app' = caption_found (app_path_length app'))).
Proof.
  apply (space_reports_route (fuel_for 5) 5 800 (0, 0)
           (mkApp enclosed_grid (Some (2, 2)) (Some (4, 4)) 0 true title)).
  - unfold app_ok. cbn [app_grid app_start app_end].
    split; [vm_compute; reflexivity|]. split; [vm_compute; reflexivity|].
    split; [intros s' [= <-]; vm_compute; reflexivity|].
    split; [intros e' [= <-]; vm_compute; reflexivity|].
    intros s' e' [= <-] [= <-]. discriminate.
  - apply Nat.le_refl.
  - reflexivity.
  - reflexivity.
Defined.

(** X22: the handler checks no bounds.  With the pointer at non-negative
    coordinates, the lookup [grid[row][col]] of the clicked cell raises
    ([IndexError]) exactly when the pointer is beyond the [rows * gap]
    pixels that the cells cover; an event handled while a button is down
    there raises; and an event other than a press of SPACE is handled
    without an exception exactly when no button is down or the pointer is on
    the cells. *)
Theorem handle_event_raises_iff (fuel : nat) (rows width : Z) (ev : Event) (app : App) :
  0 < width / rows ->
  app_ok rows app ->
  0 <= (mouse_pos ev).1 -> 0 <= (mouse_pos ev).2 ->
  (click_target rows width (mouse_pos ev) (app_grid app) = None
   <-> ~ ((mouse_pos ev).1 < rows * (width / rows)
          /\ (mouse_pos ev).2 < rows * (width / rows)))
  /\ ((left_pressed ev = true \/ right_pressed ev = true) ->
      click_target rows width (mouse_pos ev) (app_grid app) = None ->
      handle_event fuel rows width ev app = Raise)
  /\ (ev_type ev <> KEYDOWN K_SPACE ->
      ((exists app', handle_event fuel rows width ev app = Return app')
       <-> (left_pressed ev = true \/ right_pressed ev = true ->
            click_target rows width (mouse_pos ev) (app_grid app) <> None))).
Proof.
  intros Hgap Hok Hy Hx.
  pose proof Hok as (Hwf%well_formed_wf & Hlen & _).
  assert (Hrows : 0 < rows).
  { destruct (Z.eq_dec rows 0) as [->|Hne]; [rewrite Z.div_0_r in Hgap|]; lia. }
  assert (Hraise : (left_pressed ev = true \/ right_pressed ev = true) ->
            click_target rows width (mouse_pos ev) (app_grid app) = None ->
            handle_event fuel rows width ev app = Raise).
  { intros Hpressed Hnone. unfold handle_event.
    set (app1 := match ev_type ev with
                 | QUIT => mkApp (app_grid app) (app_start app) (app_end app)
                             (app_path_length app) false (app_caption app)
                 | _ => app
                 end).
    assert (Hg : app_grid app1 = app_grid app).
    { unfold app1. destruct (ev_type ev); reflexivity. }
    rewrite Hg, Hnone.
    destruct (left_pressed ev); [reflexivity|].
    destruct (right_pressed ev); [reflexivity|].
    destruct Hpressed; discriminate. }
  split; [|split; [exact Hraise|]].
  - split.
    + intros Hnone [Hy1 Hx1].
      destruct (click_target_ok rows width (mouse_pos ev) _ Hwf Hlen Hgap
                  ltac:(lia) ltac:(lia)) as [Hsome _].
      congruence.
    + apply click_target_outside; assumption.
  - intros Hkey. split.
    + intros [app' Hrun] Hpressed Hnone.
      rewrite (Hraise Hpressed Hnone) in Hrun. discriminate.
    + intros Hin. unfold handle_event.
      set (app1 := match ev_type ev with
                   | QUIT => mkApp (app_grid app) (app_start app) (app_end app)
                               (app_path_length app) false (app_caption app)
                   | _ => app
                   end).
      assert (Hg : app_grid app1 = app_grid app).
      { unfold app1. destruct (ev_type ev); reflexivity. }
      clearbody app1. rewrite Hg.
      set (clicked := if left_pressed ev then _ else _).
      assert (Hclick : exists app2, clicked = Return app2).
      { unfold clicked.
        destruct (left_pressed ev) eqn:El; [|destruct (right_pressed ev) eqn:Er].
        - destruct (click_target rows width (mouse_pos ev) (app_grid app));
            [eauto | exfalso; apply Hin; auto].
        - destruct (click_target rows width (mouse_pos ev) (app_grid app));
            [eauto | exfalso; apply Hin; auto].
        - eauto. }
      destruct Hclick as [app2 ->].
      destruct (ev_type ev) as [|[| |]|]; eauto.
      * exfalso. apply Hkey. reflexivity.
      * destruct (press_c_ok rows width app2 Hrows) as (app3 & -> & _). eauto.
Qed.

Lemma handle_event_raises_iff_witness :
  (click_target 2 5 (4, 0) corner_grid = None
   <-> ~ (4 < 2 * (5 / 2) /\ 0 < 2 * (5 / 2)))
  /\ ((true = true \/ false = true) ->
      click_target 2 5 (4, 0) corner_grid = None ->
      handle_event 0 2 5 (mkEvent OTHER true false (4, 0))
        (mkApp corner_grid None None 0 true title) = Raise)
  /\ (OTHER <> KEYDOWN K_SPACE ->
      ((exists app', handle_event 0 2 5 (mkEvent OTHER true false (4, 0))
                       (mkApp corner_grid None None 0 true title) = Return app')
       <-> (true = true \/ false = true ->
            click_target 2 5 (4, 0) corner_grid <> None))).
Proof.
  apply (handle_event_raises_iff 0 2 5 (mkEvent OTHER true false (4, 0))
           (mkApp corner_grid None None 0 true title)).
  - reflexivity.
  - unfold app_ok. cbn [app_grid app_start app_end].
    split; [vm_compute; reflexivity|]. split; [vm_compute; reflexivity|].
    repeat split; discriminate.
  - vm_compute. discriminate.
  - vm_compute. discriminate.
Defined.

Lemma left_click_run (q : ref) (app : App) :
  app_run (left_click q app) = app_run app.
Proof.
  unfold left_click.
  repeat match goal with |- context [if ?b then _ else _] => destruct b end;
    reflexivity.
Qed.

Lemma right_click_run (q : ref) (app : App) :
  app_run (right_click q app) = app_run app.
Proof.
  unfold right_click.
  repeat match goal with |- context [if ?b then _ else _] => destruct b end;
    reflexivity.
Qed.

Lemma handle_event_run (fuel : nat) (rows width : Z) (ev : Event) (app app' : App) :
  handle_event fuel rows width ev app = Return app' ->
  app_run app' = match ev_type ev with QUIT => false | _ => app_run app end.
Proof.
  unfold handle_event.
  set (app1 := match ev_type ev with
               | QUIT => mkApp (app_grid app) (app_start app) (app_end app)
                           (app_path_length app) false (app_caption app)
               | _ => app
               end).
  assert (Hrun1 : app_run app1
                  = match ev_type ev with QUIT => false | _ => app_run app end).
  { unfold app1. destruct (ev_type ev); reflexivity. }
  rewrite <- Hrun1. clearbody app1. clear Hrun1.
  set (clicked := if left_pressed ev then _ else _).
  assert (Hclick : forall app2, clicked = Return app2 -> app_run app2 = app_run app1).
  { intros app2. unfold clicked.
    destruct (left_pressed ev); [|destruct (right_pressed ev)].
    - destruct (click_target rows width (mouse_pos ev) (app_grid app1)); [|discriminate].
      intros [= <-]. apply left_click_run.
    - destruct (click_target rows width (mouse_pos ev) (app_grid app1)); [|discriminate].
      intros [= <-]. apply right_click_run.
    - intros [= <-]. reflexivity. }
  destruct clicked as [app2| |]; try discriminate.
  rewrite <- (Hclick app2 eq_refl).
  destruct (ev_type ev) as [|[| |]|]; try (intros [= <-]; reflexivity).
  - unfold press_space.
    destruct (app_start app2); [|intros [= <-]; reflexivity].
    destruct (app_end app2); [|intros [= <-]; reflexivity].
    destruct (refresh_all (app_grid app2)); [|discriminate].
    match goal with |- context [algorithm ?a ?b ?c ?d] =>
      destruct (algorithm a b c d) as [[[found L] st]| |] end; try discriminate.
    intros [= <-]. reflexivity.
  - unfold press_c. destruct (make_grid rows width); [|discriminate].
    intros [= <-]. reflexivity.
Qed.

(** X23: only a QUIT event ends [main], and it does so for good: after the
    events of a frame [run] is still set exactly when it was set before and
    none of the events was a QUIT (pressing [c] resets the grid, not
    [run]); the events that follow a QUIT in its frame are still handled,
    and no later frame is. *)
Theorem quit_ends_main (fuel : nat) (rows width : Z) (evs : list Event)
    (frames : list (list Event)) (app app' : App) :
  handle_events fuel rows width evs app = Return app' ->
  (app_run app' = true
   <-> app_run app = true /\ Forall (fun ev => ev_type ev <> QUIT) evs)
  /\ (app_run app = true -> Exists (fun ev => ev_type ev = QUIT) evs ->
      main_loop fuel rows width (evs :: frames) app = Return app').
Proof.
  intros Hrun.
  assert (Hiff : app_run app' = true
                 <-> app_run app = true /\ Forall (fun ev => ev_type ev <> QUIT) evs).
  { revert app Hrun. induction evs as [|ev evs IH]; intros app; simpl.
    - intros [= <-]. split; [intros H; split; [exact H | constructor]|].
      intros [H _]. exact H.
    - destruct (handle_event fuel rows width ev app) as [app1| |] eqn:Hev;
        try discriminate.
      intros Hrest. rewrite (IH app1 Hrest), (handle_event_run _ _ _ _ _ _ Hev).
      rewrite Forall_cons. destruct (ev_type ev) as [|k|]; split.
      + intros [H _]. discriminate.
      + intros [_ [H _]]. exfalso. apply H. reflexivity.
      + intros [H1 H2]. split; [exact H1|]. split; [discriminate | exact H2].
      + intros [H1 [_ H2]]. split; assumption.
      + intros [H1 H2]. split; [exact H1|]. split; [discriminate | exact H2].
      + intros [H1 [_ H2]]. split; assumption. }
  split; [exact Hiff|]. intros Happ Hquit. simpl. rewrite Happ, Hrun.
  destruct frames as [|evs' frames']; [reflexivity|]. simpl.
  destruct (app_run app') eqn:E; [|reflexivity].
  exfalso. destruct (proj1 Hiff eq_refl) as [_ Hall].
  rewrite Forall_forall in Hall. apply Exists_exists in Hquit as (ev & Hin & Hq).
  exact (Hall ev Hin Hq).
Qed.

Lemma quit_ends_main_witness :
  (app_run (mkApp (default [] (make_grid 2 800)) None None 0 false title) = true
   <-> app_run (mkApp corner_grid None None 0 true title) = true
       /\ Forall (fun ev => ev_type ev <> QUIT)
            [mkEvent QUIT false false (0, 0); mkEvent (KEYDOWN K_c) false false (0, 0)])
  /\ (app_run (mkApp corner_grid None None 0 true title) = true ->
      Exists (fun ev => ev_type ev = QUIT)
        [mkEvent QUIT false false (0, 0); mkEvent (KEYDOWN K_c) false false (0, 0)] ->
      main_loop 0 2 800
        ([mkEvent QUIT false false (0, 0); mkEvent (KEYDOWN K_c) false false (0, 0)]
           :: [[mkEvent OTHER true false (5, 5)]])
        (mkApp corner_grid None None 0 true title)
      = Return (mkApp (default [] (make_grid 2 800)) None None 0 false title)).
Proof.
  apply (quit_ends_main 0 2 800
           [mkEvent QUIT false false (0, 0); mkEvent (KEYDOWN K_c) false false (0, 0)]
           [[mkEvent OTHER true false (5, 5)]]
           (mkApp corner_grid None None 0 true title)
           (mkApp (default [] (make_grid 2 800)) None None 0 false title)).
  vm_compute. reflexivity.
Defined.
